(** * Banking system: bank.cpp and ledger.cpp

    A shallow embedding of the [Bank] class (src/src/bank.cpp, with
    src/include/bank.h) and of the worker loop (src/src/ledger.cpp).

    The C++ functions are written once, as programs over a small set of
    atomic actions (indexing the account array, locking and unlocking a
    pthread mutex, reading and writing a balance, printing a line, bumping a
    counter, touching the global ledger list).  The programs are then run
    - sequentially, by [run], for the functional properties, and
    - interleaved, by [pool_step], for the locking properties. *)

From Stdlib Require Import ZArith Lia.
From stdpp Require Import base tactics option list strings pretty.

Open Scope Z_scope.

(** ** Machine integers (LP64: [int] is 32 bits, [long] is 64 bits) *)

Definition INT_MIN : Z := - 2 ^ 31.
Definition INT_MAX : Z := 2 ^ 31 - 1.
Definition LONG_MIN : Z := - 2 ^ 63.
Definition LONG_MAX : Z := 2 ^ 63 - 1.

Definition in_int (z : Z) : bool := (INT_MIN <=? z) && (z <=? INT_MAX).
Definition in_long (z : Z) : bool := (LONG_MIN <=? z) && (z <=? LONG_MAX).

(** Implicit conversion of an [int] to [unsigned int]: reduction modulo 2^32. *)
Definition to_unsigned (z : Z) : Z := z mod 2 ^ 32.

(** [std::to_string] on an integer: its decimal numeral, with a leading minus
    sign for a negative value. *)
Definition to_string (z : Z) : string := pretty z.

(** ** Data model (bank.h) *)

(** The thread that executes an action; it is what a mutex remembers as its
    owner.  It is not the [workerID] argument, which is only printed. *)
Definition tid := nat.

(** A [pthread_mutex_t]: free, or held by a thread. *)
Definition mutex := option tid.

Record Account := mkAccount {
  accountID : Z;      (* unsigned int *)
  balance : Z;        (* long *)
  lock : mutex
}.

Record Bank := mkBank {
  num : Z;            (* int *)
  num_succ : Z;       (* int *)
  num_fail : Z;       (* int *)
  bank_lock : mutex;
  accounts : list Account   (* struct Account *accounts, [num] elements *)
}.

(** Modelled from the spec: [struct Ledger] is declared in include/ledger.h,
    which is not among the sources; ledger.cpp uses the fields below, and the
    spec gives the file format as four [int] fields
    [account other amount mode]. *)
Record Ledger := mkLedger {
  acc : Z;
  other : Z;
  amount : Z;
  mode : Z;
  ledgerID : Z
}.

(** Modelled from the spec: the mode constants of include/ledger.h,
    [0 = DEPOSIT], [1 = WITHDRAW], [2 = TRANSFER]. *)
Definition D : Z := 0.
Definition W : Z := 1.
Definition T : Z := 2.

Inductive lockid :=
| AccLock (i : Z)     (* accounts[i].lock *)
| BankLock            (* bank->bank_lock *)
| LedgerLock.         (* ledger_lock *)

Global Instance lockid_eq_dec : EqDecision lockid.
Proof. solve_decision. Defined.

(** One entry of the lock history (instrumentation: the program never reads
    it). *)
Inductive lock_op :=
| Acq (t : tid) (l : lockid)
| Rel (t : tid) (l : lockid).

(** Everything the threads share: the bank, the global [ledger] list with its
    lock, the lines written to [cout], and the lock history. *)
Record World := mkWorld {
  bank : Bank;
  ledger : list Ledger;
  ledger_lock : mutex;
  cout : list string;
  locklog : list lock_op
}.

(** *** Field updates *)

Definition set_lock (m : mutex) (a : Account) : Account :=
  mkAccount (accountID a) (balance a) m.
Definition set_balance (v : Z) (a : Account) : Account :=
  mkAccount (accountID a) v (lock a).

Definition with_accounts (l : list Account) (b : Bank) : Bank :=
  mkBank (num b) (num_succ b) (num_fail b) (bank_lock b) l.
Definition with_bank_lock (m : mutex) (b : Bank) : Bank :=
  mkBank (num b) (num_succ b) (num_fail b) m (accounts b).
Definition with_num_succ (n : Z) (b : Bank) : Bank :=
  mkBank (num b) n (num_fail b) (bank_lock b) (accounts b).
Definition with_num_fail (n : Z) (b : Bank) : Bank :=
  mkBank (num b) (num_succ b) n (bank_lock b) (accounts b).

Definition with_bank (b : Bank) (w : World) : World :=
  mkWorld b (ledger w) (ledger_lock w) (cout w) (locklog w).
Definition with_ledger (l : list Ledger) (w : World) : World :=
  mkWorld (bank w) l (ledger_lock w) (cout w) (locklog w).
Definition with_ledger_lock (m : mutex) (w : World) : World :=
  mkWorld (bank w) (ledger w) m (cout w) (locklog w).
Definition with_cout (c : list string) (w : World) : World :=
  mkWorld (bank w) (ledger w) (ledger_lock w) c (locklog w).
Definition log_lock (o : lock_op) (w : World) : World :=
  mkWorld (bank w) (ledger w) (ledger_lock w) (cout w) (locklog w ++ [o]).

(** [accounts[i]]: the element, or [None] when [i] is outside the array. *)
Definition lookup_account (w : World) (i : Z) : option Account :=
  if i <? 0 then None else accounts (bank w) !! Z.to_nat i.

(** In-place update of [accounts[i]] (there is no account of negative
    index). *)
Definition alter_account (f : Account → Account) (i : Z) (w : World) : World :=
  if i <? 0 then w
  else with_bank (with_accounts (alter f (Z.to_nat i) (accounts (bank w))) (bank w)) w.

(** The counters and the bank mutex, updated in place. *)
Definition set_bank_lock (m : mutex) (w : World) : World :=
  with_bank (with_bank_lock m (bank w)) w.
Definition set_num_succ (n : Z) (w : World) : World :=
  with_bank (with_num_succ n (bank w)) w.
Definition set_num_fail (n : Z) (w : World) : World :=
  with_bank (with_num_fail n (bank w)) w.

(** The state of a mutex; [None] when there is no such mutex (an account
    index outside the array). *)
Definition lock_of (w : World) (l : lockid) : option mutex :=
  match l with
  | AccLock i => lock <$> lookup_account w i
  | BankLock => Some (bank_lock (bank w))
  | LedgerLock => Some (ledger_lock w)
  end.

Definition set_mutex (l : lockid) (m : mutex) (w : World) : World :=
  match l with
  | AccLock i => alter_account (set_lock m) i w
  | BankLock => set_bank_lock m w
  | LedgerLock => with_ledger_lock m w
  end.

(** The world after thread [t] took mutex [l], after it gave it back, and
    after [v] was written to [accounts[i].balance]. *)
Definition acquired (t : tid) (l : lockid) (w : World) : World :=
  log_lock (Acq t l) (set_mutex l (Some t) w).
Definition released (t : tid) (l : lockid) (w : World) : World :=
  log_lock (Rel t l) (set_mutex l None w).
Definition stored (i v : Z) (w : World) : World :=
  alter_account (set_balance v) i w.

(** *** Observations used in the statements *)

Definition balance_of (w : World) (i : Z) : option Z :=
  balance <$> lookup_account w i.

Definition balances (w : World) : list Z := balance <$> accounts (bank w).

Definition num_accounts (w : World) : Z := Z.of_nat (length (accounts (bank w))).

(** ** Programs *)

(** The atomic actions, indexed by the type of their answer. *)
Inductive event : Type → Type :=
| EIndex (i : Z) : event unit              (* Account& r = accounts[i] *)
| ELock (l : lockid) : event unit          (* pthread_mutex_lock *)
| EUnlock (l : lockid) : event unit        (* pthread_mutex_unlock *)
| ELoad (i : Z) : event Z                  (* read accounts[i].balance *)
| EStore (i : Z) (v : Z) : event unit      (* write accounts[i].balance *)
| EAccountID (i : Z) : event Z             (* read accounts[i].accountID *)
| ENum : event Z                           (* read num *)
| ENumSucc : event Z                       (* read num_succ *)
| ENumFail : event Z                       (* read num_fail *)
| ECout (s : string) : event unit          (* cout << s << endl *)
| EIncSucc : event unit                    (* num_succ++ *)
| EIncFail : event unit                    (* num_fail++ *)
| ELedgerEmpty : event bool                (* ledger.empty() *)
| ELedgerFront : event Ledger              (* ledger.front() *)
| ELedgerPop : event unit.                 (* ledger.pop_front() *)

Inductive prog (R : Type) : Type :=
| Ret (r : R)
| Vis {X : Type} (e : event X) (k : X → prog R).
Arguments Ret {R} r.
Arguments Vis {R X} e k.

Fixpoint bind {A B : Type} (p : prog A) (f : A → prog B) : prog B :=
  match p with
  | Ret a => f a
  | Vis e k => Vis e (λ x, bind (k x) f)
  end.

Definition trigger {X : Type} (e : event X) : prog X := Vis e Ret.

Declare Scope prog_scope.
Delimit Scope prog_scope with prog.
Bind Scope prog_scope with prog.
Notation "x <- p ;; q" := (bind p (λ x, q))
  (at level 100, p at next level, right associativity) : prog_scope.
Notation "p ;; q" := (bind p (λ _, q))
  (at level 100, right associativity) : prog_scope.
Open Scope prog_scope.

(** *** What can go wrong *)

Inductive fault :=
| OutOfBounds        (* accounts[i] with i outside [0, number of accounts) *)
| SignedOverflow     (* a signed result that its type cannot represent *)
| UnlockNotOwner     (* unlocking a mutex the thread does not hold *)
| FrontOfEmpty.      (* front() or pop_front() of an empty list *)

(** Outcome of an action or of a program: it finished with an answer and a
    new world, it waits for a mutex, or its behaviour is undefined. *)
Inductive result (X : Type) : Type :=
| Done (x : X) (w : World)
| Blocked
| Fault (f : fault).
Arguments Done {X} x w.
Arguments Blocked {X}.
Arguments Fault {X} f.

(** [pthread_mutex_lock]: take the mutex if it is free, wait otherwise (also
    when the caller itself holds it: the mutexes are initialised with default
    attributes and are not recursive). *)
Definition mutex_acquire (t : tid) (l : lockid) (w : World) : result unit :=
  match lock_of w l with
  | None => Fault OutOfBounds
  | Some None => Done tt (acquired t l w)
  | Some (Some _) => Blocked
  end.

Definition owned_by (t : tid) (m : mutex) : bool :=
  match m with
  | Some t' => Nat.eqb t t'
  | None => false
  end.

(** [pthread_mutex_unlock]: defined only for the thread that holds the
    mutex. *)
Definition mutex_release (t : tid) (l : lockid) (w : World) : result unit :=
  match lock_of w l with
  | None => Fault OutOfBounds
  | Some m =>
      if owned_by t m
      then Done tt (released t l w)
      else Fault UnlockNotOwner
  end.

(** One atomic action of thread [t] on the world. *)
Definition handle {X : Type} (t : tid) (e : event X) (w : World) : result X :=
  match e in event X return result X with
  | EIndex i =>
      match lookup_account w i with
      | Some _ => Done tt w
      | None => Fault OutOfBounds
      end
  | ELock l => mutex_acquire t l w
  | EUnlock l => mutex_release t l w
  | ELoad i =>
      match lookup_account w i with
      | Some a => Done (balance a) w
      | None => Fault OutOfBounds
      end
  | EStore i v =>
      match lookup_account w i with
      | Some _ =>
          if in_long v then Done tt (stored i v w)
          else Fault SignedOverflow
      | None => Fault OutOfBounds
      end
  | EAccountID i =>
      match lookup_account w i with
      | Some a => Done (accountID a) w
      | None => Fault OutOfBounds
      end
  | ENum => Done (num (bank w)) w
  | ENumSucc => Done (num_succ (bank w)) w
  | ENumFail => Done (num_fail (bank w)) w
  | ECout s => Done tt (with_cout (cout w ++ [s]) w)
  | EIncSucc =>
      if in_int (num_succ (bank w) + 1)
      then Done tt (set_num_succ (num_succ (bank w) + 1) w)
      else Fault SignedOverflow
  | EIncFail =>
      if in_int (num_fail (bank w) + 1)
      then Done tt (set_num_fail (num_fail (bank w) + 1) w)
      else Fault SignedOverflow
  | ELedgerEmpty =>
      Done (match ledger w with [] => true | _ => false end) w
  | ELedgerFront =>
      match ledger w with
      | e :: _ => Done e w
      | [] => Fault FrontOfEmpty
      end
  | ELedgerPop =>
      match ledger w with
      | _ :: l => Done tt (with_ledger l w)
      | [] => Fault FrontOfEmpty
      end
  end.

(** Thread [t] runs [p] to its end with no other thread running. *)
Fixpoint run {R : Type} (t : tid) (p : prog R) (w : World) : result R :=
  match p with
  | Ret r => Done r w
  | Vis e k =>
      match handle t e w with
      | Done x w' => run t (k x) w'
      | Blocked => Blocked
      | Fault f => Fault f
      end
  end.

(** ** bank.cpp *)

Definition SUCC : string := "[ SUCCESS ] ".
Definition ERR : string := "[ FAIL ] ".

Definition DEPOSITE_MSG (level : string) (w l a m : Z) : string :=
  level +:+ "TID: " +:+ to_string w +:+ ", LID: " +:+ to_string l +:+
  ", Acc: " +:+ to_string a +:+ " DEPOSIT $" +:+ to_string m.

Definition WITHDRAW_MSG (level : string) (w l a m : Z) : string :=
  level +:+ "TID: " +:+ to_string w +:+ ", LID: " +:+ to_string l +:+
  ", Acc: " +:+ to_string a +:+ " WITHDRAW $" +:+ to_string m.

Definition TRANSFER_MSG (level : string) (w l a o m : Z) : string :=
  level +:+ "TID: " +:+ to_string w +:+ ", LID: " +:+ to_string l +:+
  ", Acc: " +:+ to_string a +:+ " TRANSFER $" +:+ to_string m +:+
  " TO Acc: " +:+ to_string o.

Definition account_ref (i : Z) : prog unit := trigger (EIndex i).
Definition pthread_mutex_lock (l : lockid) : prog unit := trigger (ELock l).
Definition pthread_mutex_unlock (l : lockid) : prog unit := trigger (EUnlock l).
Definition load_balance (i : Z) : prog Z := trigger (ELoad i).
Definition store_balance (i v : Z) : prog unit := trigger (EStore i v).

(** [accounts[i].balance += d] and [accounts[i].balance -= d]. *)
Definition add_balance (i d : Z) : prog unit :=
  b <- load_balance i ;; store_balance i (b + d).
Definition sub_balance (i d : Z) : prog unit :=
  b <- load_balance i ;; store_balance i (b - d).

(** [Bank::print_account]: the body of the loop for account [i], the loop
    from [i] over [count] accounts, and the whole function. *)
Definition print_account_line (i : Z) : prog unit :=
  pthread_mutex_lock (AccLock i) ;;
  id <- trigger (EAccountID i) ;;
  b <- load_balance i ;;
  trigger (ECout ("ID# " +:+ to_string id +:+ " | " +:+ to_string b)) ;;
  pthread_mutex_unlock (AccLock i).

Fixpoint print_account_loop (i : Z) (count : nat) : prog unit :=
  match count with
  | O => Ret tt
  | S c => print_account_line i ;; print_account_loop (i + 1) c
  end.

Definition print_account : prog unit :=
  n <- trigger ENum ;;
  print_account_loop 0 (Z.to_nat n) ;;
  pthread_mutex_lock BankLock ;;
  s <- trigger ENumSucc ;;
  f <- trigger ENumFail ;;
  trigger (ECout ("Success: " +:+ to_string s +:+ " Fails: " +:+ to_string f)) ;;
  pthread_mutex_unlock BankLock.

Definition recordFail (message : string) : prog unit :=
  pthread_mutex_lock BankLock ;;
  trigger (ECout message) ;;
  trigger EIncFail ;;
  pthread_mutex_unlock BankLock.

Definition recordSucc (message : string) : prog unit :=
  pthread_mutex_lock BankLock ;;
  trigger (ECout message) ;;
  trigger EIncSucc ;;
  pthread_mutex_unlock BankLock.

(** The world after [recordSucc] and after [recordFail] by thread [t]. *)
Definition recorded_succ (t : tid) (message : string) (w : World) : World :=
  released t BankLock
    (set_num_succ (num_succ (bank w) + 1)
       (with_cout (cout w ++ [message]) (acquired t BankLock w))).

Definition recorded_fail (t : tid) (message : string) (w : World) : World :=
  released t BankLock
    (set_num_fail (num_fail (bank w) + 1)
       (with_cout (cout w ++ [message]) (acquired t BankLock w))).

(** [Bank::Bank(N)]: [N] accounts with identifiers [0 .. N-1], balance 0 and
    a free mutex each.  [new Account[num]] throws for a negative [N]: the
    [None] branch. *)
Definition new_accounts (n : nat) : list Account :=
  (λ i : nat, mkAccount (to_unsigned (Z.of_nat i)) 0 None) <$> seq 0 n.

Definition Bank_new (N : Z) : option Bank :=
  if N <? 0 then None
  else Some (mkBank N 0 0 None (new_accounts (Z.to_nat N))).

Definition deposit (workerID ledgerID accountID amount : Z) : prog Z :=
  account_ref accountID ;;
  pthread_mutex_lock (AccLock accountID) ;;
  add_balance accountID amount ;;
  recordSucc (DEPOSITE_MSG SUCC workerID ledgerID accountID amount) ;;
  pthread_mutex_unlock (AccLock accountID) ;;
  Ret 0.

Definition withdraw (workerID ledgerID accountID amount : Z) : prog Z :=
  account_ref accountID ;;
  pthread_mutex_lock (AccLock accountID) ;;
  b <- load_balance accountID ;;
  successful <-
    (if amount <=? b then
       sub_balance accountID amount ;;
       recordSucc (WITHDRAW_MSG SUCC workerID ledgerID accountID amount) ;;
       Ret 0
     else
       recordFail (WITHDRAW_MSG ERR workerID ledgerID accountID amount) ;;
       Ret (-1)) ;;
  pthread_mutex_unlock (AccLock accountID) ;;
  Ret successful.

(** [amount] is an [unsigned int]; against the [long] balance it is compared
    and subtracted as a [long] of the same value. *)
Definition transfer (workerID ledgerID srcID destID amount : Z) : prog Z :=
  account_ref srcID ;;
  account_ref destID ;;
  pthread_mutex_lock (AccLock srcID) ;;
  if srcID =? destID then Ret (-1) else
  pthread_mutex_unlock (AccLock srcID) ;;
  (if srcID <? destID then
     pthread_mutex_lock (AccLock srcID) ;;
     pthread_mutex_lock (AccLock destID)
   else
     pthread_mutex_lock (AccLock destID) ;;
     pthread_mutex_lock (AccLock srcID)) ;;
  b <- load_balance srcID ;;
  successful <-
    (if amount <=? b then
       sub_balance srcID amount ;;
       add_balance destID amount ;;
       recordSucc (TRANSFER_MSG SUCC workerID ledgerID srcID destID amount) ;;
       Ret 0
     else
       recordFail (TRANSFER_MSG ERR workerID ledgerID srcID destID amount) ;;
       Ret (-1)) ;;
  (if srcID <? destID then
     pthread_mutex_unlock (AccLock destID) ;;
     pthread_mutex_unlock (AccLock srcID)
   else
     pthread_mutex_unlock (AccLock srcID) ;;
     pthread_mutex_unlock (AccLock destID)) ;;
  Ret successful.

(** The world after the lock, unlock, lock, lock prologue of a transfer
    between two different accounts, and after its two final unlocks. *)
Definition transfer_locked (t : tid) (srcID destID : Z) (w : World) : World :=
  let w1 := released t (AccLock srcID) (acquired t (AccLock srcID) w) in
  if srcID <? destID
  then acquired t (AccLock destID) (acquired t (AccLock srcID) w1)
  else acquired t (AccLock srcID) (acquired t (AccLock destID) w1).

Definition transfer_unlocked (t : tid) (srcID destID : Z) (w : World) : World :=
  if srcID <? destID
  then released t (AccLock srcID) (released t (AccLock destID) w)
  else released t (AccLock destID) (released t (AccLock srcID) w).

(** ** ledger.cpp *)

(** One pass through the body of [while (1)] in [worker]; the answer is
    [true] when the pass ends in [return NULL] and [false] when it reaches
    the end of the body.  [ledger.empty()] is read before [ledger_lock] is
    taken, as in the source.  The [amount] of the entry is an [int] and is
    converted to the [unsigned int] parameter of [transfer]. *)
Definition worker_iteration (id : Z) : prog bool :=
  e <- trigger ELedgerEmpty ;;
  if (e : bool) then Ret true else
  pthread_mutex_lock LedgerLock ;;
  current_entry <- trigger ELedgerFront ;;
  trigger ELedgerPop ;;
  pthread_mutex_unlock LedgerLock ;;
  (if mode current_entry =? D then
     deposit id (ledgerID current_entry) (acc current_entry)
       (amount current_entry)
   else if mode current_entry =? W then
     withdraw id (ledgerID current_entry) (acc current_entry)
       (amount current_entry)
   else
     transfer id (ledgerID current_entry) (acc current_entry)
       (other current_entry) (to_unsigned (amount current_entry))) ;;
  Ret false.

(** [worker], with a bound on the number of passes; the answer tells whether
    [return NULL] was reached within the bound. *)
Fixpoint worker (passes : nat) (id : Z) : prog bool :=
  match passes with
  | O => Ret false
  | S n =>
      stop <- worker_iteration id ;;
      if (stop : bool) then Ret true else worker n id
  end.

(** *** The worker threads, interleaved *)

(** A worker thread: the rest of its current pass, or returned. *)
Inductive thread :=
| Running (id : Z) (p : prog bool)
| Returned.

(** [pthread_create(&workers[i], NULL, worker, (void* ) i)]. *)
Definition spawn (i : nat) : thread :=
  Running (Z.of_nat i) (worker_iteration (Z.of_nat i)).

(** One atomic action of a thread.  A returned thread has none, which is
    reported as [Blocked]. *)
Definition thread_step (t : tid) (th : thread) (w : World) : result thread :=
  match th with
  | Returned => Blocked
  | Running id (Ret true) => Done Returned w
  | Running id (Ret false) => Done (Running id (worker_iteration id)) w
  | Running id (Vis e k) =>
      match handle t e w with
      | Done x w' => Done (Running id (k x)) w'
      | Blocked => Blocked
      | Fault f => Fault f
      end
  end.

Abbreviation pool := (list thread).

(** The pool in which thread [t] takes one step. *)
Definition pool_step (t : tid) (ths : pool) (w : World) : result pool :=
  match ths !! t with
  | None => Blocked
  | Some th =>
      match thread_step t th w with
      | Done th' w' => Done (<[t := th']> ths) w'
      | Blocked => Blocked
      | Fault f => Fault f
      end
  end.

(** The threads named by [sched] step one after the other. *)
Fixpoint run_schedule (sched : list tid) (ths : pool) (w : World) : result pool :=
  match sched with
  | [] => Done ths w
  | t :: sched' =>
      match pool_step t ths w with
      | Done ths' w' => run_schedule sched' ths' w'
      | Blocked => Blocked
      | Fault f => Fault f
      end
  end.

Definition returned (th : thread) : bool :=
  match th with
  | Returned => true
  | Running _ _ => false
  end.

Definition can_step (w : World) (t : tid) (th : thread) : bool :=
  match thread_step t th w with
  | Blocked => false
  | _ => true
  end.

(** No thread can take a step although one of them has not returned. *)
Definition deadlocked (ths : pool) (w : World) : bool :=
  negb (forallb returned ths)
  && forallb (λ '(t, th), negb (can_step w t th)) (imap pair ths).

(** A world around a bank: the loaded ledger, nothing printed, no lock
    taken. *)
Definition world_of (b : Bank) (l : list Ledger) : World :=
  mkWorld b l None [] [].

(** [InitBank] up to [pthread_create]: a bank of 10 accounts, the loaded
    ledger and [num_workers] threads about to enter [worker]. *)
Definition bank10 : Bank := mkBank 10 0 0 None (new_accounts 10).

Definition InitBank (num_workers : nat) (l : list Ledger) : pool * World :=
  (spawn <$> seq 0 num_workers, world_of bank10 l).

(** ** Sequences of operations *)

(** A call of one of the three public operations of [Bank]. *)
Inductive op :=
| Deposit (workerID ledgerID accountID amount : Z)
| Withdraw (workerID ledgerID accountID amount : Z)
| Transfer (workerID ledgerID srcID destID amount : Z).

Definition op_prog (o : op) : prog Z :=
  match o with
  | Deposit workerID ledgerID accountID amount =>
      deposit workerID ledgerID accountID amount
  | Withdraw workerID ledgerID accountID amount =>
      withdraw workerID ledgerID accountID amount
  | Transfer workerID ledgerID srcID destID amount =>
      transfer workerID ledgerID srcID destID amount
  end.

Definition op_amount (o : op) : Z :=
  match o with
  | Deposit _ _ _ amount | Withdraw _ _ _ amount | Transfer _ _ _ _ amount =>
      amount
  end.

(** The calls run one after the other, each by its own thread; the answer is
    the list of the values they return. *)
Fixpoint run_ops (ops : list (tid * op)) (w : World) : result (list Z) :=
  match ops with
  | [] => Done [] w
  | (t, o) :: ops' =>
      match run t (op_prog o) w with
      | Done r w' =>
          match run_ops ops' w' with
          | Done rs w'' => Done (r :: rs) w''
          | Blocked => Blocked
          | Fault f => Fault f
          end
      | Blocked => Blocked
      | Fault f => Fault f
      end
  end.

(** A deposit into a fixed account: thread, [workerID], [ledgerID],
    [amount]. *)
Definition deposit_call : Type := tid * Z * Z * Z.

Definition deposit_amount (c : deposit_call) : Z := snd c.

Definition deposit_into (accountID : Z) (c : deposit_call) : tid * op :=
  let '(t, workerID, ledgerID, amount) := c in
  (t, Deposit workerID ledgerID accountID amount).

Fixpoint total (l : list Z) : Z :=
  match l with
  | [] => 0
  | x :: l' => x + total l'
  end.

(** Every running sum [b + a1 + ... + ak] is a [long]. *)
Fixpoint sums_fit (b : Z) (l : list Z) : bool :=
  match l with
  | [] => true
  | a :: l' => in_long (b + a) && sums_fit (b + a) l'
  end.

(** The number of records an operation leaves with [recordSucc] or
    [recordFail]: one, except for a transfer from an account to itself, which
    returns before it records anything. *)
Definition recorded (o : op) : Z :=
  match o with
  | Transfer _ _ srcID destID _ => if srcID =? destID then 0 else 1
  | _ => 1
  end.

(** The call that [worker] makes for a ledger entry. *)
Definition entry_op (id : Z) (e : Ledger) : op :=
  if mode e =? D then Deposit id (ledgerID e) (acc e) (amount e)
  else if mode e =? W then Withdraw id (ledgerID e) (acc e) (amount e)
  else Transfer id (ledgerID e) (acc e) (other e) (to_unsigned (amount e)).

(** An entry that makes [worker] call [transfer] with equal accounts. *)
Definition self_transfer_entry (e : Ledger) : bool :=
  negb (mode e =? D) && negb (mode e =? W) && (acc e =? other e).

(** The world in which thread [t] has taken the front entry off the
    ledger. *)
Definition taken (t : tid) (rest : list Ledger) (w : World) : World :=
  released t LedgerLock (with_ledger rest (acquired t LedgerLock w)).

(** *** Account indices inside the array *)

Definition event_in_bounds {X : Type} (n : Z) (e : event X) : Prop :=
  match e with
  | EIndex i | ELoad i | EStore i _ | EAccountID i
  | ELock (AccLock i) | EUnlock (AccLock i) => 0 ≤ i < n
  | _ => True
  end.

(** Every account index the program can use is in [[0, n)]. *)
Fixpoint in_bounds {R : Type} (n : Z) (p : prog R) : Prop :=
  match p with
  | Ret _ => True
  | Vis e k => event_in_bounds n e ∧ ∀ x, in_bounds n (k x)
  end.

(** *** Lock discipline *)

(** The order in which two mutexes may be held together: account mutexes by
    ascending index, [bank_lock] innermost. *)
Definition lock_before (l1 l2 : lockid) : Prop :=
  match l1, l2 with
  | AccLock i, AccLock j => i < j
  | AccLock _, BankLock => True
  | _, _ => False
  end.

(** The mutexes held after an action, given the mutexes held before it. *)
Definition held_after {X : Type} (e : event X) (held : list lockid) : list lockid :=
  match e with
  | ELock l => l :: held
  | EUnlock l => filter (λ l', l' ≠ l) held
  | _ => held
  end.

(** A mutex is only taken when every mutex already held comes before it. *)
Definition acquires_in_order {X : Type} (e : event X) (held : list lockid) : Prop :=
  match e with
  | ELock l => Forall (λ l', lock_before l' l) held
  | _ => True
  end.

(** [p], started while holding [held], takes its mutexes in order, and when
    it returns the mutexes it holds satisfy [Q]. *)
Fixpoint lock_discipline {R : Type} (held : list lockid) (p : prog R)
    (Q : list lockid → Prop) : Prop :=
  match p with
  | Ret _ => Q held
  | Vis e k =>
      acquires_in_order e held
      ∧ ∀ x, lock_discipline (held_after e held) (k x) Q
  end.

(** No account holds a negative balance. *)
Definition nonneg (w : World) : Prop := ∀ j b, balance_of w j = Some b → 0 ≤ b.

(** [successCount + failCount]. *)
Definition records (w : World) : Z := num_succ (bank w) + num_fail (bank w).

(** *** Worlds for the examples *)

(** A bank whose accounts hold the given balances, all mutexes free. *)
Definition bank_with (bals : list Z) : Bank :=
  mkBank (Z.of_nat (length bals)) 0 0 None
    (imap (λ i b, mkAccount (Z.of_nat i) b None) bals).

(** The four scenarios of the spec in a row, then a self-transfer. *)
Definition sample_ops : list (tid * op) :=
  [(0%nat, Deposit 0 0 0 100);
   (1%nat, Withdraw 1 1 0 150);
   (0%nat, Transfer 0 2 0 1 50);
   (1%nat, Transfer 1 3 2 2 10)].

Definition sample_world : World :=
  match run_ops sample_ops (world_of bank10 []) with
  | Done _ w => w
  | _ => world_of bank10 []
  end.

(** A ledger of two entries, a transfer from account 0 to itself and a
    deposit into account 0, and two schedules of two workers on it: in the
    first, worker 0 takes both entries; in the second, worker 0 takes the
    transfer and worker 1 the deposit. *)
Definition self_transfer_ledger : list Ledger :=
  [mkLedger 0 0 5 T 0; mkLedger 0 0 1 D 1].

Definition schedule_one_worker : list tid :=
  replicate 15 0%nat ++ replicate 2 1%nat.

Definition schedule_two_workers : list tid :=
  replicate 9 0%nat ++ replicate 6 1%nat ++ replicate 2 0%nat.

(** Where a schedule leaves the pool of [InitBank]. *)
Definition after_schedule (num_workers : nat) (l : list Ledger)
    (sched : list tid) : option (pool * World) :=
  match run_schedule sched (InitBank num_workers l).1 (InitBank num_workers l).2 with
  | Done ths w => Some (ths, w)
  | _ => None
  end.

(** ** What the report should contain *)

(** The line of [print_account] for an account, and its last line. *)
Definition account_line (a : Account) : string :=
  "ID# " +:+ to_string (accountID a) +:+ " | " +:+ to_string (balance a).

Definition summary_line (succ fail : Z) : string :=
  "Success: " +:+ to_string succ +:+ " Fails: " +:+ to_string fail.

(** One line per account, by ascending index, then the two counters. *)
Definition report (w : World) : list string :=
  (account_line <$> accounts (bank w))
  ++ [summary_line (num_succ (bank w)) (num_fail (bank w))].

(** *** How many mutexes are held, and what they protect *)

(** [p], started while holding [held], never holds more than [n] mutexes, and
    when it returns the mutexes it holds satisfy [Q]. *)
Fixpoint locks_bounded {R : Type} (n : nat) (held : list lockid) (p : prog R)
    (Q : list lockid → Prop) : Prop :=
  match p with
  | Ret _ => Q held
  | Vis e k =>
      (length (held_after e held) ≤ n)%nat
      ∧ ∀ x, locks_bounded n (held_after e held) (k x) Q
  end.

(** The mutex that protects what an action reads or writes: the mutex of the
    account for its balance and identifier, [bank_lock] for the counters and
    the output, [ledger_lock] for the ledger.  [num] never changes after the
    constructor and has none. *)
Definition event_lock {X : Type} (e : event X) : option lockid :=
  match e with
  | ELoad i | EStore i _ | EAccountID i => Some (AccLock i)
  | ECout _ | EIncSucc | EIncFail | ENumSucc | ENumFail => Some BankLock
  | ELedgerEmpty | ELedgerFront | ELedgerPop => Some LedgerLock
  | _ => None
  end.

(** Every action of [p], started while holding [held], is made under the
    mutex that protects what it touches. *)
Fixpoint guarded {R : Type} (held : list lockid) (p : prog R) : Prop :=
  match p with
  | Ret _ => True
  | Vis e k =>
      (∀ l, event_lock e = Some l → l ∈ held)
      ∧ ∀ x, guarded (held_after e held) (k x)
  end.

(** *** What an operation is expected to leave behind *)

(** The line an operation prints, given the value it returns: none for a
    transfer from an account to itself. *)
Definition op_message (o : op) (r : Z) : list string :=
  let level := if r =? 0 then SUCC else ERR in
  match o with
  | Deposit workerID ledgerID accountID amount =>
      [DEPOSITE_MSG level workerID ledgerID accountID amount]
  | Withdraw workerID ledgerID accountID amount =>
      [WITHDRAW_MSG level workerID ledgerID accountID amount]
  | Transfer workerID ledgerID srcID destID amount =>
      if srcID =? destID then []
      else [TRANSFER_MSG level workerID ledgerID srcID destID amount]
  end.

(** The money an operation brings into the bank, given the value it
    returns. *)
Definition op_net (o : op) (r : Z) : Z :=
  match o with
  | Deposit _ _ _ amount => amount
  | Withdraw _ _ _ amount => if r =? 0 then - amount else 0
  | Transfer _ _ _ _ _ => 0
  end.

Fixpoint ops_net (ops : list (tid * op)) (rs : list Z) : Z :=
  match ops, rs with
  | (_, o) :: ops', r :: rs' => op_net o r + ops_net ops' rs'
  | _, _ => 0
  end.


(** The identifiers of the accounts, in array order. *)
Definition identifiers (w : World) : list Z := accountID <$> accounts (bank w).

(** *** A bank at rest *)

Definition is_free (m : mutex) : bool :=
  match m with
  | None => true
  | Some _ => false
  end.

(** No mutex is held. *)
Definition at_rest (w : World) : bool :=
  forallb (λ a, is_free (lock a)) (accounts (bank w))
  && is_free (bank_lock (bank w))
  && is_free (ledger_lock w).

(** Every balance is within [B] of zero. *)
Definition within (B : Z) (w : World) : bool :=
  forallb (λ b, (- B <=? b) && (b <=? B)) (balances w).

(** The accounts that [worker] will index for an entry exist: [acc], and
    [other] when the entry is neither a deposit nor a withdraw. *)
Definition entry_in_range (n : Z) (e : Ledger) : bool :=
  (0 <=? acc e) && (acc e <? n)
  && ((mode e =? D) || (mode e =? W) || ((0 <=? other e) && (other e <? n))).

(** The most that the operation of an entry changes a balance by. *)
Definition moved (e : Ledger) : Z := Z.abs (op_amount (entry_op 0 e)).

(** *** What an operation may touch *)

(** The accounts an operation is called with. *)
Definition op_accounts (o : op) : list Z :=
  match o with
  | Deposit _ _ accountID _ | Withdraw _ _ accountID _ => [accountID]
  | Transfer _ _ srcID destID _ => [srcID; destID]
  end.

(** ** Loading the ledger (ledger.cpp) *)

Section load.

(** The extraction [iss >> acc >> other >> amount >> mode] on one line: the
    four values when it succeeds. *)
Variable parse_line : string → option (Z * Z * Z * Z).

Definition parsed_entry (fields : Z * Z * Z * Z) (ledgerID : Z) : Ledger :=
  let '(acc, other, amount, mode) := fields in
  mkLedger acc other amount mode ledgerID.

(** The [while (getline(file, current_line))] loop of [load_ledger], with
    [ledgerID] the value of the local counter. *)
Fixpoint load_lines (lines : list string) (ledgerID : Z) (w : World)
    : result unit :=
  match lines with
  | [] => Done tt w
  | current_line :: lines' =>
      match parse_line current_line with
      | Some fields =>
          if in_int (ledgerID + 1)
          then load_lines lines' (ledgerID + 1)
                 (with_ledger (ledger w ++ [parsed_entry fields ledgerID]) w)
          else Fault SignedOverflow
      | None => load_lines lines' ledgerID w
      end
  end.

(** [load_ledger(filename)]; [file] is the list of the lines of the file, or
    [None] when it cannot be opened. *)
Definition load_ledger (file : option (list string)) (w : World) : result Z :=
  match file with
  | None => Done (-1) w
  | Some lines =>
      match load_lines lines 0 w with
      | Done _ w' => Done 0 w'
      | Blocked => Blocked
      | Fault f => Fault f
      end
  end.

End load.

(** *** Workers that take their mutexes in order *)

(** What [worker] can be handed by the ledger when no entry is a transfer
    from an account to itself. *)
Definition answer_ok {X : Type} (e : event X) : X → Prop :=
  match e in event X return X → Prop with
  | ELedgerFront => λ entry, self_transfer_entry entry = false
  | _ => λ _, True
  end.

(** [lock_discipline], for the answers [answer_ok] allows. *)
Fixpoint orderly {R : Type} (held : list lockid) (p : prog R)
    (Q : list lockid → Prop) : Prop :=
  match p with
  | Ret _ => Q held
  | Vis e k =>
      acquires_in_order e held
      ∧ ∀ x, answer_ok e x → orderly (held_after e held) (k x) Q
  end.

(** A thread that holds [held] goes on in order and returns holding
    nothing. *)
Definition thread_orderly (th : thread) (held : list lockid) : Prop :=
  match th with
  | Running _ p => orderly held p (λ h, h = [])
  | Returned => held = []
  end.

(** The pool with the mutexes each thread holds: every thread is orderly,
    whoever owns a mutex holds it, and the ledger has no transfer from an
    account to itself. *)
Definition pool_orderly (helds : list (list lockid)) (ths : pool) (w : World)
    : Prop :=
  length helds = length ths
  ∧ (∀ (t : nat) th h, ths !! t = Some th → helds !! t = Some h → thread_orderly th h)
  ∧ (∀ l (t : nat), lock_of w l = Some (Some t) → ∃ h, helds !! t = Some h ∧ l ∈ h)
  ∧ Forall (λ e, self_transfer_entry e = false) (ledger w).

(** How far a mutex is from the last one in the order. *)
Definition lock_rank (w : World) (l : lockid) : nat :=
  match l with
  | AccLock i => Z.to_nat (num_accounts w - i)
  | _ => 0
  end.

(** Two transfers in opposite directions between accounts 0 and 1, and an
    interleaving of two workers in which each takes one of them and the first
    gets the mutex of account 0. *)
Definition crossing_ledger : list Ledger :=
  [mkLedger 0 1 5 T 0; mkLedger 1 0 5 T 1].

Definition schedule_crossing : list tid :=
  [0; 1; 0; 0; 0; 0; 1; 1; 1; 1; 0; 1; 0; 1; 0; 1; 0; 1; 0]%nat.
(** * Properties *)

(** ** Reading the world through its updates *)

Lemma lookup_account_alter (f : Account → Account) (i j : Z) (w : World) :
  lookup_account (alter_account f i w) j
  = if decide (i = j) then f <$> lookup_account w j else lookup_account w j.
Proof.
  unfold lookup_account, alter_account.
  destruct (i <? 0) eqn:Hi, (j <? 0) eqn:Hj; cbn; rewrite ?Hj;
    try apply Z.ltb_lt in Hi; try apply Z.ltb_lt in Hj;
    try apply Z.ltb_ge in Hi; try apply Z.ltb_ge in Hj.
  - by case_decide.
  - case_decide; [lia|done].
  - by case_decide.
  - rewrite list_lookup_alter. repeat case_decide; subst; try done; lia.
Qed.

Lemma lookup_account_Some (w : World) (i : Z) (a : Account) :
  lookup_account w i = Some a → 0 ≤ i < num_accounts w.
Proof.
  unfold lookup_account, num_accounts. destruct (i <? 0) eqn:Hi; [done|].
  apply Z.ltb_ge in Hi. intros H%lookup_lt_Some. lia.
Qed.

Lemma lookup_account_is_Some (w : World) (i : Z) :
  0 ≤ i < num_accounts w → is_Some (lookup_account w i).
Proof.
  unfold lookup_account, num_accounts. intros [H0 Hn].
  destruct (i <? 0) eqn:Hi; [apply Z.ltb_lt in Hi; lia|].
  apply lookup_lt_is_Some. lia.
Qed.

Section projections.
Context (w : World).

Lemma bank_alter_account f i :
  bank (alter_account f i w)
  = if i <? 0 then bank w
    else with_accounts (alter f (Z.to_nat i) (accounts (bank w))) (bank w).
Proof. unfold alter_account. by destruct (i <? 0). Qed.

Lemma num_succ_alter_account f i :
  num_succ (bank (alter_account f i w)) = num_succ (bank w).
Proof. unfold alter_account. by destruct (i <? 0). Qed.
Lemma num_fail_alter_account f i :
  num_fail (bank (alter_account f i w)) = num_fail (bank w).
Proof. unfold alter_account. by destruct (i <? 0). Qed.
Lemma bank_lock_alter_account f i :
  bank_lock (bank (alter_account f i w)) = bank_lock (bank w).
Proof. unfold alter_account. by destruct (i <? 0). Qed.
Lemma num_alter_account f i :
  num (bank (alter_account f i w)) = num (bank w).
Proof. unfold alter_account. by destruct (i <? 0). Qed.
Lemma cout_alter_account f i : cout (alter_account f i w) = cout w.
Proof. unfold alter_account. by destruct (i <? 0). Qed.
Lemma ledger_alter_account f i : ledger (alter_account f i w) = ledger w.
Proof. unfold alter_account. by destruct (i <? 0). Qed.
Lemma ledger_lock_alter_account f i :
  ledger_lock (alter_account f i w) = ledger_lock w.
Proof. unfold alter_account. by destruct (i <? 0). Qed.
Lemma locklog_alter_account f i : locklog (alter_account f i w) = locklog w.
Proof. unfold alter_account. by destruct (i <? 0). Qed.
Lemma num_accounts_alter_account f i :
  num_accounts (alter_account f i w) = num_accounts w.
Proof.
  unfold num_accounts, alter_account. destruct (i <? 0); [done|].
  cbn. by rewrite length_alter.
Qed.

Lemma num_succ_set_mutex l m : num_succ (bank (set_mutex l m w)) = num_succ (bank w).
Proof. destruct l; cbn; [apply num_succ_alter_account|done..]. Qed.
Lemma num_fail_set_mutex l m : num_fail (bank (set_mutex l m w)) = num_fail (bank w).
Proof. destruct l; cbn; [apply num_fail_alter_account|done..]. Qed.
Lemma num_set_mutex l m : num (bank (set_mutex l m w)) = num (bank w).
Proof. destruct l; cbn; [apply num_alter_account|done..]. Qed.
Lemma cout_set_mutex l m : cout (set_mutex l m w) = cout w.
Proof. destruct l; cbn; [apply cout_alter_account|done..]. Qed.
Lemma ledger_set_mutex l m : ledger (set_mutex l m w) = ledger w.
Proof. destruct l; cbn; [apply ledger_alter_account|done..]. Qed.
Lemma locklog_set_mutex l m : locklog (set_mutex l m w) = locklog w.
Proof. destruct l; cbn; [apply locklog_alter_account|done..]. Qed.
Lemma num_accounts_set_mutex l m :
  num_accounts (set_mutex l m w) = num_accounts w.
Proof. destruct l; cbn; [apply num_accounts_alter_account|done..]. Qed.

Lemma balance_of_set_mutex l m i : balance_of (set_mutex l m w) i = balance_of w i.
Proof.
  unfold balance_of. destruct l as [j| |]; cbn; [|done..].
  rewrite lookup_account_alter. case_decide; [|done].
  by destruct (lookup_account w i).
Qed.

Lemma balance_of_store i v j :
  balance_of (alter_account (set_balance v) i w) j
  = if decide (i = j) then (λ _, v) <$> balance_of w j else balance_of w j.
Proof.
  unfold balance_of. rewrite lookup_account_alter. case_decide; [|done].
  by destruct (lookup_account w j).
Qed.

Lemma lock_of_set_mutex l m l' :
  lock_of (set_mutex l m w) l'
  = if decide (l = l') then (λ _, m) <$> lock_of w l' else lock_of w l'.
Proof.
  destruct l as [i| |], l' as [j| |]; cbn;
    rewrite ?lookup_account_alter, ?bank_lock_alter_account,
      ?ledger_lock_alter_account;
    repeat case_decide; simplify_eq; try done.
  by destruct (lookup_account w j).
Qed.

Lemma lock_of_store i v l :
  lock_of (alter_account (set_balance v) i w) l = lock_of w l.
Proof.
  destruct l as [j| |]; cbn; rewrite ?bank_lock_alter_account,
    ?ledger_lock_alter_account; [|done..].
  rewrite lookup_account_alter. case_decide; [|done].
  by destruct (lookup_account w j).
Qed.

Lemma balance_of_log_lock o i : balance_of (log_lock o w) i = balance_of w i.
Proof. done. Qed.
Lemma balance_of_with_cout c i : balance_of (with_cout c w) i = balance_of w i.
Proof. done. Qed.
Lemma balance_of_set_num_succ n i : balance_of (set_num_succ n w) i = balance_of w i.
Proof. done. Qed.
Lemma balance_of_set_num_fail n i : balance_of (set_num_fail n w) i = balance_of w i.
Proof. done. Qed.
Lemma balance_of_with_ledger l i : balance_of (with_ledger l w) i = balance_of w i.
Proof. done. Qed.

Lemma lock_of_log_lock o l : lock_of (log_lock o w) l = lock_of w l.
Proof. by destruct l. Qed.
Lemma lock_of_with_cout c l : lock_of (with_cout c w) l = lock_of w l.
Proof. by destruct l. Qed.
Lemma lock_of_set_num_succ n l : lock_of (set_num_succ n w) l = lock_of w l.
Proof. by destruct l. Qed.
Lemma lock_of_set_num_fail n l : lock_of (set_num_fail n w) l = lock_of w l.
Proof. by destruct l. Qed.
Lemma lock_of_with_ledger l' l : lock_of (with_ledger l' w) l = lock_of w l.
Proof. by destruct l. Qed.
End projections.

Create Rewrite HintDb world.
#[local] Hint Rewrite
  num_succ_alter_account num_fail_alter_account bank_lock_alter_account
  num_alter_account cout_alter_account ledger_alter_account
  ledger_lock_alter_account locklog_alter_account num_accounts_alter_account
  num_succ_set_mutex num_fail_set_mutex num_set_mutex cout_set_mutex
  ledger_set_mutex locklog_set_mutex num_accounts_set_mutex
  balance_of_set_mutex balance_of_store lock_of_set_mutex lock_of_store
  balance_of_log_lock balance_of_with_cout balance_of_set_num_succ
  balance_of_set_num_fail balance_of_with_ledger
  lock_of_log_lock lock_of_with_cout lock_of_set_num_succ lock_of_set_num_fail
  lock_of_with_ledger : world.

Ltac wsimpl :=
  repeat first
    [ progress autorewrite with world
    | rewrite decide_True by (done || congruence || lia)
    | rewrite decide_False by (done || congruence || lia)
    | progress unfold acquired, released, stored, recorded_succ, recorded_fail
    | progress cbn [fmap option_fmap option_map bank cout ledger ledger_lock
                    locklog num num_succ num_fail bank_lock accounts
                    log_lock with_cout with_ledger with_ledger_lock
                    set_num_succ set_num_fail set_bank_lock with_bank
                    with_num_succ with_num_fail with_bank_lock] ].

(** ** Running the actions *)

Lemma run_bind {A B : Type} (t : tid) (p : prog A) (f : A → prog B) (w : World) :
  run t (bind p f) w
  = match run t p w with
    | Done x w' => run t (f x) w'
    | Blocked => Blocked
    | Fault e => Fault e
    end.
Proof.
  revert w. induction p as [r|X e k IH]; intros w; cbn; [done|].
  destruct (handle t e w); [apply IH|done..].
Qed.

Lemma run_trigger {X : Type} (t : tid) (e : event X) (w : World) :
  run t (trigger e) w = handle t e w.
Proof. cbn. by destruct (handle t e w). Qed.

Section actions.
Context (t : tid) (w : World).

Lemma run_account_ref i :
  is_Some (balance_of w i) → run t (account_ref i) w = Done tt w.
Proof.
  unfold account_ref, balance_of. rewrite run_trigger. cbn.
  by destruct (lookup_account w i); [|intros [? [=]]].
Qed.

Lemma run_lock l :
  lock_of w l = Some None →
  run t (pthread_mutex_lock l) w = Done tt (acquired t l w).
Proof.
  intros H. unfold pthread_mutex_lock. rewrite run_trigger. cbn.
  unfold mutex_acquire. by rewrite H.
Qed.

Lemma run_lock_held l t' :
  lock_of w l = Some (Some t') → run t (pthread_mutex_lock l) w = Blocked.
Proof.
  intros H. unfold pthread_mutex_lock. rewrite run_trigger. cbn.
  unfold mutex_acquire. by rewrite H.
Qed.

Lemma run_unlock l :
  lock_of w l = Some (Some t) →
  run t (pthread_mutex_unlock l) w = Done tt (released t l w).
Proof.
  intros H. unfold pthread_mutex_unlock. rewrite run_trigger. cbn.
  unfold mutex_release. rewrite H. cbn. by rewrite Nat.eqb_refl.
Qed.

Lemma run_load i b :
  balance_of w i = Some b → run t (load_balance i) w = Done b w.
Proof.
  unfold load_balance, balance_of. rewrite run_trigger. cbn.
  destruct (lookup_account w i); [|done]. by intros [= <-].
Qed.

Lemma run_store i v :
  is_Some (balance_of w i) → in_long v = true →
  run t (store_balance i v) w = Done tt (stored i v w).
Proof.
  unfold store_balance, balance_of. rewrite run_trigger. cbn.
  destruct (lookup_account w i); [|by intros [? [=]]].
  by intros _ ->.
Qed.

Lemma run_add_balance i d b :
  balance_of w i = Some b → in_long (b + d) = true →
  run t (add_balance i d) w = Done tt (stored i (b + d) w).
Proof.
  intros Hb Hv. unfold add_balance. rewrite run_bind, (run_load _ _ Hb).
  apply run_store; [by rewrite Hb|done].
Qed.

Lemma run_sub_balance i d b :
  balance_of w i = Some b → in_long (b - d) = true →
  run t (sub_balance i d) w = Done tt (stored i (b - d) w).
Proof.
  intros Hb Hv. unfold sub_balance. rewrite run_bind, (run_load _ _ Hb).
  apply run_store; [by rewrite Hb|done].
Qed.
End actions.


Example deposit_100 :
  ∃ w, run 0%nat (deposit 1 0 0 100) (world_of bank10 []) = Done 0 w
       ∧ balance_of w 0 = Some 100
       ∧ cout w = ["[ SUCCESS ] TID: 1, LID: 0, Acc: 0 DEPOSIT $100"%string].
Proof. eexists. split; [vm_compute; reflexivity|]. split; reflexivity. Qed.

Example bank10_is_new : Bank_new 10 = Some bank10.
Proof. reflexivity. Qed.

Ltac wsolve :=
  wsimpl;
  repeat (match goal with
          | H : ?x = Some _ |- context [?x] => rewrite H
          end; wsimpl);
  try done.

Lemma run_recordSucc t message w :
  lock_of w BankLock = Some None →
  in_int (num_succ (bank w) + 1) = true →
  run t (recordSucc message) w = Done tt (recorded_succ t message w).
Proof.
  intros Hl Hn. unfold recordSucc.
  rewrite run_bind, run_lock by done.
  rewrite run_bind, run_trigger. cbn [handle].
  rewrite run_bind, run_trigger. cbn [handle].
  change (num_succ (bank (with_cout _ (acquired t BankLock w))))
    with (num_succ (bank w)).
  rewrite Hn. by rewrite run_unlock.
Qed.

Lemma run_recordFail t message w :
  lock_of w BankLock = Some None →
  in_int (num_fail (bank w) + 1) = true →
  run t (recordFail message) w = Done tt (recorded_fail t message w).
Proof.
  intros Hl Hn. unfold recordFail.
  rewrite run_bind, run_lock by done.
  rewrite run_bind, run_trigger. cbn [handle].
  rewrite run_bind, run_trigger. cbn [handle].
  change (num_fail (bank (with_cout _ (acquired t BankLock w))))
    with (num_fail (bank w)).
  rewrite Hn. by rewrite run_unlock.
Qed.

(** ** The three operations, in closed form *)

Lemma run_deposit t workerID ledgerID accountID amount b w :
  balance_of w accountID = Some b →
  lock_of w (AccLock accountID) = Some None →
  lock_of w BankLock = Some None →
  in_long (b + amount) = true →
  in_int (num_succ (bank w) + 1) = true →
  run t (deposit workerID ledgerID accountID amount) w
  = Done 0
      (released t (AccLock accountID)
         (recorded_succ t (DEPOSITE_MSG SUCC workerID ledgerID accountID amount)
            (stored accountID (b + amount) (acquired t (AccLock accountID) w)))).
Proof.
  intros Hb Hl Hbl Hv Hn. unfold deposit.
  rewrite run_bind, run_account_ref by (by rewrite Hb).
  rewrite run_bind, run_lock by done.
  rewrite run_bind, (run_add_balance _ _ _ _ b) by wsolve.
  rewrite run_bind, run_recordSucc by wsolve.
  rewrite run_bind, run_unlock by wsolve. done.
Qed.

Lemma run_withdraw_ok t workerID ledgerID accountID amount b w :
  balance_of w accountID = Some b →
  lock_of w (AccLock accountID) = Some None →
  lock_of w BankLock = Some None →
  amount ≤ b →
  in_long (b - amount) = true →
  in_int (num_succ (bank w) + 1) = true →
  run t (withdraw workerID ledgerID accountID amount) w
  = Done 0
      (released t (AccLock accountID)
         (recorded_succ t (WITHDRAW_MSG SUCC workerID ledgerID accountID amount)
            (stored accountID (b - amount) (acquired t (AccLock accountID) w)))).
Proof.
  intros Hb Hl Hbl Hle Hv Hn. unfold withdraw.
  rewrite run_bind, run_account_ref by (by rewrite Hb).
  rewrite run_bind, run_lock by done.
  rewrite run_bind, (run_load _ _ _ b) by wsolve.
  rewrite (proj2 (Z.leb_le amount b)) by done.
  rewrite run_bind, run_bind, (run_sub_balance _ _ _ _ b) by wsolve.
  rewrite run_bind, run_recordSucc by wsolve. cbn [run].
  rewrite run_bind, run_unlock by wsolve. done.
Qed.

Lemma run_withdraw_insufficient t workerID ledgerID accountID amount b w :
  balance_of w accountID = Some b →
  lock_of w (AccLock accountID) = Some None →
  lock_of w BankLock = Some None →
  b < amount →
  in_int (num_fail (bank w) + 1) = true →
  run t (withdraw workerID ledgerID accountID amount) w
  = Done (-1)
      (released t (AccLock accountID)
         (recorded_fail t (WITHDRAW_MSG ERR workerID ledgerID accountID amount)
            (acquired t (AccLock accountID) w))).
Proof.
  intros Hb Hl Hbl Hlt Hn. unfold withdraw.
  rewrite run_bind, run_account_ref by (by rewrite Hb).
  rewrite run_bind, run_lock by done.
  rewrite run_bind, (run_load _ _ _ b) by wsolve.
  rewrite (proj2 (Z.leb_gt amount b)) by done.
  rewrite run_bind, run_bind, run_recordFail by wsolve. cbn [run].
  rewrite run_bind, run_unlock by wsolve. done.
Qed.

Lemma run_transfer_self t workerID ledgerID srcID amount w :
  lock_of w (AccLock srcID) = Some None →
  run t (transfer workerID ledgerID srcID srcID amount) w
  = Done (-1) (acquired t (AccLock srcID) w).
Proof.
  intros Hl. unfold transfer.
  assert (is_Some (balance_of w srcID)) as Hs.
  { cbn in Hl. unfold balance_of. by destruct (lookup_account w srcID). }
  rewrite run_bind, run_account_ref by done.
  rewrite run_bind, run_account_ref by done.
  rewrite run_bind, run_lock by done.
  by rewrite Z.eqb_refl.
Qed.

Lemma run_transfer_ok t workerID ledgerID srcID destID amount s d w :
  srcID ≠ destID →
  balance_of w srcID = Some s →
  balance_of w destID = Some d →
  lock_of w (AccLock srcID) = Some None →
  lock_of w (AccLock destID) = Some None →
  lock_of w BankLock = Some None →
  amount ≤ s →
  in_long (s - amount) = true →
  in_long (d + amount) = true →
  in_int (num_succ (bank w) + 1) = true →
  run t (transfer workerID ledgerID srcID destID amount) w
  = Done 0
      (transfer_unlocked t srcID destID
         (recorded_succ t (TRANSFER_MSG SUCC workerID ledgerID srcID destID amount)
            (stored destID (d + amount)
               (stored srcID (s - amount)
                  (transfer_locked t srcID destID w))))).
Proof.
  intros Hne Hs Hd Hls Hld Hbl Hle Hvs Hvd Hn.
  unfold transfer, transfer_locked, transfer_unlocked.
  rewrite run_bind, run_account_ref by (by rewrite Hs).
  rewrite run_bind, run_account_ref by (by rewrite Hd).
  rewrite run_bind, run_lock by done.
  rewrite (proj2 (Z.eqb_neq srcID destID)) by done.
  rewrite run_bind, run_unlock by wsolve.
  destruct (srcID <? destID) eqn:Hlt.
  - rewrite run_bind, run_bind, run_lock by wsolve.
    rewrite run_lock by wsolve.
    rewrite run_bind, (run_load _ _ _ s) by wsolve.
    rewrite (proj2 (Z.leb_le amount s)) by done.
    rewrite run_bind, run_bind, (run_sub_balance _ _ _ _ s) by wsolve.
    rewrite run_bind, (run_add_balance _ _ _ _ d) by wsolve.
    rewrite run_bind, run_recordSucc by wsolve. cbn [run].
    rewrite run_bind, run_bind, run_unlock by wsolve.
    rewrite run_unlock by wsolve. done.
  - rewrite run_bind, run_bind, run_lock by wsolve.
    rewrite run_lock by wsolve.
    rewrite run_bind, (run_load _ _ _ s) by wsolve.
    rewrite (proj2 (Z.leb_le amount s)) by done.
    rewrite run_bind, run_bind, (run_sub_balance _ _ _ _ s) by wsolve.
    rewrite run_bind, (run_add_balance _ _ _ _ d) by wsolve.
    rewrite run_bind, run_recordSucc by wsolve. cbn [run].
    rewrite run_bind, run_bind, run_unlock by wsolve.
    rewrite run_unlock by wsolve. done.
Qed.

Lemma run_transfer_insufficient t workerID ledgerID srcID destID amount s w :
  srcID ≠ destID →
  balance_of w srcID = Some s →
  is_Some (balance_of w destID) →
  lock_of w (AccLock srcID) = Some None →
  lock_of w (AccLock destID) = Some None →
  lock_of w BankLock = Some None →
  s < amount →
  in_int (num_fail (bank w) + 1) = true →
  run t (transfer workerID ledgerID srcID destID amount) w
  = Done (-1)
      (transfer_unlocked t srcID destID
         (recorded_fail t (TRANSFER_MSG ERR workerID ledgerID srcID destID amount)
            (transfer_locked t srcID destID w))).
Proof.
  intros Hne Hs Hd Hls Hld Hbl Hlt Hn.
  unfold transfer, transfer_locked, transfer_unlocked.
  rewrite run_bind, run_account_ref by (by rewrite Hs).
  rewrite run_bind, run_account_ref by done.
  rewrite run_bind, run_lock by done.
  rewrite (proj2 (Z.eqb_neq srcID destID)) by done.
  rewrite run_bind, run_unlock by wsolve.
  destruct (srcID <? destID) eqn:Hord.
  - rewrite run_bind, run_bind, run_lock by wsolve.
    rewrite run_lock by wsolve.
    rewrite run_bind, (run_load _ _ _ s) by wsolve.
    rewrite (proj2 (Z.leb_gt amount s)) by done.
    rewrite run_bind, run_bind, run_recordFail by wsolve. cbn [run].
    rewrite run_bind, run_bind, run_unlock by wsolve.
    rewrite run_unlock by wsolve. done.
  - rewrite run_bind, run_bind, run_lock by wsolve.
    rewrite run_lock by wsolve.
    rewrite run_bind, (run_load _ _ _ s) by wsolve.
    rewrite (proj2 (Z.leb_gt amount s)) by done.
    rewrite run_bind, run_bind, run_recordFail by wsolve. cbn [run].
    rewrite run_bind, run_bind, run_unlock by wsolve.
    rewrite run_unlock by wsolve. done.
Qed.

(** ** Withdraw *)

(** C4. A withdraw of [amount] from an account whose balance is [b]
    returns 0 (success) exactly when [amount <= b]; on success the balance
    becomes [b - amount] and one success is recorded, on failure the balance
    is still [b] and one failure is recorded.  The mutexes the call needs are
    free when it starts, and the results are representable ([b - amount] as a
    [long], the incremented counter as an [int]). *)
Theorem withdraw_succeeds_iff_funds
    (t : tid) (workerID ledgerID accountID amount b : Z) (w : World) :
  balance_of w accountID = Some b →
  lock_of w (AccLock accountID) = Some None →
  lock_of w BankLock = Some None →
  (amount ≤ b →
     in_long (b - amount) = true ∧ in_int (num_succ (bank w) + 1) = true) →
  (b < amount → in_int (num_fail (bank w) + 1) = true) →
  ∃ r w',
    run t (withdraw workerID ledgerID accountID amount) w = Done r w'
    ∧ (r = 0 ↔ amount ≤ b)
    ∧ (r = 0 →
         balance_of w' accountID = Some (b - amount)
         ∧ num_succ (bank w') = num_succ (bank w) + 1
         ∧ num_fail (bank w') = num_fail (bank w)
         ∧ cout w' = cout w ++
             [WITHDRAW_MSG SUCC workerID ledgerID accountID amount])
    ∧ (r ≠ 0 →
         r = -1
         ∧ balance_of w' accountID = Some b
         ∧ num_succ (bank w') = num_succ (bank w)
         ∧ num_fail (bank w') = num_fail (bank w) + 1
         ∧ cout w' = cout w ++
             [WITHDRAW_MSG ERR workerID ledgerID accountID amount])
    ∧ (∀ j, j ≠ accountID → balance_of w' j = balance_of w j)
    ∧ (∀ l, lock_of w' l = lock_of w l).
Proof.
  intros Hb Hl Hbl Hok Hko.
  destruct (Z.le_gt_cases amount b) as [Hle|Hlt].
  - destruct (Hok Hle) as [Hv Hn].
    eexists 0, _. split; [by apply run_withdraw_ok|].
    split; [done|]. split.
    { intros _. wsolve. }
    split; [done|]. split.
    { intros j Hj. wsolve. }
    intros l. destruct (decide (l = AccLock accountID)) as [->|];
      [|destruct (decide (l = BankLock)) as [->|]]; wsolve.
  - eexists (-1), _. split; [by apply (run_withdraw_insufficient _ _ _ _ _ b); auto|].
    split; [split; [done|lia]|]. split; [done|]. split.
    { intros _. wsolve. }
    split.
    { intros j Hj. wsolve. }
    intros l. destruct (decide (l = AccLock accountID)) as [->|];
      [|destruct (decide (l = BankLock)) as [->|]]; wsolve.
Qed.

Lemma withdraw_succeeds_iff_funds_witness :
  ∃ r w',
    run 0%nat (withdraw 1 0 0 150) (world_of (bank_with [100; 0]) []) = Done r w'
    ∧ (r = 0 ↔ 150 ≤ 100)
    ∧ (r = 0 →
         balance_of w' 0 = Some (100 - 150)
         ∧ num_succ (bank w') = num_succ (bank (world_of (bank_with [100; 0]) [])) + 1
         ∧ num_fail (bank w') = num_fail (bank (world_of (bank_with [100; 0]) []))
         ∧ cout w' = cout (world_of (bank_with [100; 0]) []) ++
             [WITHDRAW_MSG SUCC 1 0 0 150])
    ∧ (r ≠ 0 →
         r = -1
         ∧ balance_of w' 0 = Some 100
         ∧ num_succ (bank w') = num_succ (bank (world_of (bank_with [100; 0]) []))
         ∧ num_fail (bank w') = num_fail (bank (world_of (bank_with [100; 0]) [])) + 1
         ∧ cout w' = cout (world_of (bank_with [100; 0]) []) ++
             [WITHDRAW_MSG ERR 1 0 0 150])
    ∧ (∀ j, j ≠ 0 → balance_of w' j = balance_of (world_of (bank_with [100; 0]) []) j)
    ∧ (∀ l, lock_of w' l = lock_of (world_of (bank_with [100; 0]) []) l).
Proof.
  apply (withdraw_succeeds_iff_funds 0%nat 1 0 0 150 100
           (world_of (bank_with [100; 0]) [])).
  - reflexivity.
  - reflexivity.
  - reflexivity.
  - intros H. exfalso. lia.
  - intros _. reflexivity.
Defined.

(** ** Transfer between two accounts *)

(** C5. A transfer of [amount] between two different accounts, whose
    balances are [s] (source) and [d] (destination), returns 0 exactly when
    [amount <= s]; then the source holds [s - amount] and the destination
    [d + amount], so that their sum is unchanged; otherwise both balances
    are unchanged.  The three mutexes the call needs are free when it starts,
    and on the success path the new balances fit a [long] and the counter an
    [int]. *)
Theorem transfer_moves_funds
    (t : tid) (workerID ledgerID srcID destID amount s d : Z) (w : World) :
  srcID ≠ destID →
  balance_of w srcID = Some s →
  balance_of w destID = Some d →
  lock_of w (AccLock srcID) = Some None →
  lock_of w (AccLock destID) = Some None →
  lock_of w BankLock = Some None →
  (amount ≤ s →
     in_long (s - amount) = true ∧ in_long (d + amount) = true
     ∧ in_int (num_succ (bank w) + 1) = true) →
  (s < amount → in_int (num_fail (bank w) + 1) = true) →
  ∃ r w' s' d',
    run t (transfer workerID ledgerID srcID destID amount) w = Done r w'
    ∧ balance_of w' srcID = Some s'
    ∧ balance_of w' destID = Some d'
    ∧ s' + d' = s + d
    ∧ (r = 0 ↔ amount ≤ s)
    ∧ (r = 0 →
         s' = s - amount ∧ d' = d + amount
         ∧ num_succ (bank w') = num_succ (bank w) + 1
         ∧ num_fail (bank w') = num_fail (bank w))
    ∧ (r ≠ 0 →
         r = -1 ∧ s' = s ∧ d' = d
         ∧ num_succ (bank w') = num_succ (bank w)
         ∧ num_fail (bank w') = num_fail (bank w) + 1)
    ∧ (∀ j, j ≠ srcID → j ≠ destID → balance_of w' j = balance_of w j)
    ∧ (∀ l, lock_of w' l = lock_of w l).
Proof.
  intros Hne Hs Hd Hls Hld Hbl Hok Hko.
  destruct (Z.le_gt_cases amount s) as [Hle|Hlt].
  - destruct (Hok Hle) as (Hvs & Hvd & Hn).
    eexists 0, _, (s - amount), (d + amount).
    split; [by apply run_transfer_ok|].
    unfold transfer_unlocked, transfer_locked.
    destruct (srcID <? destID) eqn:Hord.
    + split; [wsolve|]. split; [wsolve|]. split; [lia|].
      split; [done|]. split; [intros _; wsolve|]. split; [done|].
      split; [intros j Hjs Hjd; wsolve|].
      intros l. destruct (decide (l = AccLock srcID)) as [->|];
        [|destruct (decide (l = AccLock destID)) as [->|];
          [|destruct (decide (l = BankLock)) as [->|]]]; wsolve.
    + split; [wsolve|]. split; [wsolve|]. split; [lia|].
      split; [done|]. split; [intros _; wsolve|]. split; [done|].
      split; [intros j Hjs Hjd; wsolve|].
      intros l. destruct (decide (l = AccLock srcID)) as [->|];
        [|destruct (decide (l = AccLock destID)) as [->|];
          [|destruct (decide (l = BankLock)) as [->|]]]; wsolve.
  - eexists (-1), _, s, d.
    split; [apply (run_transfer_insufficient _ _ _ _ _ _ s); auto; by rewrite Hd|].
    unfold transfer_unlocked, transfer_locked.
    destruct (srcID <? destID) eqn:Hord.
    + split; [wsolve|]. split; [wsolve|]. split; [lia|].
      split; [split; [done|lia]|]. split; [done|]. split; [intros _; wsolve|].
      split; [intros j Hjs Hjd; wsolve|].
      intros l. destruct (decide (l = AccLock srcID)) as [->|];
        [|destruct (decide (l = AccLock destID)) as [->|];
          [|destruct (decide (l = BankLock)) as [->|]]]; wsolve.
    + split; [wsolve|]. split; [wsolve|]. split; [lia|].
      split; [split; [done|lia]|]. split; [done|]. split; [intros _; wsolve|].
      split; [intros j Hjs Hjd; wsolve|].
      intros l. destruct (decide (l = AccLock srcID)) as [->|];
        [|destruct (decide (l = AccLock destID)) as [->|];
          [|destruct (decide (l = BankLock)) as [->|]]]; wsolve.
Qed.

Lemma transfer_moves_funds_witness :
  ∃ r w' s' d',
    run 0%nat (transfer 1 0 0 1 50) (world_of (bank_with [100; 0]) []) = Done r w'
    ∧ balance_of w' 0 = Some s'
    ∧ balance_of w' 1 = Some d'
    ∧ s' + d' = 100 + 0
    ∧ (r = 0 ↔ 50 ≤ 100)
    ∧ (r = 0 →
         s' = 100 - 50 ∧ d' = 0 + 50
         ∧ num_succ (bank w') = num_succ (bank (world_of (bank_with [100; 0]) [])) + 1
         ∧ num_fail (bank w') = num_fail (bank (world_of (bank_with [100; 0]) [])))
    ∧ (r ≠ 0 →
         r = -1 ∧ s' = 100 ∧ d' = 0
         ∧ num_succ (bank w') = num_succ (bank (world_of (bank_with [100; 0]) []))
         ∧ num_fail (bank w') = num_fail (bank (world_of (bank_with [100; 0]) [])) + 1)
    ∧ (∀ j, j ≠ 0 → j ≠ 1 →
         balance_of w' j = balance_of (world_of (bank_with [100; 0]) []) j)
    ∧ (∀ l, lock_of w' l = lock_of (world_of (bank_with [100; 0]) []) l).
Proof.
  apply (transfer_moves_funds 0%nat 1 0 0 1 50 100 0
           (world_of (bank_with [100; 0]) [])).
  - lia.
  - reflexivity.
  - reflexivity.
  - reflexivity.
  - reflexivity.
  - reflexivity.
  - intros _. repeat split; reflexivity.
  - intros H. exfalso. lia.
Defined.

(** ** Deposit *)

Lemma deposit_effect t workerID ledgerID accountID amount b w :
  balance_of w accountID = Some b →
  lock_of w (AccLock accountID) = Some None →
  lock_of w BankLock = Some None →
  in_long (b + amount) = true →
  in_int (num_succ (bank w) + 1) = true →
  ∃ w',
    run t (deposit workerID ledgerID accountID amount) w = Done 0 w'
    ∧ balance_of w' accountID = Some (b + amount)
    ∧ num_succ (bank w') = num_succ (bank w) + 1
    ∧ num_fail (bank w') = num_fail (bank w)
    ∧ cout w' = cout w ++ [DEPOSITE_MSG SUCC workerID ledgerID accountID amount]
    ∧ (∀ j, j ≠ accountID → balance_of w' j = balance_of w j)
    ∧ (∀ l, lock_of w' l = lock_of w l).
Proof.
  intros Hb Hl Hbl Hv Hn. eexists. split; [by apply run_deposit|].
  repeat split; try by wsolve.
  - intros j Hj. wsolve.
  - intros l. destruct (decide (l = AccLock accountID)) as [->|];
      [|destruct (decide (l = BankLock)) as [->|]]; wsolve.
Qed.

Lemma in_int_bounds z : in_int z = true ↔ INT_MIN ≤ z ≤ INT_MAX.
Proof. unfold in_int. rewrite andb_true_iff, !Z.leb_le. done. Qed.

Lemma in_long_bounds z : in_long z = true ↔ LONG_MIN ≤ z ≤ LONG_MAX.
Proof. unfold in_long. rewrite andb_true_iff, !Z.leb_le. done. Qed.

Lemma run_deposits
    (accountID : Z) (calls : list deposit_call) (b : Z) (w : World) :
  balance_of w accountID = Some b →
  lock_of w (AccLock accountID) = Some None →
  lock_of w BankLock = Some None →
  sums_fit b (deposit_amount <$> calls) = true →
  INT_MIN ≤ num_succ (bank w) + 1 →
  num_succ (bank w) + Z.of_nat (length calls) ≤ INT_MAX →
  ∃ w',
    run_ops (deposit_into accountID <$> calls) w
    = Done (replicate (length calls) 0) w'
    ∧ balance_of w' accountID = Some (b + total (deposit_amount <$> calls))
    ∧ num_succ (bank w') = num_succ (bank w) + Z.of_nat (length calls)
    ∧ num_fail (bank w') = num_fail (bank w)
    ∧ (∀ j, j ≠ accountID → balance_of w' j = balance_of w j)
    ∧ (∀ l, lock_of w' l = lock_of w l).
Proof.
  revert b w. induction calls as [|[[[t workerID] ledgerID] amount] calls IH];
    intros b w Hb Hl Hbl Hfit Hlo Hhi.
  - exists w. cbn. repeat split; try done.
    + rewrite Hb. f_equal. lia.
    + lia.
  - cbn [fmap list_fmap deposit_amount snd sums_fit] in Hfit.
    apply andb_true_iff in Hfit as [Hv Hfit].
    cbn [length] in Hhi.
    destruct (deposit_effect t workerID ledgerID accountID amount b w)
      as (w1 & Hrun & Hb1 & Hs1 & Hf1 & _ & Hoth1 & Hlk1); try done.
    { apply in_int_bounds. lia. }
    destruct (IH (b + amount) w1) as (w' & Hrun' & Hb' & Hs' & Hf' & Hoth' & Hlk');
      try done.
    { by rewrite Hlk1. }
    { by rewrite Hlk1. }
    { lia. }
    { lia. }
    exists w'. cbn [fmap list_fmap deposit_into run_ops op_prog].
    rewrite Hrun. change (list_fmap _ _ (deposit_into accountID) calls)
      with (deposit_into accountID <$> calls). rewrite Hrun'.
    repeat split.
    + rewrite Hb'. cbn [total deposit_amount snd]. f_equal. lia.
    + rewrite Hs', Hs1. cbn [length]. lia.
    + by rewrite Hf', Hf1.
    + intros j Hj. by rewrite Hoth', Hoth1.
    + intros l. by rewrite Hlk', Hlk1.
Qed.

(** C6. Every deposit returns 0 and records exactly one success, and a
    sequence of deposits into one account adds the sum of the deposited
    amounts to its balance: starting from balance [b] (0 for a new account)
    the final balance is [b] plus the sum.  The mutexes are free at the
    start, every running sum fits a [long] and the success counter stays an
    [int]. *)
Theorem deposits_add_up
    (accountID : Z) (calls : list deposit_call) (b : Z) (w : World) :
  balance_of w accountID = Some b →
  lock_of w (AccLock accountID) = Some None →
  lock_of w BankLock = Some None →
  sums_fit b (deposit_amount <$> calls) = true →
  INT_MIN ≤ num_succ (bank w) + 1 →
  num_succ (bank w) + Z.of_nat (length calls) ≤ INT_MAX →
  ∃ w',
    run_ops (deposit_into accountID <$> calls) w
    = Done (replicate (length calls) 0) w'
    ∧ balance_of w' accountID = Some (b + total (deposit_amount <$> calls))
    ∧ num_succ (bank w') = num_succ (bank w) + Z.of_nat (length calls)
    ∧ num_fail (bank w') = num_fail (bank w)
    ∧ (∀ j, j ≠ accountID → balance_of w' j = balance_of w j)
    ∧ (∀ l, lock_of w' l = lock_of w l).
Proof. apply run_deposits. Qed.

Lemma deposits_add_up_witness :
  ∃ w',
    run_ops (deposit_into 0 <$> [(0%nat, 1, 0, 100); (1%nat, 2, 1, 50)])
      (world_of bank10 [])
    = Done (replicate (length [(0%nat, 1, 0, 100); (1%nat, 2, 1, 50)]) 0) w'
    ∧ balance_of w' 0
      = Some (0 + total (deposit_amount <$> [(0%nat, 1, 0, 100); (1%nat, 2, 1, 50)]))
    ∧ num_succ (bank w')
      = num_succ (bank (world_of bank10 []))
        + Z.of_nat (length [(0%nat, 1, 0, 100); (1%nat, 2, 1, 50)])
    ∧ num_fail (bank w') = num_fail (bank (world_of bank10 []))
    ∧ (∀ j, j ≠ 0 → balance_of w' j = balance_of (world_of bank10 []) j)
    ∧ (∀ l, lock_of w' l = lock_of (world_of bank10 []) l).
Proof.
  apply (deposits_add_up 0 [(0%nat, 1, 0, 100); (1%nat, 2, 1, 50)] 0
           (world_of bank10 [])).
  - reflexivity.
  - reflexivity.
  - reflexivity.
  - reflexivity.
  - vm_compute. discriminate.
  - vm_compute. discriminate.
Defined.

Lemma sums_fit_ints (b : Z) (l : list Z) :
  Forall (λ a, in_int a = true) l →
  LONG_MIN ≤ b + INT_MIN * Z.of_nat (length l) →
  b + INT_MAX * Z.of_nat (length l) ≤ LONG_MAX →
  sums_fit b l = true.
Proof.
  intros Hall. revert b. induction Hall as [|a l Ha Hall IH]; intros b Hlo Hhi.
  - done.
  - cbn [sums_fit length] in *. apply in_int_bounds in Ha.
    unfold INT_MIN, INT_MAX, LONG_MIN, LONG_MAX in *.
    apply andb_true_iff. split.
    + apply in_long_bounds. unfold LONG_MIN, LONG_MAX. lia.
    + apply IH; lia.
Qed.

Lemma lookup_new_accounts (n : nat) (i : Z) :
  0 ≤ i < Z.of_nat n →
  new_accounts n !! Z.to_nat i = Some (mkAccount (to_unsigned i) 0 None).
Proof.
  intros Hi. unfold new_accounts. rewrite list_lookup_fmap.
  rewrite lookup_seq_lt by lia. cbn. by rewrite Z2Nat.id by lia.
Qed.

Lemma Bank_new_account (N : Z) (b0 : Bank) (l : list Ledger) (i : Z) :
  Bank_new N = Some b0 → 0 ≤ i < N →
  lookup_account (world_of b0 l) i = Some (mkAccount (to_unsigned i) 0 None).
Proof.
  unfold Bank_new. destruct (N <? 0) eqn:HN; [done|]. intros [= <-] Hi.
  unfold lookup_account. cbn.
  destruct (i <? 0) eqn:Hi0; [apply Z.ltb_lt in Hi0; lia|].
  apply lookup_new_accounts. lia.
Qed.

Lemma Bank_new_num_accounts (N : Z) (b0 : Bank) (l : list Ledger) :
  Bank_new N = Some b0 → num_accounts (world_of b0 l) = N.
Proof.
  unfold Bank_new. destruct (N <? 0) eqn:HN; [done|]. intros [= <-].
  apply Z.ltb_ge in HN. unfold num_accounts, new_accounts. cbn.
  rewrite length_fmap, length_seq. lia.
Qed.

(** Deposits into an account of a newly constructed bank: for [int] amounts
    and at most [INT_MAX] calls nothing overflows, and the balance ends as the
    sum of the amounts. *)
Lemma deposits_into_new_account
    (N : Z) (b0 : Bank) (l : list Ledger) (accountID : Z)
    (calls : list deposit_call) :
  Bank_new N = Some b0 → 0 ≤ accountID < N →
  Forall (λ c, in_int (deposit_amount c) = true) calls →
  Z.of_nat (length calls) ≤ INT_MAX →
  ∃ w',
    run_ops (deposit_into accountID <$> calls) (world_of b0 l)
    = Done (replicate (length calls) 0) w'
    ∧ balance_of w' accountID = Some (total (deposit_amount <$> calls))
    ∧ num_succ (bank w') = Z.of_nat (length calls)
    ∧ num_fail (bank w') = 0.
Proof.
  intros Hnew Hi Hall Hlen.
  pose proof (Bank_new_account N b0 l accountID Hnew Hi) as Hacc.
  assert (num_succ b0 = 0 ∧ num_fail b0 = 0 ∧ bank_lock b0 = None)
    as (Hs0 & Hf0 & Hl0).
  { unfold Bank_new in Hnew. destruct (N <? 0); [done|]. by injection Hnew as <-. }
  destruct (run_deposits accountID calls 0 (world_of b0 l))
    as (w' & Hrun & Hb & Hs & Hf & _).
  - unfold balance_of. by rewrite Hacc.
  - cbn. by rewrite Hacc.
  - cbn. by rewrite Hl0.
  - apply sums_fit_ints.
    + by apply Forall_fmap.
    + rewrite length_fmap. unfold INT_MIN, INT_MAX, LONG_MIN in *. lia.
    + rewrite length_fmap. unfold INT_MIN, INT_MAX, LONG_MAX in *. lia.
  - cbn. rewrite Hs0. unfold INT_MIN. lia.
  - cbn. rewrite Hs0. lia.
  - exists w'. cbn in Hs, Hf. rewrite Hs0 in Hs. rewrite Hf0 in Hf.
    repeat split; try done.
Qed.

(** ** Amounts of either sign *)

(** C9. No operation checks the sign of [amount].  A deposit of a negative
    amount returns 0 and lowers the balance, below zero when the balance was
    smaller than [- amount]; a withdraw of a negative amount from a
    non-negative balance returns 0 and raises the balance.  (As for every
    call: the mutexes are free, and the new balance and counter are
    representable.) *)
Theorem negative_amount_accepted
    (t : tid) (workerID ledgerID accountID amount b : Z) (w : World) :
  amount < 0 →
  balance_of w accountID = Some b →
  lock_of w (AccLock accountID) = Some None →
  lock_of w BankLock = Some None →
  in_int (num_succ (bank w) + 1) = true →
  (in_long (b + amount) = true →
     ∃ w' b',
       run t (deposit workerID ledgerID accountID amount) w = Done 0 w'
       ∧ balance_of w' accountID = Some b'
       ∧ b' = b + amount ∧ b' < b ∧ (b < - amount → b' < 0)
       ∧ num_succ (bank w') = num_succ (bank w) + 1)
  ∧ (0 ≤ b → in_long (b - amount) = true →
     ∃ w' b',
       run t (withdraw workerID ledgerID accountID amount) w = Done 0 w'
       ∧ balance_of w' accountID = Some b'
       ∧ b' = b - amount ∧ b < b'
       ∧ num_succ (bank w') = num_succ (bank w) + 1).
Proof.
  intros Hneg Hb Hl Hbl Hn. split.
  - intros Hv.
    destruct (deposit_effect t workerID ledgerID accountID amount b w)
      as (w' & Hrun & Hb' & Hs & _); try done.
    exists w', (b + amount). repeat split; try done; lia.
  - intros Hb0 Hv. eexists _, (b - amount).
    split; [apply run_withdraw_ok; try done; lia|].
    repeat split; try lia; wsolve.
Qed.

Lemma negative_amount_accepted_witness :
  (∃ w' b',
     run 0%nat (deposit 1 0 3 (-5)) (world_of bank10 []) = Done 0 w'
     ∧ balance_of w' 3 = Some b'
     ∧ b' = 0 + -5 ∧ b' < 0 ∧ (0 < - -5 → b' < 0)
     ∧ num_succ (bank w') = num_succ (bank (world_of bank10 [])) + 1)
  ∧ (∃ w' b',
       run 0%nat (withdraw 1 0 3 (-5)) (world_of bank10 []) = Done 0 w'
       ∧ balance_of w' 3 = Some b'
       ∧ b' = 0 - -5 ∧ 0 < b'
       ∧ num_succ (bank w') = num_succ (bank (world_of bank10 [])) + 1).
Proof.
  destruct (negative_amount_accepted 0%nat 1 0 3 (-5) 0 (world_of bank10 []))
    as [Hdeposit Hwithdraw].
  - lia.
  - reflexivity.
  - reflexivity.
  - reflexivity.
  - reflexivity.
  - split.
    + apply Hdeposit. reflexivity.
    + apply Hwithdraw; [lia|reflexivity].
Defined.

Example deposit_negative_on_new_account :
  ∃ w', run 0%nat (deposit 1 0 3 (-5)) (world_of bank10 []) = Done 0 w'
        ∧ balance_of w' 3 = Some (-5).
Proof. eexists. split; [vm_compute; reflexivity|reflexivity]. Qed.

Example withdraw_negative_on_new_account :
  ∃ w', run 0%nat (withdraw 1 0 3 (-5)) (world_of bank10 []) = Done 0 w'
        ∧ balance_of w' 3 = Some 5.
Proof. eexists. split; [vm_compute; reflexivity|reflexivity]. Qed.

(** ** Self-transfer *)

(** What a transfer from an account to itself does when the mutex of the
    account is free: it takes that mutex, returns -1, and changes nothing
    else; in particular the mutex stays taken, the counters stay as they
    were and nothing is printed. *)
Lemma self_transfer_effect t workerID ledgerID srcID amount w :
  lock_of w (AccLock srcID) = Some None →
  ∃ w',
    run t (transfer workerID ledgerID srcID srcID amount) w = Done (-1) w'
    ∧ (∀ j, balance_of w' j = balance_of w j)
    ∧ lock_of w' (AccLock srcID) = Some (Some t)
    ∧ (∀ l, l ≠ AccLock srcID → lock_of w' l = lock_of w l)
    ∧ locklog w' = locklog w ++ [Acq t (AccLock srcID)]
    ∧ num_succ (bank w') = num_succ (bank w)
    ∧ num_fail (bank w') = num_fail (bank w)
    ∧ cout w' = cout w.
Proof.
  intros Hl. eexists. split; [by apply run_transfer_self|].
  repeat split; try by wsolve.
  - intros j. wsolve.
  - intros l Hne. wsolve.
Qed.

(** A self-transfer waits when the mutex of the account is taken. *)
Lemma self_transfer_blocks t t' workerID ledgerID srcID amount w :
  lock_of w (AccLock srcID) = Some (Some t') →
  run t (transfer workerID ledgerID srcID srcID amount) w = Blocked.
Proof.
  intros Hl. unfold transfer.
  assert (is_Some (balance_of w srcID)) as Hs.
  { cbn in Hl. unfold balance_of. by destruct (lookup_account w srcID). }
  rewrite run_bind, run_account_ref by done.
  rewrite run_bind, run_account_ref by done.
  by rewrite run_bind, (run_lock_held _ _ _ t').
Qed.

(** C1, as the code has it.  A transfer whose source and destination are the
    same account, called while the mutex of that account is free, returns -1
    and changes no balance; it does take a mutex first, the one of the
    account, and touches no other mutex. *)
Theorem self_transfer_fails_after_locking_source
    (t : tid) (workerID ledgerID srcID amount : Z) (w : World) :
  lock_of w (AccLock srcID) = Some None →
  ∃ w',
    run t (transfer workerID ledgerID srcID srcID amount) w = Done (-1) w'
    ∧ (∀ j, balance_of w' j = balance_of w j)
    ∧ (∃ rest, locklog w' = locklog w ++ Acq t (AccLock srcID) :: rest)
    ∧ (∀ l, l ≠ AccLock srcID → lock_of w' l = lock_of w l).
Proof.
  intros Hl.
  destruct (self_transfer_effect t workerID ledgerID srcID amount w Hl)
    as (w' & Hrun & Hbal & _ & Hoth & Hlog & _).
  exists w'. repeat split; try done. by exists [].
Qed.

Lemma self_transfer_fails_after_locking_source_witness :
  ∃ w',
    run 0%nat (transfer 7 0 2 2 10) (world_of bank10 []) = Done (-1) w'
    ∧ (∀ j, balance_of w' j = balance_of (world_of bank10 []) j)
    ∧ (∃ rest, locklog w'
               = locklog (world_of bank10 []) ++ Acq 0%nat (AccLock 2) :: rest)
    ∧ (∀ l, l ≠ AccLock 2 → lock_of w' l = lock_of (world_of bank10 []) l).
Proof.
  apply (self_transfer_fails_after_locking_source 0%nat 7 0 2 10
           (world_of bank10 [])).
  reflexivity.
Defined.

(** C1, as the spec has it, fails: the self-transfer of scenario (4),
    [transfer(src=2, dest=2, amount=10)] on a new bank, acquires the mutex of
    account 2. *)
Lemma self_transfer_acquires_a_lock :
  ∃ w',
    run 0%nat (transfer 7 0 2 2 10) (world_of bank10 []) = Done (-1) w'
    ∧ locklog (world_of bank10 []) = []
    ∧ locklog w' = [Acq 0%nat (AccLock 2)]
    ∧ lock_of (world_of bank10 []) (AccLock 2) = Some None
    ∧ lock_of w' (AccLock 2) = Some (Some 0%nat).
Proof.
  destruct (self_transfer_effect 0%nat 7 0 2 10 (world_of bank10 []))
    as (w' & Hrun & _ & Hheld & _ & Hlog & _); [reflexivity|].
  exists w'. by repeat split.
Qed.

(** C2 at its failing input: the self-transfer of scenario (4) on a new bank
    returns -1, but [num_fail] is still 0 and no line has been printed. *)
Theorem self_transfer_not_recorded :
  ∃ w',
    run 0%nat (transfer 7 0 2 2 10) (world_of bank10 []) = Done (-1) w'
    ∧ num_fail (bank w') = 0
    ∧ num_succ (bank w') = 0
    ∧ cout w' = [].
Proof.
  destruct (self_transfer_effect 0%nat 7 0 2 10 (world_of bank10 []))
    as (w' & Hrun & _ & _ & _ & _ & Hs & Hf & Hc); [reflexivity|].
  by exists w'.
Qed.

(** ** From a finished run back to its conditions *)

Tactic Notation "wsimpl" "in" hyp(H) :=
  repeat first
    [ progress autorewrite with world in H
    | rewrite decide_True in H by (done || congruence || lia)
    | rewrite decide_False in H by (done || congruence || lia)
    | progress unfold acquired, released, stored, recorded_succ,
        recorded_fail in H
    | progress cbn [fmap option_fmap option_map bank cout ledger ledger_lock
                    locklog num num_succ num_fail bank_lock accounts
                    log_lock with_cout with_ledger with_ledger_lock
                    set_num_succ set_num_fail set_bank_lock with_bank
                    with_num_succ with_num_fail with_bank_lock] in H ].

Lemma run_bind_inv {A B : Type} (t : tid) (p : prog A) (f : A → prog B)
    (w w' : World) (r : B) :
  run t (bind p f) w = Done r w' →
  ∃ x w1, run t p w = Done x w1 ∧ run t (f x) w1 = Done r w'.
Proof.
  rewrite run_bind. destruct (run t p w) as [x w1| |]; [|done..].
  intros H. by exists x, w1.
Qed.

Section inversions.
Context (t : tid).

Lemma run_account_ref_inv (w w' : World) i x :
  run t (account_ref i) w = Done x w' → w' = w ∧ is_Some (balance_of w i).
Proof.
  unfold account_ref, balance_of. rewrite run_trigger. cbn.
  destruct (lookup_account w i); [|done]. intros [= _ <-]. by split.
Qed.

Lemma run_lock_inv (w w' : World) l x :
  run t (pthread_mutex_lock l) w = Done x w' →
  lock_of w l = Some None ∧ w' = acquired t l w.
Proof.
  unfold pthread_mutex_lock. rewrite run_trigger. cbn. unfold mutex_acquire.
  destruct (lock_of w l) as [[?|]|]; [done| |done]. by intros [= _ <-].
Qed.

Lemma run_unlock_inv (w w' : World) l x :
  run t (pthread_mutex_unlock l) w = Done x w' →
  lock_of w l = Some (Some t) ∧ w' = released t l w.
Proof.
  unfold pthread_mutex_unlock. rewrite run_trigger. cbn. unfold mutex_release.
  destruct (lock_of w l) as [[t'|]|]; cbn; [|done..].
  destruct (Nat.eqb_spec t t') as [->|]; [|done]. by intros [= _ <-].
Qed.

Lemma run_load_inv (w w' : World) i b :
  run t (load_balance i) w = Done b w' → balance_of w i = Some b ∧ w' = w.
Proof.
  unfold load_balance, balance_of. rewrite run_trigger. cbn.
  destruct (lookup_account w i); [|done]. by intros [= <- <-].
Qed.

Lemma run_store_inv (w w' : World) i v x :
  run t (store_balance i v) w = Done x w' →
  is_Some (balance_of w i) ∧ in_long v = true ∧ w' = stored i v w.
Proof.
  unfold store_balance, balance_of. rewrite run_trigger. cbn.
  destruct (lookup_account w i); [|done].
  destruct (in_long v); [|done]. by intros [= _ <-].
Qed.

Lemma run_add_balance_inv (w w' : World) i d x :
  run t (add_balance i d) w = Done x w' →
  ∃ b, balance_of w i = Some b ∧ in_long (b + d) = true
       ∧ w' = stored i (b + d) w.
Proof.
  unfold add_balance. intros (b & w1 & H1 & H)%run_bind_inv.
  apply run_load_inv in H1 as [Hb ->].
  apply run_store_inv in H as (_ & Hv & ->). by exists b.
Qed.

Lemma run_sub_balance_inv (w w' : World) i d x :
  run t (sub_balance i d) w = Done x w' →
  ∃ b, balance_of w i = Some b ∧ in_long (b - d) = true
       ∧ w' = stored i (b - d) w.
Proof.
  unfold sub_balance. intros (b & w1 & H1 & H)%run_bind_inv.
  apply run_load_inv in H1 as [Hb ->].
  apply run_store_inv in H as (_ & Hv & ->). by exists b.
Qed.

Lemma run_recordSucc_inv (w w' : World) message x :
  run t (recordSucc message) w = Done x w' →
  lock_of w BankLock = Some None
  ∧ in_int (num_succ (bank w) + 1) = true
  ∧ w' = recorded_succ t message w.
Proof.
  intros H. assert (lock_of w BankLock = Some None) as Hl.
  { unfold recordSucc in H. apply run_bind_inv in H as (? & w1 & H1 & _).
    by apply run_lock_inv in H1 as [Hl _]. }
  destruct (in_int (num_succ (bank w) + 1)) eqn:Hn.
  - rewrite (run_recordSucc t message w Hl Hn) in H. by injection H as <-.
  - exfalso. unfold recordSucc in H.
    rewrite run_bind, run_lock in H by done.
    rewrite run_bind, run_trigger in H. cbn [handle] in H.
    rewrite run_bind, run_trigger in H. cbn [handle] in H.
    change (num_succ (bank (with_cout _ (acquired t BankLock w))))
      with (num_succ (bank w)) in H.
    by rewrite Hn in H.
Qed.

Lemma run_recordFail_inv (w w' : World) message x :
  run t (recordFail message) w = Done x w' →
  lock_of w BankLock = Some None
  ∧ in_int (num_fail (bank w) + 1) = true
  ∧ w' = recorded_fail t message w.
Proof.
  intros H. assert (lock_of w BankLock = Some None) as Hl.
  { unfold recordFail in H. apply run_bind_inv in H as (? & w1 & H1 & _).
    by apply run_lock_inv in H1 as [Hl _]. }
  destruct (in_int (num_fail (bank w) + 1)) eqn:Hn.
  - rewrite (run_recordFail t message w Hl Hn) in H. by injection H as <-.
  - exfalso. unfold recordFail in H.
    rewrite run_bind, run_lock in H by done.
    rewrite run_bind, run_trigger in H. cbn [handle] in H.
    rewrite run_bind, run_trigger in H. cbn [handle] in H.
    change (num_fail (bank (with_cout _ (acquired t BankLock w))))
      with (num_fail (bank w)) in H.
    by rewrite Hn in H.
Qed.
End inversions.

(** A finished deposit started from the conditions of [run_deposit]. *)
Lemma deposit_inv t workerID ledgerID accountID amount w r w' :
  run t (deposit workerID ledgerID accountID amount) w = Done r w' →
  ∃ b,
    balance_of w accountID = Some b
    ∧ lock_of w (AccLock accountID) = Some None
    ∧ lock_of w BankLock = Some None
    ∧ in_long (b + amount) = true
    ∧ in_int (num_succ (bank w) + 1) = true.
Proof.
  unfold deposit. intros H.
  apply run_bind_inv in H as (? & w1 & H1 & H).
  apply run_account_ref_inv in H1 as [-> _].
  apply run_bind_inv in H as (? & w2 & H1 & H).
  apply run_lock_inv in H1 as [Hl ->].
  apply run_bind_inv in H as (? & w3 & H1 & H).
  apply run_add_balance_inv in H1 as (b & Hb & Hv & ->).
  apply run_bind_inv in H as (? & w4 & H1 & _).
  apply run_recordSucc_inv in H1 as (Hbl & Hn & _).
  wsimpl in Hb. wsimpl in Hbl. wsimpl in Hn.
  by exists b.
Qed.

Lemma withdraw_inv t workerID ledgerID accountID amount w r w' :
  run t (withdraw workerID ledgerID accountID amount) w = Done r w' →
  ∃ b,
    balance_of w accountID = Some b
    ∧ lock_of w (AccLock accountID) = Some None
    ∧ lock_of w BankLock = Some None
    ∧ (amount ≤ b ∧ in_long (b - amount) = true
         ∧ in_int (num_succ (bank w) + 1) = true
       ∨ b < amount ∧ in_int (num_fail (bank w) + 1) = true).
Proof.
  unfold withdraw. intros H.
  apply run_bind_inv in H as (? & w1 & H1 & H).
  apply run_account_ref_inv in H1 as [-> _].
  apply run_bind_inv in H as (? & w2 & H1 & H).
  apply run_lock_inv in H1 as [Hl ->].
  apply run_bind_inv in H as (b & w3 & H1 & H).
  apply run_load_inv in H1 as [Hb ->]. wsimpl in Hb.
  apply run_bind_inv in H as (? & w4 & H1 & _).
  destruct (Z.leb_spec amount b) as [Hle|Hlt].
  - apply run_bind_inv in H1 as (? & w5 & H1 & H).
    apply run_sub_balance_inv in H1 as (b' & Hb' & Hv & ->).
    wsimpl in Hb'. rewrite Hb in Hb'. injection Hb' as <-.
    apply run_bind_inv in H as (? & w6 & H1 & _).
    apply run_recordSucc_inv in H1 as (Hbl & Hn & _).
    wsimpl in Hbl. wsimpl in Hn. exists b. auto 10.
  - apply run_bind_inv in H1 as (? & w5 & H1 & _).
    apply run_recordFail_inv in H1 as (Hbl & Hn & _).
    wsimpl in Hbl. wsimpl in Hn. exists b. auto 10.
Qed.

Lemma transfer_inv t workerID ledgerID srcID destID amount w r w' :
  run t (transfer workerID ledgerID srcID destID amount) w = Done r w' →
  srcID = destID ∧ lock_of w (AccLock srcID) = Some None
  ∨ srcID ≠ destID ∧ ∃ s d,
      balance_of w srcID = Some s
      ∧ balance_of w destID = Some d
      ∧ lock_of w (AccLock srcID) = Some None
      ∧ lock_of w (AccLock destID) = Some None
      ∧ lock_of w BankLock = Some None
      ∧ (amount ≤ s ∧ in_long (s - amount) = true
           ∧ in_long (d + amount) = true
           ∧ in_int (num_succ (bank w) + 1) = true
         ∨ s < amount ∧ in_int (num_fail (bank w) + 1) = true).
Proof.
  unfold transfer. intros H.
  apply run_bind_inv in H as (? & w1 & H1 & H).
  apply run_account_ref_inv in H1 as [-> _].
  apply run_bind_inv in H as (? & w2 & H1 & H).
  apply run_account_ref_inv in H1 as [-> [d Hd]].
  apply run_bind_inv in H as (? & w3 & H1 & H).
  apply run_lock_inv in H1 as [Hls ->].
  destruct (Z.eqb_spec srcID destID) as [Heq|Hne]; [by left|right].
  split; [done|].
  apply run_bind_inv in H as (? & w4 & H1 & H).
  apply run_unlock_inv in H1 as [_ ->].
  apply run_bind_inv in H as (? & w5 & H1 & H).
  assert (lock_of w (AccLock destID) = Some None
          ∧ balance_of w5 srcID = balance_of w srcID
          ∧ balance_of w5 destID = balance_of w destID
          ∧ lock_of w5 BankLock = lock_of w BankLock
          ∧ num_succ (bank w5) = num_succ (bank w)
          ∧ num_fail (bank w5) = num_fail (bank w))
    as (Hld & Hbs5 & Hbd5 & Hbl5 & Hns5 & Hnf5).
  { destruct (srcID <? destID).
    - apply run_bind_inv in H1 as (? & w6 & H1 & H2).
      apply run_lock_inv in H1 as [_ ->].
      apply run_lock_inv in H2 as [Hld ->]. wsimpl in Hld.
      split; [done|]. repeat split; wsolve.
    - apply run_bind_inv in H1 as (? & w6 & H1 & H2).
      apply run_lock_inv in H1 as [Hld ->]. wsimpl in Hld.
      apply run_lock_inv in H2 as [_ ->].
      split; [done|]. repeat split; wsolve. }
  clear H1.
  apply run_bind_inv in H as (s & w6 & H1 & H).
  apply run_load_inv in H1 as [Hs ->]. rewrite Hbs5 in Hs.
  apply run_bind_inv in H as (? & w7 & H1 & _).
  exists s, d. do 4 (split; [done|]).
  destruct (Z.leb_spec amount s) as [Hle|Hlt].
  - apply run_bind_inv in H1 as (? & w8 & H1 & H).
    apply run_sub_balance_inv in H1 as (s' & Hs' & Hvs & ->).
    rewrite Hbs5, Hs in Hs'. injection Hs' as <-.
    apply run_bind_inv in H as (? & w9 & H1 & H).
    apply run_add_balance_inv in H1 as (d' & Hd' & Hvd & ->).
    wsimpl in Hd'. rewrite Hbd5, Hd in Hd'. injection Hd' as <-.
    apply run_bind_inv in H as (? & w10 & H1 & _).
    apply run_recordSucc_inv in H1 as (Hbl & Hn & _).
    wsimpl in Hbl. wsimpl in Hn. rewrite Hbl5 in Hbl. rewrite Hns5 in Hn.
    auto 10.
  - apply run_bind_inv in H1 as (? & w8 & H1 & _).
    apply run_recordFail_inv in H1 as (Hbl & Hn & _).
    rewrite Hbl5 in Hbl. rewrite Hnf5 in Hn. auto 10.
Qed.

(** ** Balances stay non-negative *)

Lemma balance_of_if_Some (c : Prop) `{Decision c} (v : Z) (o : option Z) (b : Z) :
  (if decide c then (λ _, v) <$> o else o) = Some b →
  c ∧ b = v ∨ ¬ c ∧ o = Some b.
Proof.
  case_decide; [|by right]. destruct o; [|done]. intros [= <-]. by left.
Qed.

Lemma op_keeps_nonneg t o w r w' :
  0 ≤ op_amount o → nonneg w →
  run t (op_prog o) w = Done r w' → nonneg w'.
Proof.
  intros Ha Hw H j bj Hj.
  destruct o as [workerID ledgerID i a|workerID ledgerID i a
                |workerID ledgerID src dst a]; cbn [op_prog op_amount] in Ha, H.
  - destruct (deposit_inv _ _ _ _ _ _ _ _ H) as (b & Hb & Hl & Hbl & Hv & Hn).
    rewrite (run_deposit _ _ _ _ _ b) in H by done. injection H as <- <-.
    wsimpl in Hj. apply balance_of_if_Some in Hj as [[_ ->]|[_ Hj]].
    + specialize (Hw _ _ Hb). lia.
    + by apply (Hw j).
  - destruct (withdraw_inv _ _ _ _ _ _ _ _ H)
      as (b & Hb & Hl & Hbl & [(Hle & Hv & Hn)|(Hlt & Hn)]).
    + rewrite (run_withdraw_ok _ _ _ _ _ b) in H by done. injection H as <- <-.
      wsimpl in Hj. apply balance_of_if_Some in Hj as [[_ ->]|[_ Hj]].
      * lia.
      * by apply (Hw j).
    + rewrite (run_withdraw_insufficient _ _ _ _ _ b) in H by done.
      injection H as <- <-. wsimpl in Hj. by apply (Hw j).
  - destruct (transfer_inv _ _ _ _ _ _ _ _ _ H)
      as [[<- Hl]|(Hne & s & d & Hs & Hd & Hls & Hld & Hbl
                   & [(Hle & Hvs & Hvd & Hn)|(Hlt & Hn)])].
    + rewrite run_transfer_self in H by done. injection H as <- <-.
      wsimpl in Hj. by apply (Hw j).
    + rewrite (run_transfer_ok _ _ _ _ _ _ s d) in H by done.
      injection H as <- <-.
      unfold transfer_unlocked, transfer_locked in Hj.
      destruct (src <? dst); wsimpl in Hj.
      all: apply balance_of_if_Some in Hj as [[_ ->]|[_ Hj]];
        [specialize (Hw _ _ Hd); lia|].
      all: apply balance_of_if_Some in Hj as [[_ ->]|[_ Hj]];
        [lia|by apply (Hw j)].
    + rewrite (run_transfer_insufficient _ _ _ _ _ _ s) in H by (done || by rewrite Hd).
      injection H as <- <-.
      unfold transfer_unlocked, transfer_locked in Hj.
      destruct (src <? dst); wsimpl in Hj; by apply (Hw j).
Qed.

Lemma run_ops_cons_inv t o ops w rs w' :
  run_ops ((t, o) :: ops) w = Done rs w' →
  ∃ r w1 rs', run t (op_prog o) w = Done r w1
              ∧ run_ops ops w1 = Done rs' w' ∧ rs = r :: rs'.
Proof.
  cbn [run_ops]. destruct (run t (op_prog o) w) as [r w1| |] eqn:H1; [|done..].
  destruct (run_ops ops w1) as [rs' w''| |] eqn:H2; [|done..].
  intros [= <- <-]. by exists r, w1, rs'.
Qed.

Lemma ops_keep_nonneg ops w rs w' :
  Forall (λ c : tid * op, 0 ≤ op_amount c.2) ops → nonneg w →
  run_ops ops w = Done rs w' → nonneg w'.
Proof.
  intros Hall. revert w rs. induction Hall as [|[t o] ops Ha Hall IH];
    intros w rs Hw H.
  - cbn in H. by injection H as _ <-.
  - apply run_ops_cons_inv in H as (r & w1 & rs' & H1 & H2 & _).
    eapply IH; [|done]. by eapply op_keeps_nonneg.
Qed.

Lemma Bank_new_balance (N : Z) (b0 : Bank) (l : list Ledger) (j b : Z) :
  Bank_new N = Some b0 → balance_of (world_of b0 l) j = Some b → b = 0.
Proof.
  intros Hnew Hj. unfold balance_of in Hj.
  destruct (lookup_account (world_of b0 l) j) as [a|] eqn:Ha; [|done].
  pose proof (lookup_account_Some _ _ _ Ha) as Hb.
  rewrite (Bank_new_num_accounts N b0 l Hnew) in Hb.
  rewrite (Bank_new_account N b0 l j Hnew Hb) in Ha.
  injection Ha as <-. cbn in Hj. by injection Hj as <-.
Qed.

(** C7. When no operation is given a negative amount, no balance is negative
    in any world that a sequence of deposits, withdraws and transfers reaches
    from a newly constructed bank. *)
Theorem balances_never_negative
    (N : Z) (b0 : Bank) (l : list Ledger) (ops : list (tid * op))
    (rs : list Z) (w' : World) :
  Bank_new N = Some b0 →
  Forall (λ c : tid * op, 0 ≤ op_amount c.2) ops →
  run_ops ops (world_of b0 l) = Done rs w' →
  ∀ j b, balance_of w' j = Some b → 0 ≤ b.
Proof.
  intros Hnew Hall H. eapply ops_keep_nonneg; [done| |done].
  intros j b Hj. by rewrite (Bank_new_balance N b0 l j b Hnew Hj).
Qed.

Example sample_run :
  run_ops sample_ops (world_of bank10 []) = Done [0; -1; 0; -1] sample_world
  ∧ balances sample_world = [50; 50; 0; 0; 0; 0; 0; 0; 0; 0]
  ∧ num_succ (bank sample_world) = 2
  ∧ num_fail (bank sample_world) = 1.
Proof. vm_compute. done. Qed.

Lemma balances_never_negative_witness :
  Bank_new 10 = Some bank10
  ∧ Forall (λ c : tid * op, 0 ≤ op_amount c.2) sample_ops
  ∧ run_ops sample_ops (world_of bank10 []) = Done [0; -1; 0; -1] sample_world
  ∧ ∀ j b, balance_of sample_world j = Some b → 0 ≤ b.
Proof.
  assert (Bank_new 10 = Some bank10) as H1 by reflexivity.
  assert (Forall (λ c : tid * op, 0 ≤ op_amount c.2) sample_ops) as H2.
  { unfold sample_ops. repeat constructor; cbn; lia. }
  assert (run_ops sample_ops (world_of bank10 [])
          = Done [0; -1; 0; -1] sample_world) as H3.
  { vm_compute. reflexivity. }
  split; [exact H1|]. split; [exact H2|]. split; [exact H3|].
  exact (balances_never_negative 10 bank10 [] sample_ops [0; -1; 0; -1]
           sample_world H1 H2 H3).
Defined.

(** ** How many records an operation leaves *)

Lemma op_records t o w r w' :
  run t (op_prog o) w = Done r w' → records w' = records w + recorded o.
Proof.
  intros H. unfold records.
  destruct o as [workerID ledgerID i a|workerID ledgerID i a
                |workerID ledgerID src dst a]; cbn [op_prog recorded] in *.
  - destruct (deposit_inv _ _ _ _ _ _ _ _ H) as (b & Hb & Hl & Hbl & Hv & Hn).
    rewrite (run_deposit _ _ _ _ _ b) in H by done. injection H as <- <-.
    wsimpl. lia.
  - destruct (withdraw_inv _ _ _ _ _ _ _ _ H)
      as (b & Hb & Hl & Hbl & [(Hle & Hv & Hn)|(Hlt & Hn)]).
    + rewrite (run_withdraw_ok _ _ _ _ _ b) in H by done. injection H as <- <-.
      wsimpl. lia.
    + rewrite (run_withdraw_insufficient _ _ _ _ _ b) in H by done.
      injection H as <- <-. wsimpl. lia.
  - destruct (transfer_inv _ _ _ _ _ _ _ _ _ H)
      as [[<- Hl]|(Hne & s & d & Hs & Hd & Hls & Hld & Hbl
                   & [(Hle & Hvs & Hvd & Hn)|(Hlt & Hn)])].
    + rewrite run_transfer_self in H by done. injection H as <- <-.
      rewrite Z.eqb_refl. wsimpl. lia.
    + rewrite (run_transfer_ok _ _ _ _ _ _ s d) in H by done.
      injection H as <- <-. rewrite (proj2 (Z.eqb_neq src dst)) by done.
      unfold transfer_unlocked, transfer_locked.
      destruct (src <? dst); wsimpl; lia.
    + rewrite (run_transfer_insufficient _ _ _ _ _ _ s) in H by (done || by rewrite Hd).
      injection H as <- <-. rewrite (proj2 (Z.eqb_neq src dst)) by done.
      unfold transfer_unlocked, transfer_locked.
      destruct (src <? dst); wsimpl; lia.
Qed.

Lemma op_keeps_ledger t o w r w' :
  run t (op_prog o) w = Done r w' → ledger w' = ledger w.
Proof.
  intros H.
  destruct o as [workerID ledgerID i a|workerID ledgerID i a
                |workerID ledgerID src dst a]; cbn [op_prog] in *.
  - destruct (deposit_inv _ _ _ _ _ _ _ _ H) as (b & Hb & Hl & Hbl & Hv & Hn).
    rewrite (run_deposit _ _ _ _ _ b) in H by done. injection H as <- <-.
    by wsimpl.
  - destruct (withdraw_inv _ _ _ _ _ _ _ _ H)
      as (b & Hb & Hl & Hbl & [(Hle & Hv & Hn)|(Hlt & Hn)]).
    + rewrite (run_withdraw_ok _ _ _ _ _ b) in H by done. injection H as <- <-.
      by wsimpl.
    + rewrite (run_withdraw_insufficient _ _ _ _ _ b) in H by done.
      injection H as <- <-. by wsimpl.
  - destruct (transfer_inv _ _ _ _ _ _ _ _ _ H)
      as [[<- Hl]|(Hne & s & d & Hs & Hd & Hls & Hld & Hbl
                   & [(Hle & Hvs & Hvd & Hn)|(Hlt & Hn)])].
    + rewrite run_transfer_self in H by done. injection H as <- <-.
      by wsimpl.
    + rewrite (run_transfer_ok _ _ _ _ _ _ s d) in H by done.
      injection H as <- <-.
      unfold transfer_unlocked, transfer_locked.
      by destruct (src <? dst); wsimpl.
    + rewrite (run_transfer_insufficient _ _ _ _ _ _ s) in H by (done || by rewrite Hd).
      injection H as <- <-.
      unfold transfer_unlocked, transfer_locked.
      by destruct (src <? dst); wsimpl.
Qed.

(** ** One worker on its own *)

Lemma dispatch_entry id e :
  (if mode e =? D then deposit id (ledgerID e) (acc e) (amount e)
   else if mode e =? W then withdraw id (ledgerID e) (acc e) (amount e)
   else transfer id (ledgerID e) (acc e) (other e) (to_unsigned (amount e)))
  = op_prog (entry_op id e).
Proof. unfold entry_op. by destruct (mode e =? D), (mode e =? W). Qed.

Lemma worker_iteration_inv t id w r w' :
  run t (worker_iteration id) w = Done r w' →
  r = true ∧ ledger w = [] ∧ w' = w
  ∨ r = false ∧ ∃ e rest r1,
      ledger w = e :: rest
      ∧ run t (op_prog (entry_op id e)) (taken t rest w) = Done r1 w'.
Proof.
  unfold worker_iteration. intros H.
  apply run_bind_inv in H as (b & w1 & H1 & H).
  rewrite run_trigger in H1. cbn [handle] in H1. injection H1 as <- <-.
  destruct (ledger w) as [|e rest] eqn:Hled.
  - left. cbn in H. by injection H as <- <-.
  - right.
    apply run_bind_inv in H as (? & w2 & H1 & H).
    apply run_lock_inv in H1 as [Hl ->].
    apply run_bind_inv in H as (e' & w3 & H1 & H).
    rewrite run_trigger in H1. cbn [handle] in H1.
    unfold acquired in H1 at 1. cbn [ledger log_lock set_mutex with_ledger_lock] in H1.
    rewrite Hled in H1. injection H1 as <- <-.
    apply run_bind_inv in H as (? & w4 & H1 & H).
    rewrite run_trigger in H1. cbn [handle] in H1.
    unfold acquired in H1 at 1. cbn [ledger log_lock set_mutex with_ledger_lock] in H1.
    rewrite Hled in H1. injection H1 as _ <-.
    apply run_bind_inv in H as (? & w5 & H1 & H).
    apply run_unlock_inv in H1 as [_ ->].
    rewrite dispatch_entry in H.
    apply run_bind_inv in H as (r1 & w6 & H1 & H).
    cbn in H. injection H as <- <-.
    split; [done|]. by exists e, rest, r1.
Qed.

Lemma records_taken t rest w : records (taken t rest w) = records w.
Proof. done. Qed.

Lemma ledger_taken t rest w : ledger (taken t rest w) = rest.
Proof. done. Qed.

(** What the loop of one worker has done when it is over: it has consumed a
    prefix of the ledger, and the counters have grown by the number of
    records of the consumed entries; with [return NULL] the whole ledger is
    consumed. *)
Lemma worker_records t id passes w r w' :
  run t (worker passes id) w = Done r w' →
  ∃ consumed,
    ledger w = consumed ++ ledger w'
    ∧ records w' = records w + total (recorded ∘ entry_op id <$> consumed)
    ∧ (if r then ledger w' = [] else length consumed = passes).
Proof.
  revert w. induction passes as [|n IH]; intros w H.
  - cbn in H. injection H as <- <-. exists []. cbn. split; [done|]. split; [lia|done].
  - cbn [worker] in H. apply run_bind_inv in H as (stop & w1 & H1 & H).
    apply worker_iteration_inv in H1
      as [(-> & Hled & ->)|(-> & e & rest & r1 & Hled & H1)].
    + cbn in H. injection H as <- <-. exists []. cbn. split; [done|].
      split; [lia|done].
    + apply IH in H as (consumed & Hc & Hrec & Hr).
      pose proof (op_records _ _ _ _ _ H1) as Hrec1.
      pose proof (op_keeps_ledger _ _ _ _ _ H1) as Hled1.
      rewrite records_taken in Hrec1. rewrite ledger_taken in Hled1.
      exists (e :: consumed). split; [|split].
      * rewrite Hled. cbn. by rewrite <- Hc, Hled1.
      * cbn. rewrite Hrec, Hrec1. lia.
      * destruct r; [done|]. cbn. by rewrite Hr.
Qed.

(** With more passes than ledger entries the loop ends in [return NULL]. *)
Lemma worker_returns t id passes w r w' :
  (length (ledger w) < passes)%nat →
  run t (worker passes id) w = Done r w' →
  r = true
  ∧ ledger w' = []
  ∧ records w' = records w + total (recorded ∘ entry_op id <$> ledger w).
Proof.
  intros Hlen H. apply worker_records in H as (consumed & Hc & Hrec & Hr).
  destruct r.
  - rewrite Hr, app_nil_r in Hc. by rewrite Hc.
  - exfalso. rewrite Hc, length_app in Hlen. lia.
Qed.

Lemma recorded_entry id e :
  recorded (entry_op id e) = if self_transfer_entry e then 0 else 1.
Proof.
  unfold entry_op, self_transfer_entry.
  by destruct (mode e =? D), (mode e =? W); cbn.
Qed.

Lemma total_recorded id l :
  total (recorded ∘ entry_op id <$> l)
  = Z.of_nat (length l) - Z.of_nat (length (filter self_transfer_entry l)).
Proof.
  induction l as [|e l IH]; [done|].
  cbn [fmap list_fmap total length compose]. rewrite filter_cons.
  change (list_fmap _ _ (recorded ∘ entry_op id) l)
    with (recorded ∘ entry_op id <$> l).
  rewrite IH, recorded_entry.
  destruct (self_transfer_entry e); cbn [length].
  - rewrite decide_True by exact I. cbn [length]. lia.
  - rewrite decide_False by (intros []). lia.
Qed.

(** The count a single worker leaves behind: one record for every ledger
    entry except those that are a transfer from an account to itself. *)
Lemma worker_alone_count t id passes w w' :
  run t (worker passes id) w = Done true w' →
  records w' = records w + Z.of_nat (length (ledger w))
               - Z.of_nat (length (filter self_transfer_entry (ledger w))).
Proof.
  intros H. apply worker_records in H as (consumed & Hc & Hrec & Hr).
  rewrite Hr, app_nil_r in Hc. rewrite Hrec, Hc, total_recorded. lia.
Qed.

(** C3 at its failing input: the ledger holds one well-formed entry, the
    line [0 0 5 2] (a transfer of 5 from account 0 to account 0), and one
    worker processes it.  The worker returns with the ledger empty, and
    [num_succ + num_fail] is 0, not 1. *)
Theorem self_transfer_entry_not_counted :
  length [mkLedger 0 0 5 T 0] = 1%nat
  ∧ (∃ w', run 0%nat (worker 2 0) (world_of bank10 [mkLedger 0 0 5 T 0])
           = Done true w'
           ∧ ledger w' = [] ∧ records w' = 0)
  ∧ (∃ w', after_schedule 1 [mkLedger 0 0 5 T 0] (replicate 11 0%nat)
           = Some ([Returned], w')
           ∧ ledger w' = [] ∧ records w' = 0).
Proof.
  split; [done|]. split.
  - destruct (run 0%nat (worker 2 0) (world_of bank10 [mkLedger 0 0 5 T 0]))
      as [r w'| |] eqn:H; [| by vm_compute in H..].
    apply worker_returns in H as (-> & Hl & Hr); [|cbn; lia].
    exists w'. split; [done|]. split; [done|]. rewrite Hr. done.
  - eexists. split; [vm_compute; reflexivity|]. done.
Qed.

(** ** Lock order *)

(** The mutex operations of a transfer between two different accounts that
    has the funds: the source mutex is taken and given back, then the two
    account mutexes are taken, the smaller index first, the bank mutex is
    taken and given back inside, and the account mutexes are given back in
    the opposite order. *)
Lemma transfer_ok_locklog t workerID ledgerID srcID destID amount s d w :
  srcID ≠ destID →
  let lo := Z.min srcID destID in
  let hi := Z.max srcID destID in
  locklog (transfer_unlocked t srcID destID
             (recorded_succ t (TRANSFER_MSG SUCC workerID ledgerID srcID destID amount)
                (stored destID (d + amount)
                   (stored srcID (s - amount)
                      (transfer_locked t srcID destID w)))))
  = locklog w ++
    [Acq t (AccLock srcID); Rel t (AccLock srcID);
     Acq t (AccLock lo); Acq t (AccLock hi);
     Acq t BankLock; Rel t BankLock;
     Rel t (AccLock hi); Rel t (AccLock lo)].
Proof.
  intros Hne lo hi. subst lo hi. unfold transfer_unlocked, transfer_locked.
  destruct (Z.ltb_spec srcID destID).
  - rewrite Z.min_l, Z.max_r by lia. wsimpl. by rewrite <- !app_assoc.
  - rewrite Z.min_r, Z.max_l by lia. wsimpl. by rewrite <- !app_assoc.
Qed.

(** ** Deadlock *)

(** C8 at its failing input.  Two workers, and a ledger of a transfer from
    account 0 to itself followed by a deposit into account 0.  Worker 0 takes
    the transfer, which returns with the mutex of account 0 still held;
    worker 1 takes the deposit; worker 0 finds the ledger empty and returns.
    Now worker 1 waits for the mutex of account 0, no thread can take a
    step, and worker 1 has not returned. *)
Theorem self_transfer_deadlocks_pool :
  ∃ ths w',
    after_schedule 2 self_transfer_ledger schedule_two_workers = Some (ths, w')
    ∧ returned <$> ths = [true; false]
    ∧ lock_of w' (AccLock 0) = Some (Some 0%nat)
    ∧ deadlocked ths w' = true
    ∧ (∀ t, pool_step t ths w' = Blocked).
Proof.
  destruct (after_schedule 2 self_transfer_ledger schedule_two_workers)
    as [[ths w']|] eqn:H; [|by vm_compute in H].
  exists ths, w'. split; [done|].
  assert (returned <$> ths = [true; false]
          ∧ lock_of w' (AccLock 0) = Some (Some 0%nat)
          ∧ deadlocked ths w' = true
          ∧ pool_step 0%nat ths w' = Blocked
          ∧ pool_step 1%nat ths w' = Blocked
          ∧ length ths = 2%nat) as (H1 & H2 & H3 & H4 & H5 & H6).
  { vm_compute in H. injection H as <- <-. vm_compute. done. }
  do 3 (split; [done|]).
  intros [|[|t]]; [done..|].
  unfold pool_step. rewrite lookup_ge_None_2; [done|]. rewrite H6. lia.
Qed.

(** The same ledger with worker 0 taking both entries: it then waits for the
    mutex that it holds itself. *)
Lemma self_transfer_deadlocks_itself :
  ∃ ths w',
    after_schedule 2 self_transfer_ledger schedule_one_worker = Some (ths, w')
    ∧ returned <$> ths = [false; true]
    ∧ lock_of w' (AccLock 0) = Some (Some 0%nat)
    ∧ deadlocked ths w' = true.
Proof.
  destruct (after_schedule 2 self_transfer_ledger schedule_one_worker)
    as [[ths w']|] eqn:H; [|by vm_compute in H].
  exists ths, w'. split; [done|].
  vm_compute in H. injection H as <- <-. vm_compute. done.
Qed.

(** Sequentially: after a self-transfer, the next operation on the account
    never gets its mutex. *)
Lemma operation_after_self_transfer_blocks :
  run 0%nat (transfer 7 0 2 2 10 ;; deposit 7 1 2 5) (world_of bank10 [])
  = Blocked.
Proof. vm_compute. reflexivity. Qed.

(** [ledger.empty()] is read outside [ledger_lock]: with one entry and two
    workers that both read it before either pops, the second [front()] is
    taken of an empty list. *)
Lemma worker_race_front_of_empty :
  run_schedule [0; 1; 0; 0; 0; 0; 1; 1]%nat
    (InitBank 2 [mkLedger 0 0 5 D 0]).1 (InitBank 2 [mkLedger 0 0 5 D 0]).2
  = Fault FrontOfEmpty.
Proof. vm_compute. reflexivity. Qed.

(** ** Account indices *)

Lemma handle_num_accounts {X : Type} t (e : event X) w x w' :
  handle t e w = Done x w' → num_accounts w' = num_accounts w.
Proof.
  destruct e; cbn.
  - destruct (lookup_account w i); [|done]. by intros [= _ <-].
  - unfold mutex_acquire. destruct (lock_of w l) as [[?|]|]; [done| |done].
    intros [= _ <-]. apply (num_accounts_set_mutex w l).
  - unfold mutex_release. destruct (lock_of w l) as [m|]; [|done].
    destruct (owned_by t m); [|done]. intros [= _ <-].
    apply (num_accounts_set_mutex w l).
  - destruct (lookup_account w i); [|done]. by intros [= _ <-].
  - destruct (lookup_account w i); [|done].
    destruct (in_long v); [|done]. intros [= _ <-].
    apply num_accounts_alter_account.
  - destruct (lookup_account w i); [|done]. by intros [= _ <-].
  - by intros [= _ <-].
  - by intros [= _ <-].
  - by intros [= _ <-].
  - by intros [= _ <-].
  - destruct (in_int _); [|done]. by intros [= _ <-].
  - destruct (in_int _); [|done]. by intros [= _ <-].
  - by intros [= _ <-].
  - destruct (ledger w); [done|]. by intros [= _ <-].
  - destruct (ledger w); [done|]. by intros [= _ <-].
Qed.

Lemma handle_in_bounds {X : Type} t (e : event X) w :
  event_in_bounds (num_accounts w) e → handle t e w ≠ Fault OutOfBounds.
Proof.
  destruct e; cbn.
  - intros [a ->]%lookup_account_is_Some. done.
  - unfold mutex_acquire. destruct l as [i| |]; cbn; [|by repeat case_match..].
    intros [a ->]%lookup_account_is_Some. cbn. by destruct (lock a).
  - unfold mutex_release. destruct l as [i| |]; cbn; [|by repeat case_match..].
    intros [a ->]%lookup_account_is_Some. cbn. by destruct (owned_by t (lock a)).
  - intros [a ->]%lookup_account_is_Some. done.
  - intros [a ->]%lookup_account_is_Some. by destruct (in_long v).
  - intros [a ->]%lookup_account_is_Some. done.
  - done.
  - done.
  - done.
  - done.
  - by destruct (in_int _).
  - by destruct (in_int _).
  - done.
  - by destruct (ledger w).
  - by destruct (ledger w).
Qed.

Lemma run_num_accounts {R : Type} t (p : prog R) w r w' :
  run t p w = Done r w' → num_accounts w' = num_accounts w.
Proof.
  revert w. induction p as [r0|X e k IH]; intros w; cbn.
  - by intros [= _ <-].
  - destruct (handle t e w) as [x w1| |] eqn:He; [|done..].
    intros H%IH. rewrite H. by eapply handle_num_accounts.
Qed.

Lemma run_in_bounds {R : Type} t (p : prog R) w :
  in_bounds (num_accounts w) p → run t p w ≠ Fault OutOfBounds.
Proof.
  revert w. induction p as [r|X e k IH]; intros w; cbn; [done|].
  intros [He Hk].
  pose proof (handle_in_bounds t e w He) as Hh.
  destruct (handle t e w) as [x w1| |] eqn:Hx;
    [|done|intros [= ->]; by destruct Hh].
  apply IH. rewrite (handle_num_accounts _ _ _ _ _ Hx). apply Hk.
Qed.

Ltac in_bounds_tac :=
  repeat first
    [ progress cbn [in_bounds bind trigger event_in_bounds recordSucc
                    recordFail]
    | exact I
    | lia
    | split
    | intros ?
    | case_match ].

Lemma in_bounds_deposit n workerID ledgerID accountID amount :
  0 ≤ accountID < n → in_bounds n (deposit workerID ledgerID accountID amount).
Proof.
  intros Hi. unfold deposit, account_ref, pthread_mutex_lock,
    pthread_mutex_unlock, add_balance, load_balance, store_balance.
  in_bounds_tac.
Qed.

Lemma in_bounds_withdraw n workerID ledgerID accountID amount :
  0 ≤ accountID < n → in_bounds n (withdraw workerID ledgerID accountID amount).
Proof.
  intros Hi. unfold withdraw, account_ref, pthread_mutex_lock,
    pthread_mutex_unlock, sub_balance, load_balance, store_balance.
  in_bounds_tac.
Qed.

Lemma in_bounds_transfer n workerID ledgerID srcID destID amount :
  0 ≤ srcID < n → 0 ≤ destID < n →
  in_bounds n (transfer workerID ledgerID srcID destID amount).
Proof.
  intros Hs Hd. unfold transfer, account_ref, pthread_mutex_lock,
    pthread_mutex_unlock, sub_balance, add_balance, load_balance, store_balance.
  in_bounds_tac.
Qed.

Lemma run_account_ref_out t i w :
  ¬ 0 ≤ i < num_accounts w → run t (account_ref i) w = Fault OutOfBounds.
Proof.
  intros Hi. unfold account_ref. rewrite run_trigger. cbn.
  destruct (lookup_account w i) as [a|] eqn:Ha; [|done].
  by apply lookup_account_Some in Ha.
Qed.

(** C10.  The three operations index [accounts] with the identifiers they
    are given and check no bound: on a bank of [N] accounts, a run ends in
    the out-of-bounds fault exactly when an identifier it was given lies
    outside [[0, N)].  So with every identifier inside [[0, N)] the lookup
    never takes its out-of-bounds branch. *)
Theorem lookup_in_bounds
    (t : tid) (N workerID ledgerID accountID srcID destID amount : Z)
    (w : World) :
  num_accounts w = N →
  (run t (deposit workerID ledgerID accountID amount) w = Fault OutOfBounds
     ↔ ¬ 0 ≤ accountID < N)
  ∧ (run t (withdraw workerID ledgerID accountID amount) w = Fault OutOfBounds
     ↔ ¬ 0 ≤ accountID < N)
  ∧ (run t (transfer workerID ledgerID srcID destID amount) w = Fault OutOfBounds
     ↔ ¬ (0 ≤ srcID < N ∧ 0 ≤ destID < N)).
Proof.
  intros <-. split; [|split]; split.
  - intros H Hi. by apply (run_in_bounds t _ w (in_bounds_deposit _ workerID ledgerID _ amount Hi)).
  - intros Hi. unfold deposit. by rewrite run_bind, run_account_ref_out.
  - intros H Hi. by apply (run_in_bounds t _ w (in_bounds_withdraw _ workerID ledgerID _ amount Hi)).
  - intros Hi. unfold withdraw. by rewrite run_bind, run_account_ref_out.
  - intros H [Hs Hd].
    by apply (run_in_bounds t _ w
                (in_bounds_transfer _ workerID ledgerID _ _ amount Hs Hd)).
  - intros Hi. unfold transfer.
    destruct (decide (0 ≤ srcID < num_accounts w)) as [Hs|Hs].
    + assert (¬ 0 ≤ destID < num_accounts w) as Hd by tauto.
      destruct (lookup_account_is_Some w srcID Hs) as [a Ha].
      rewrite run_bind, run_account_ref by (unfold balance_of; by rewrite Ha).
      by rewrite run_bind, run_account_ref_out.
    + by rewrite run_bind, run_account_ref_out.
Qed.

Lemma lookup_in_bounds_witness :
  (run 0%nat (deposit 1 0 9 5) (world_of bank10 []) = Fault OutOfBounds
     ↔ ¬ 0 ≤ 9 < 10)
  ∧ (run 0%nat (withdraw 1 0 9 5) (world_of bank10 []) = Fault OutOfBounds
     ↔ ¬ 0 ≤ 9 < 10)
  ∧ (run 0%nat (transfer 1 0 3 9 5) (world_of bank10 []) = Fault OutOfBounds
     ↔ ¬ (0 ≤ 3 < 10 ∧ 0 ≤ 9 < 10)).
Proof.
  apply (lookup_in_bounds 0%nat 10 1 0 9 3 9 5 (world_of bank10 [])).
  reflexivity.
Defined.

Example deposit_out_of_bounds :
  run 0%nat (deposit 1 0 10 5) (world_of bank10 []) = Fault OutOfBounds.
Proof. reflexivity. Qed.

(** ** Lock discipline of the three operations *)

Ltac discipline_tac :=
  repeat first
    [ progress cbn [lock_discipline bind trigger acquires_in_order held_after
                    recordSucc recordFail filter list_filter lock_before]
    | rewrite decide_True by (done || congruence)
    | rewrite decide_False by (done || congruence || (intros ?; congruence))
    | exact I
    | done
    | lia
    | split
    | intros ?
    | apply Forall_nil_2
    | apply Forall_cons_2 ].

Lemma deposit_lock_discipline workerID ledgerID accountID amount :
  lock_discipline [] (deposit workerID ledgerID accountID amount) (λ h, h = []).
Proof.
  unfold deposit, account_ref, pthread_mutex_lock, pthread_mutex_unlock,
    add_balance, load_balance, store_balance.
  discipline_tac.
Qed.

Lemma withdraw_lock_discipline workerID ledgerID accountID amount :
  lock_discipline [] (withdraw workerID ledgerID accountID amount) (λ h, h = []).
Proof.
  unfold withdraw, account_ref, pthread_mutex_lock, pthread_mutex_unlock,
    sub_balance, load_balance, store_balance.
  discipline_tac; case_match; discipline_tac.
Qed.

(** A transfer takes its mutexes in ascending order whatever its arguments;
    between two different accounts it returns holding none, from an account
    to itself it returns holding the mutex of that account. *)
Lemma transfer_lock_discipline workerID ledgerID srcID destID amount :
  lock_discipline [] (transfer workerID ledgerID srcID destID amount)
    (λ h, h = if srcID =? destID then [AccLock srcID] else []).
Proof.
  unfold transfer, account_ref, pthread_mutex_lock, pthread_mutex_unlock,
    sub_balance, add_balance, load_balance, store_balance.
  discipline_tac.
  destruct (Z.eqb_spec srcID destID) as [->|Hne]; [discipline_tac|].
  discipline_tac.
  destruct (Z.ltb_spec srcID destID); discipline_tac; case_match; discipline_tac.
Qed.

(** ** The number of accounts never changes *)

Lemma run_ops_num_accounts ops w rs w' :
  run_ops ops w = Done rs w' → num_accounts w' = num_accounts w.
Proof.
  revert w rs. induction ops as [|[t o] ops IH]; intros w rs H.
  - cbn in H. by injection H as _ <-.
  - apply run_ops_cons_inv in H as (r & w1 & rs' & H1 & H2 & _).
    rewrite (IH _ _ H2). by eapply run_num_accounts.
Qed.

(** Every world reached from [Bank_new N] has [N] accounts. *)
Lemma reachable_num_accounts N b0 l ops rs w' :
  Bank_new N = Some b0 →
  run_ops ops (world_of b0 l) = Done rs w' → num_accounts w' = N.
Proof.
  intros Hnew H. rewrite (run_ops_num_accounts _ _ _ _ H).
  by apply Bank_new_num_accounts.
Qed.

(** ** A mutex that stays held *)

(** Any operation on an account whose mutex is held waits. *)
Lemma deposit_blocks t t' workerID ledgerID accountID amount w :
  lock_of w (AccLock accountID) = Some (Some t') →
  run t (deposit workerID ledgerID accountID amount) w = Blocked.
Proof.
  intros Hl. unfold deposit.
  assert (is_Some (balance_of w accountID)) as Hs.
  { cbn in Hl. unfold balance_of. by destruct (lookup_account w accountID). }
  rewrite run_bind, run_account_ref by done.
  by rewrite run_bind, (run_lock_held _ _ _ t').
Qed.

Lemma withdraw_blocks t t' workerID ledgerID accountID amount w :
  lock_of w (AccLock accountID) = Some (Some t') →
  run t (withdraw workerID ledgerID accountID amount) w = Blocked.
Proof.
  intros Hl. unfold withdraw.
  assert (is_Some (balance_of w accountID)) as Hs.
  { cbn in Hl. unfold balance_of. by destruct (lookup_account w accountID). }
  rewrite run_bind, run_account_ref by done.
  by rewrite run_bind, (run_lock_held _ _ _ t').
Qed.

(** X18.  After a transfer from an account to itself has returned, by
    whatever thread, every later deposit into that account and every later
    withdraw from it, by that thread or another, waits for the mutex of the
    account: the transfer returned without releasing it. *)
Theorem self_transfer_leaves_account_locked
    t t' workerID ledgerID srcID amount w w' r :
  run t (transfer workerID ledgerID srcID srcID amount) w = Done r w' →
  (∀ workerID' ledgerID' amount',
     run t' (deposit workerID' ledgerID' srcID amount') w' = Blocked)
  ∧ (∀ workerID' ledgerID' amount',
     run t' (withdraw workerID' ledgerID' srcID amount') w' = Blocked).
Proof.
  intros H.
  destruct (transfer_inv _ _ _ _ _ _ _ _ _ H) as [[_ Hl]|[Hne _]]; [|done].
  destruct (self_transfer_effect t workerID ledgerID srcID amount w Hl)
    as (w1 & Hrun & _ & Hheld & _).
  rewrite Hrun in H. injection H as _ <-.
  split; intros; [by eapply deposit_blocks|by eapply withdraw_blocks].
Qed.

Lemma self_transfer_leaves_account_locked_witness :
  ∃ r w',
    run 0%nat (transfer 7 0 2 2 10) (world_of bank10 []) = Done r w'
    ∧ (∀ workerID' ledgerID' amount',
         run 1%nat (deposit workerID' ledgerID' 2 amount') w' = Blocked)
    ∧ (∀ workerID' ledgerID' amount',
         run 1%nat (withdraw workerID' ledgerID' 2 amount') w' = Blocked).
Proof.
  destruct (run 0%nat (transfer 7 0 2 2 10) (world_of bank10 []))
    as [r w'| |] eqn:H; [|by vm_compute in H..].
  exists r, w'. split; [reflexivity|].
  exact (self_transfer_leaves_account_locked 0%nat 1%nat 7 0 2 10
           (world_of bank10 []) w' r H).
Defined.

(** ** The final report *)

Example print_account_sample :
  ∃ w', run 2%nat print_account
          (world_of (mkBank 2 2 1 None (accounts (bank_with [50; 50]))) [])
        = Done tt w'
        ∧ cout w' = ["ID# 0 | 50"; "ID# 1 | 50"; "Success: 2 Fails: 1"]%string.
Proof. eexists. split; [vm_compute; reflexivity|reflexivity]. Qed.

(** [print_account] takes the mutex of every account in turn: after a
    self-transfer by a worker, the report that [InitBank] prints once the
    workers are joined never gets past that account. *)
Lemma print_account_blocks_after_self_transfer :
  ∃ w',
    after_schedule 1 [mkLedger 0 0 5 T 0] (replicate 11 0%nat)
    = Some ([Returned], w')
    ∧ run 1%nat print_account w' = Blocked.
Proof.
  eexists. split; [vm_compute; reflexivity|].
  vm_compute. reflexivity.
Qed.

(** ** The report of [print_account] *)

Lemma set_lock_restore (a : Account) m :
  lock a = None → set_lock None (set_lock m a) = a.
Proof. destruct a as [i b l]. cbn. by intros ->. Qed.

Lemma bank_eta (b : Bank) :
  mkBank (num b) (num_succ b) (num_fail b) (bank_lock b) (accounts b) = b.
Proof. by destruct b. Qed.

(** Taking and giving back a free account mutex leaves the bank as it was. *)
Lemma bank_lock_cycle t i a w w1 :
  lookup_account w i = Some a → lock a = None →
  bank w1 = bank (acquired t (AccLock i) w) →
  bank (released t (AccLock i) w1) = bank w.
Proof.
  intros Ha Hl Hw1. unfold released, acquired in *. cbn in *.
  unfold alter_account in *. unfold lookup_account in Ha.
  destruct (i <? 0) eqn:Hi; [done|]. cbn in *. rewrite Hw1. cbn.
  unfold with_accounts. cbn. rewrite <- (bank_eta (bank w)) at 6. f_equal.
  rewrite list_alter_alter_eq. apply list_eq. intros j.
  rewrite list_lookup_alter. case_decide; [|done]. subst j.
  rewrite Ha. cbn. by rewrite set_lock_restore.
Qed.

Lemma run_print_account_line t i a w :
  lookup_account w i = Some a → lock a = None →
  run t (print_account_line i) w
  = Done tt (released t (AccLock i)
               (with_cout (cout w ++ [account_line a])
                  (acquired t (AccLock i) w))).
Proof.
  intros Ha Hl. unfold print_account_line.
  assert (lock_of w (AccLock i) = Some None) as Hlk.
  { cbn. by rewrite Ha, <- Hl. }
  assert (balance_of w i = Some (balance a)) as Hb.
  { unfold balance_of. by rewrite Ha. }
  rewrite run_bind, run_lock by done.
  rewrite run_bind, run_trigger. cbn [handle].
  assert (lookup_account (acquired t (AccLock i) w) i
          = Some (set_lock (Some t) a)) as Ha'.
  { unfold acquired. cbn [set_mutex].
    change (lookup_account (log_lock ?o ?w0) i) with (lookup_account w0 i).
    rewrite lookup_account_alter, decide_True by done. by rewrite Ha. }
  rewrite Ha'. cbn [accountID set_lock].
  rewrite run_bind, (run_load _ _ _ (balance a)) by wsolve.
  rewrite run_bind, run_trigger. cbn [handle].
  rewrite run_unlock by wsolve.
  replace (cout (acquired t (AccLock i) w)) with (cout w); [done|].
  unfold acquired. cbn. by rewrite cout_alter_account.
Qed.

Lemma print_account_line_world t i a w :
  lookup_account w i = Some a → lock a = None →
  let w' := released t (AccLock i)
              (with_cout (cout w ++ [account_line a])
                 (acquired t (AccLock i) w)) in
  bank w' = bank w ∧ ledger w' = ledger w ∧ ledger_lock w' = ledger_lock w
  ∧ cout w' = cout w ++ [account_line a].
Proof.
  intros Ha Hl w'. subst w'. split; [by apply (bank_lock_cycle t i a w)|].
  repeat split; unfold released, acquired, set_mutex;
    repeat first
      [ progress cbn [ledger ledger_lock cout log_lock with_cout]
      | rewrite ledger_alter_account
      | rewrite ledger_lock_alter_account
      | rewrite cout_alter_account ]; done.
Qed.

Lemma lookup_account_bank w1 w2 i :
  bank w1 = bank w2 → lookup_account w1 i = lookup_account w2 i.
Proof. unfold lookup_account. by intros ->. Qed.

Lemma run_print_account_loop t count i w :
  0 ≤ i →
  (Z.to_nat i + count ≤ length (accounts (bank w)))%nat →
  Forall (λ a, lock a = None) (accounts (bank w)) →
  ∃ w',
    run t (print_account_loop i count) w = Done tt w'
    ∧ bank w' = bank w ∧ ledger w' = ledger w ∧ ledger_lock w' = ledger_lock w
    ∧ cout w' = cout w ++
        (account_line <$> take count (drop (Z.to_nat i) (accounts (bank w)))).
Proof.
  revert i w. induction count as [|c IH]; intros i w Hi Hlen Hfree.
  - exists w. cbn. by rewrite app_nil_r.
  - destruct (lookup_lt_is_Some_2 (accounts (bank w)) (Z.to_nat i)) as [a Ha];
      [lia|].
    assert (lookup_account w i = Some a) as Hacc.
    { unfold lookup_account. by rewrite (proj2 (Z.ltb_ge i 0)) by lia. }
    assert (lock a = None) as Hl.
    { rewrite Forall_lookup in Hfree. by apply (Hfree _ _ Ha). }
    destruct (print_account_line_world t i a w Hacc Hl)
      as (Hb1 & Hled1 & Hll1 & Hc1).
    set (w1 := released t (AccLock i)
                 (with_cout (cout w ++ [account_line a])
                    (acquired t (AccLock i) w))) in *.
    destruct (IH (i + 1) w1) as (w' & Hrun & Hb & Hled & Hll & Hc).
    { lia. }
    { rewrite Hb1. lia. }
    { by rewrite Hb1. }
    exists w'. cbn [print_account_loop].
    rewrite run_bind, (run_print_account_line t i a w Hacc Hl).
    fold w1. rewrite Hrun. split; [done|].
    rewrite Hb, Hb1, Hled, Hled1, Hll, Hll1, Hc, Hc1.
    split; [reflexivity|]. split; [reflexivity|]. split; [reflexivity|].
    rewrite Hb1. rewrite (drop_S _ _ _ Ha). cbn [take fmap list_fmap].
    replace (Z.to_nat (i + 1)) with (S (Z.to_nat i)) by lia.
    by rewrite <- app_assoc.
Qed.

Lemma print_account_line_inv t i w x w' :
  run t (print_account_line i) w = Done x w' →
  ∃ a, lookup_account w i = Some a ∧ lock a = None.
Proof.
  unfold print_account_line. intros H.
  apply run_bind_inv in H as (? & w1 & H1 & _).
  apply run_lock_inv in H1 as [Hl _]. cbn in Hl.
  destruct (lookup_account w i) as [a|]; [|done].
  exists a. split; [done|]. cbn in Hl. by injection Hl.
Qed.

Lemma print_account_loop_inv t count i w x w' :
  0 ≤ i →
  run t (print_account_loop i count) w = Done x w' →
  bank w' = bank w
  ∧ ∀ k, i ≤ k < i + Z.of_nat count →
         ∃ a, lookup_account w k = Some a ∧ lock a = None.
Proof.
  revert i w. induction count as [|c IH]; intros i w Hi H.
  - cbn in H. injection H as _ <-. split; [done|]. intros k Hk. lia.
  - cbn [print_account_loop] in H.
    apply run_bind_inv in H as (? & w1 & H1 & H).
    destruct (print_account_line_inv _ _ _ _ _ H1) as (a & Ha & Hl).
    rewrite (run_print_account_line t i a w Ha Hl) in H1.
    simplify_eq.
    destruct (print_account_line_world t i a w Ha Hl) as (Hb1 & _).
    apply IH in H as [Hb Hall]; [|lia].
    split; [rewrite Hb; exact Hb1|].
    intros k Hk. destruct (decide (k = i)) as [->|Hne]; [by exists a|].
    destruct (Hall k) as (a' & Ha' & Hl'); [lia|].
    exists a'. split; [|done].
    by rewrite <- (lookup_account_bank _ _ k Hb1).
Qed.

(** [print_account] with every mutex it takes free. *)
Lemma run_print_account (t : tid) (w : World) :
  num (bank w) = num_accounts w →
  Forall (λ a, lock a = None) (accounts (bank w)) →
  bank_lock (bank w) = None →
  ∃ w',
    run t print_account w = Done tt w'
    ∧ cout w' = cout w ++ report w
    ∧ bank w' = bank w
    ∧ ledger w' = ledger w
    ∧ ledger_lock w' = ledger_lock w.
Proof.
  intros Hnum Hfree Hbl. unfold print_account.
  rewrite run_bind, run_trigger. cbn [handle].
  rewrite Hnum. unfold num_accounts. rewrite Nat2Z.id.
  destruct (run_print_account_loop t (length (accounts (bank w))) 0 w)
    as (w1 & Hrun & Hb & Hled & Hll & Hc); [lia|cbn; lia|done|].
  rewrite run_bind, Hrun.
  assert (lock_of w1 BankLock = Some None) as Hlk.
  { cbn. by rewrite Hb, Hbl. }
  rewrite run_bind, run_lock by done.
  rewrite run_bind, run_trigger. cbn [handle].
  rewrite run_bind, run_trigger. cbn [handle].
  rewrite run_bind, run_trigger. cbn [handle].
  rewrite run_unlock by (cbn; by rewrite Nat.eqb_refl || done).
  eexists. split; [done|].
  cbn in Hc. rewrite drop_0, firstn_all in Hc.
  unfold released, acquired, report. cbn.
  rewrite Hc, Hb, Hled, Hll, <- app_assoc.
  repeat split; try done.
  destruct (bank w) as [n s f l accs]. cbn in *. by subst l.
Qed.

(** X1.  [print_account] on a bank at rest (every account mutex and
    [bank_lock] free, [num] the number of accounts) returns after printing
    one line ["ID# <accountID> | <balance>"] per account, by ascending index,
    and then ["Success: <num_succ> Fails: <num_fail>"]; it leaves the bank
    and the ledger exactly as they were. *)
Theorem print_account_report (t : tid) (w : World) :
  num (bank w) = num_accounts w →
  Forall (λ a, lock a = None) (accounts (bank w)) →
  bank_lock (bank w) = None →
  ∃ w',
    run t print_account w = Done tt w'
    ∧ cout w' = cout w ++ report w
    ∧ bank w' = bank w
    ∧ ledger w' = ledger w
    ∧ ledger_lock w' = ledger_lock w.
Proof. apply run_print_account. Qed.

Lemma print_account_report_witness :
  num (bank (world_of (bank_with [50; 70]) [])) 
  = num_accounts (world_of (bank_with [50; 70]) [])
  ∧ Forall (λ a, lock a = None) (accounts (bank (world_of (bank_with [50; 70]) [])))
  ∧ bank_lock (bank (world_of (bank_with [50; 70]) [])) = None
  ∧ ∃ w',
      run 2%nat print_account (world_of (bank_with [50; 70]) []) = Done tt w'
      ∧ cout w' = cout (world_of (bank_with [50; 70]) [])
                  ++ report (world_of (bank_with [50; 70]) [])
      ∧ bank w' = bank (world_of (bank_with [50; 70]) [])
      ∧ ledger w' = ledger (world_of (bank_with [50; 70]) [])
      ∧ ledger_lock w' = ledger_lock (world_of (bank_with [50; 70]) []).
Proof.
  assert (num (bank (world_of (bank_with [50; 70]) []))
          = num_accounts (world_of (bank_with [50; 70]) [])) as H1
    by reflexivity.
  assert (Forall (λ a, lock a = None)
            (accounts (bank (world_of (bank_with [50; 70]) [])))) as H2.
  { cbn. repeat constructor. }
  assert (bank_lock (bank (world_of (bank_with [50; 70]) [])) = None) as H3
    by reflexivity.
  split; [exact H1|]. split; [exact H2|]. split; [exact H3|].
  exact (print_account_report 2%nat (world_of (bank_with [50; 70]) []) H1 H2 H3).
Defined.

Example report_sample :
  report (world_of (bank_with [50; 70]) [])
  = ["ID# 0 | 50"; "ID# 1 | 70"; "Success: 0 Fails: 0"]%string.
Proof. reflexivity. Qed.

(** X2.  [print_account] returns only if [bank_lock] and the mutex of every
    account below [num] were free when it started: while any of them is
    held (as after a transfer from an account to itself) the report never
    completes. *)
Theorem print_account_needs_free_mutexes
    (t : tid) (w w' : World) (x : unit) :
  run t print_account w = Done x w' →
  bank_lock (bank w) = None
  ∧ ∀ i, 0 ≤ i < num (bank w) → lock_of w (AccLock i) = Some None.
Proof.
  unfold print_account. intros H.
  apply run_bind_inv in H as (n & w0 & H0 & H).
  rewrite run_trigger in H0. cbn [handle] in H0. simplify_eq.
  apply run_bind_inv in H as (? & w1 & H1 & H).
  apply print_account_loop_inv in H1 as [Hb Hall]; [|lia].
  apply run_bind_inv in H as (? & w2 & H2 & _).
  apply run_lock_inv in H2 as [Hl _]. cbn in Hl. rewrite Hb in Hl.
  split; [by injection Hl|].
  intros i Hi. destruct (Hall i) as (a & Ha & Hla); [lia|].
  cbn. by rewrite Ha, <- Hla.
Qed.

Lemma print_account_needs_free_mutexes_witness :
  ∃ w',
    run 2%nat print_account (world_of (bank_with [50; 70]) []) = Done tt w'
    ∧ bank_lock (bank (world_of (bank_with [50; 70]) [])) = None
    ∧ ∀ i, 0 ≤ i < num (bank (world_of (bank_with [50; 70]) [])) →
           lock_of (world_of (bank_with [50; 70]) []) (AccLock i) = Some None.
Proof.
  destruct (run 2%nat print_account (world_of (bank_with [50; 70]) []))
    as [[] w'| |] eqn:Hrun; [|by vm_compute in Hrun..].
  exists w'. split; [reflexivity|].
  exact (print_account_needs_free_mutexes 2%nat _ w' tt Hrun).
Defined.

(** ** Mutexes: order, number, and what they protect *)

(** X3.  Each of the three operations takes its mutexes in one order,
    account mutexes by ascending index and [bank_lock] last; [deposit],
    [withdraw] and a [transfer] between two different accounts return
    holding none, a [transfer] from an account to itself returns holding the
    mutex of that account. *)
Theorem operations_lock_order (workerID ledgerID accountID srcID destID amount : Z) :
  lock_discipline [] (deposit workerID ledgerID accountID amount) (λ h, h = [])
  ∧ lock_discipline [] (withdraw workerID ledgerID accountID amount) (λ h, h = [])
  ∧ lock_discipline [] (transfer workerID ledgerID srcID destID amount)
      (λ h, h = if srcID =? destID then [AccLock srcID] else []).
Proof.
  split; [|split].
  - apply deposit_lock_discipline.
  - apply withdraw_lock_discipline.
  - apply transfer_lock_discipline.
Qed.

Lemma locks_bounded_bind {A B : Type} n held (p : prog A) (f : A → prog B)
    (Q' Q : list lockid → Prop) :
  locks_bounded n held p Q' →
  (∀ x h, Q' h → locks_bounded n h (f x) Q) →
  locks_bounded n held (bind p f) Q.
Proof.
  revert held. induction p as [r|X e k IH]; intros held Hp Hf; cbn in *.
  - by apply Hf.
  - destruct Hp as [Hlen Hk]. split; [done|]. intros x. by apply IH.
Qed.

Ltac bounded_tac :=
  repeat first
    [ progress cbn [locks_bounded guarded event_lock bind trigger held_after
                    recordSucc recordFail filter list_filter length]
    | rewrite decide_True by (done || congruence)
    | rewrite decide_False by (done || congruence || (intros ?; congruence))
    | exact I
    | done
    | lia
    | split
    | intros ? ].

Lemma print_account_line_bounded i :
  locks_bounded 1 [] (print_account_line i) (λ h, h = []).
Proof.
  unfold print_account_line, pthread_mutex_lock, pthread_mutex_unlock,
    load_balance.
  bounded_tac.
Qed.

Lemma print_account_loop_bounded i count :
  locks_bounded 1 [] (print_account_loop i count) (λ h, h = []).
Proof.
  revert i. induction count as [|c IH]; intros i; [done|].
  cbn [print_account_loop].
  eapply locks_bounded_bind; [apply print_account_line_bounded|].
  intros _ h ->. apply IH.
Qed.

(** X4.  [print_account] never holds two mutexes at once; [deposit] and
    [withdraw] hold at most two (the account, then [bank_lock]); [transfer]
    holds at most three (two accounts, then [bank_lock]). *)
Theorem mutexes_held_at_once (workerID ledgerID accountID srcID destID amount : Z) :
  locks_bounded 1 [] print_account (λ h, h = [])
  ∧ locks_bounded 2 [] (deposit workerID ledgerID accountID amount) (λ h, h = [])
  ∧ locks_bounded 2 [] (withdraw workerID ledgerID accountID amount) (λ h, h = [])
  ∧ locks_bounded 3 [] (transfer workerID ledgerID srcID destID amount)
      (λ h, length h ≤ 1)%nat.
Proof.
  split; [|split; [|split]].
  - unfold print_account. cbn [bind trigger locks_bounded held_after length].
    split; [lia|]. intros n.
    eapply locks_bounded_bind; [apply print_account_loop_bounded|].
    intros _ h ->. unfold pthread_mutex_lock, pthread_mutex_unlock.
    bounded_tac.
  - unfold deposit, account_ref, pthread_mutex_lock, pthread_mutex_unlock,
      add_balance, load_balance, store_balance.
    bounded_tac.
  - unfold withdraw, account_ref, pthread_mutex_lock, pthread_mutex_unlock,
      sub_balance, load_balance, store_balance.
    bounded_tac; case_match; bounded_tac.
  - unfold transfer, account_ref, pthread_mutex_lock, pthread_mutex_unlock,
      sub_balance, add_balance, load_balance, store_balance.
    bounded_tac.
    destruct (Z.eqb_spec srcID destID) as [->|Hne]; [bounded_tac|].
    destruct (Z.ltb_spec srcID destID); bounded_tac; case_match; bounded_tac.
Qed.

Ltac guarded_tac :=
  repeat first
    [ progress cbn [guarded event_lock bind trigger held_after
                    recordSucc recordFail filter list_filter]
    | rewrite decide_True by (done || congruence)
    | rewrite decide_False by (done || congruence || (intros ?; congruence))
    | exact I
    | split
    | match goal with
      | |- ∀ l, None = Some l → _ => intros ? [=]
      | |- ∀ l, Some _ = Some l → _ => intros ? [= <-]; by repeat constructor
      end
    | intros ? ].

(** X5.  In [deposit], [withdraw] and [transfer] every read and write of a
    balance is made while the mutex of that account is held, and every
    counter update and every printed line while [bank_lock] is held. *)
Theorem operations_guarded (workerID ledgerID accountID srcID destID amount : Z) :
  guarded [] (deposit workerID ledgerID accountID amount)
  ∧ guarded [] (withdraw workerID ledgerID accountID amount)
  ∧ guarded [] (transfer workerID ledgerID srcID destID amount).
Proof.
  split; [|split].
  - unfold deposit, account_ref, pthread_mutex_lock, pthread_mutex_unlock,
      add_balance, load_balance, store_balance.
    guarded_tac.
  - unfold withdraw, account_ref, pthread_mutex_lock, pthread_mutex_unlock,
      sub_balance, load_balance, store_balance.
    guarded_tac; case_match; guarded_tac.
  - unfold transfer, account_ref, pthread_mutex_lock, pthread_mutex_unlock,
      sub_balance, add_balance, load_balance, store_balance.
    guarded_tac.
    destruct (Z.eqb_spec srcID destID) as [->|Hne]; [guarded_tac|].
    destruct (Z.ltb_spec srcID destID); guarded_tac; case_match; guarded_tac.
Qed.

(** ** What every finished operation has done *)

Lemma balances_alter_lock m i w :
  balances (alter_account (set_lock m) i w) = balances w.
Proof.
  unfold balances, alter_account. destruct (i <? 0); [done|]. cbn.
  apply list_eq. intros j. rewrite !list_lookup_fmap, list_lookup_alter.
  case_decide; [|done]. subst. by destruct (accounts (bank w) !! Z.to_nat i).
Qed.

Lemma balances_set_mutex l m w : balances (set_mutex l m w) = balances w.
Proof. destruct l; [apply balances_alter_lock|done..]. Qed.

Lemma total_app l1 l2 : total (l1 ++ l2) = total l1 + total l2.
Proof. induction l1 as [|x l1 IH]; cbn; [done|]. rewrite IH. lia. Qed.

Lemma total_balances_stored i v b w :
  balance_of w i = Some b →
  total (balances (stored i v w)) = total (balances w) - b + v.
Proof.
  unfold balance_of, lookup_account, stored, alter_account, balances.
  destruct (i <? 0); [done|]. cbn.
  destruct (accounts (bank w) !! Z.to_nat i) as [a|] eqn:Ha; [|done].
  intros [= <-].
  rewrite <- (take_drop_middle _ _ _ Ha) at 2.
  assert (alter (set_balance v) (Z.to_nat i) (accounts (bank w))
          = take (Z.to_nat i) (accounts (bank w)) ++ set_balance v a
            :: drop (S (Z.to_nat i)) (accounts (bank w))) as ->.
  { apply list_eq. intros j. rewrite list_lookup_alter.
    pose proof (lookup_lt_Some _ _ _ Ha) as Hlt.
    destruct (decide (j < Z.to_nat i)%nat) as [Hj|Hj].
    - rewrite decide_False by lia.
      rewrite lookup_app_l by (rewrite length_take; lia).
      by rewrite lookup_take_lt by lia.
    - rewrite lookup_app_r by (rewrite length_take; lia).
      rewrite length_take, Nat.min_l by lia.
      case_decide.
      + subst. rewrite Nat.sub_diag. cbn. by rewrite Ha.
      + destruct (j - Z.to_nat i)%nat as [|k] eqn:Hk; [lia|]. cbn.
        change (accounts (bank w) !! j
                = drop (S (Z.to_nat i)) (accounts (bank w)) !! k).
        rewrite lookup_drop. f_equal. lia. }
  rewrite !fmap_app, !fmap_cons, !total_app. cbn. lia.
Qed.

Lemma balances_acquired t l w : balances (acquired t l w) = balances w.
Proof. apply (balances_set_mutex l (Some t) w). Qed.

Lemma balances_released t l w : balances (released t l w) = balances w.
Proof. apply (balances_set_mutex l None w). Qed.

Lemma balances_recorded_succ t m w : balances (recorded_succ t m w) = balances w.
Proof. done. Qed.

Lemma balances_recorded_fail t m w : balances (recorded_fail t m w) = balances w.
Proof. done. Qed.

Lemma balances_transfer_locked t s d w :
  balances (transfer_locked t s d w) = balances w.
Proof.
  unfold transfer_locked. destruct (s <? d);
    by rewrite !balances_acquired, balances_released, balances_acquired.
Qed.

Lemma balances_transfer_unlocked t s d w :
  balances (transfer_unlocked t s d w) = balances w.
Proof.
  unfold transfer_unlocked. destruct (s <? d); by rewrite !balances_released.
Qed.

Lemma balance_of_transfer_locked t s d w j :
  balance_of (transfer_locked t s d w) j = balance_of w j.
Proof. unfold transfer_locked. destruct (s <? d); by wsimpl. Qed.

(** The sum of all balances after one finished operation. *)
Lemma op_conserves t o w r w' :
  run t (op_prog o) w = Done r w' →
  total (balances w') = total (balances w) + op_net o r.
Proof.
  intros H.
  destruct o as [workerID ledgerID i a|workerID ledgerID i a
                |workerID ledgerID src dst a]; cbn [op_prog op_net] in *.
  - destruct (deposit_inv _ _ _ _ _ _ _ _ H) as (b & Hb & Hl & Hbl & Hv & Hn).
    rewrite (run_deposit _ _ _ _ _ b) in H by done. simplify_eq.
    rewrite balances_released, balances_recorded_succ.
    rewrite (total_balances_stored _ _ b) by wsolve.
    rewrite balances_acquired. lia.
  - destruct (withdraw_inv _ _ _ _ _ _ _ _ H)
      as (b & Hb & Hl & Hbl & [(Hle & Hv & Hn)|(Hlt & Hn)]).
    + rewrite (run_withdraw_ok _ _ _ _ _ b) in H by done. simplify_eq.
      rewrite balances_released, balances_recorded_succ.
      rewrite (total_balances_stored _ _ b) by wsolve.
      rewrite balances_acquired. cbn. lia.
    + rewrite (run_withdraw_insufficient _ _ _ _ _ b) in H by done.
      simplify_eq.
      rewrite balances_released, balances_recorded_fail, balances_acquired.
      cbn. lia.
  - destruct (transfer_inv _ _ _ _ _ _ _ _ _ H)
      as [[<- Hl]|(Hne & s & d & Hs & Hd & Hls & Hld & Hbl
                   & [(Hle & Hvs & Hvd & Hn)|(Hlt & Hn)])].
    + rewrite run_transfer_self in H by done. simplify_eq.
      rewrite balances_acquired. lia.
    + rewrite (run_transfer_ok _ _ _ _ _ _ s d) in H by done. simplify_eq.
      rewrite balances_transfer_unlocked, balances_recorded_succ.
      rewrite (total_balances_stored _ _ d).
      2:{ unfold stored. rewrite balance_of_store, decide_False by done.
          by rewrite balance_of_transfer_locked. }
      rewrite (total_balances_stored _ _ s)
        by (by rewrite balance_of_transfer_locked).
      rewrite balances_transfer_locked. lia.
    + rewrite (run_transfer_insufficient _ _ _ _ _ _ s) in H
        by (done || by rewrite Hd).
      simplify_eq.
      rewrite balances_transfer_unlocked, balances_recorded_fail,
        balances_transfer_locked. lia.
Qed.

(** X7.  Over any finished sequence of operations the sum of all balances
    changes by exactly the amounts deposited minus the amounts of the
    withdraws that returned 0; transfers, whatever they return, and failed
    withdraws leave the sum as it is. *)
Theorem money_is_conserved
    (ops : list (tid * op)) (w : World) (rs : list Z) (w' : World) :
  run_ops ops w = Done rs w' →
  total (balances w') = total (balances w) + ops_net ops rs.
Proof.
  revert w rs. induction ops as [|[t o] ops IH]; intros w rs H.
  - cbn in H. simplify_eq. cbn. lia.
  - apply run_ops_cons_inv in H as (r & w1 & rs' & H1 & H2 & ->).
    rewrite (IH _ _ H2), (op_conserves _ _ _ _ _ H1). cbn. lia.
Qed.

Lemma money_is_conserved_witness :
  run_ops sample_ops (world_of bank10 []) = Done [0; -1; 0; -1] sample_world
  ∧ total (balances sample_world)
    = total (balances (world_of bank10 [])) + ops_net sample_ops [0; -1; 0; -1].
Proof.
  assert (run_ops sample_ops (world_of bank10 [])
          = Done [0; -1; 0; -1] sample_world) as H.
  { vm_compute. reflexivity. }
  split; [exact H|].
  exact (money_is_conserved sample_ops (world_of bank10 []) [0; -1; 0; -1]
           sample_world H).
Defined.

(** X6.  Whenever an operation returns, it returns 0 or -1 (a deposit always
    0); [num_succ] has grown by one exactly when it returned 0; [num_fail]
    has grown by one exactly when it returned -1 and was not a transfer from
    an account to itself; and it has printed exactly one line, with
    [[ SUCCESS ]] for 0 and [[ FAIL ]] for -1, except that the self-transfer
    prints none. *)
Theorem finished_operation_outcome
    (t : tid) (o : op) (w : World) (r : Z) (w' : World) :
  run t (op_prog o) w = Done r w' →
  (r = 0 ∨ r = -1)
  ∧ match o with Deposit _ _ _ _ => r = 0 | _ => True end
  ∧ num_succ (bank w') = num_succ (bank w) + (if r =? 0 then 1 else 0)
  ∧ num_fail (bank w') = num_fail (bank w) + (if r =? 0 then 0 else recorded o)
  ∧ cout w' = cout w ++ op_message o r.
Proof.
  intros H.
  destruct o as [workerID ledgerID i a|workerID ledgerID i a
                |workerID ledgerID src dst a];
    cbn [op_prog op_message recorded] in *.
  - destruct (deposit_inv _ _ _ _ _ _ _ _ H) as (b & Hb & Hl & Hbl & Hv & Hn).
    rewrite (run_deposit _ _ _ _ _ b) in H by done. simplify_eq.
    cbn [Z.eqb]. repeat split; try (by left); wsolve; lia.
  - destruct (withdraw_inv _ _ _ _ _ _ _ _ H)
      as (b & Hb & Hl & Hbl & [(Hle & Hv & Hn)|(Hlt & Hn)]).
    + rewrite (run_withdraw_ok _ _ _ _ _ b) in H by done. simplify_eq.
      cbn [Z.eqb]. repeat split; try (by left); wsolve; lia.
    + rewrite (run_withdraw_insufficient _ _ _ _ _ b) in H by done.
      simplify_eq.
      cbn [Z.eqb]. repeat split; try (by right); wsolve; lia.
  - destruct (transfer_inv _ _ _ _ _ _ _ _ _ H)
      as [[<- Hl]|(Hne & s & d & Hs & Hd & Hls & Hld & Hbl
                   & [(Hle & Hvs & Hvd & Hn)|(Hlt & Hn)])].
    + rewrite run_transfer_self in H by done. simplify_eq.
      rewrite Z.eqb_refl. cbn [Z.eqb].
      repeat split; try (by right); wsolve; try lia. by rewrite app_nil_r.
    + rewrite (run_transfer_ok _ _ _ _ _ _ s d) in H by done. simplify_eq.
      rewrite (proj2 (Z.eqb_neq src dst)) by done. cbn [Z.eqb].
      unfold transfer_unlocked, transfer_locked.
      destruct (src <? dst); repeat split; try (by left); wsolve; lia.
    + rewrite (run_transfer_insufficient _ _ _ _ _ _ s) in H
        by (done || by rewrite Hd).
      simplify_eq.
      rewrite (proj2 (Z.eqb_neq src dst)) by done. cbn [Z.eqb].
      unfold transfer_unlocked, transfer_locked.
      destruct (src <? dst); repeat split; try (by right); wsolve; lia.
Qed.

Lemma finished_operation_outcome_witness :
  ∃ w',
    run 0%nat (op_prog (Withdraw 1 0 0 150)) (world_of (bank_with [100; 0]) [])
    = Done (-1) w'
    ∧ (-1 = 0 ∨ -1 = -1)
    ∧ True
    ∧ num_succ (bank w')
      = num_succ (bank (world_of (bank_with [100; 0]) []))
        + (if -1 =? 0 then 1 else 0)
    ∧ num_fail (bank w')
      = num_fail (bank (world_of (bank_with [100; 0]) []))
        + (if -1 =? 0 then 0 else recorded (Withdraw 1 0 0 150))
    ∧ cout w' = cout (world_of (bank_with [100; 0]) [])
                ++ op_message (Withdraw 1 0 0 150) (-1).
Proof.
  assert (∃ w', run 0%nat (op_prog (Withdraw 1 0 0 150))
                  (world_of (bank_with [100; 0]) []) = Done (-1) w')
    as [w' H].
  { eexists. vm_compute. reflexivity. }
  exists w'. split; [exact H|].
  exact (finished_operation_outcome 0%nat (Withdraw 1 0 0 150)
           (world_of (bank_with [100; 0]) []) (-1) w' H).
Defined.

(** ** The constructor *)

(** X8.  [Bank(N)] for [0 <= N <= INT_MAX] builds exactly [N] accounts:
    account [i] carries identifier [i], balance 0 and a free mutex, and there
    is no account at any index outside [[0, N)]; both counters are 0 and
    [bank_lock] is free. *)
Theorem new_bank_accounts (N : Z) (l : list Ledger) :
  0 ≤ N ≤ INT_MAX →
  ∃ b0,
    Bank_new N = Some b0
    ∧ num b0 = N ∧ num_succ b0 = 0 ∧ num_fail b0 = 0 ∧ bank_lock b0 = None
    ∧ num_accounts (world_of b0 l) = N
    ∧ ∀ i, lookup_account (world_of b0 l) i
           = if decide (0 ≤ i < N) then Some (mkAccount i 0 None) else None.
Proof.
  intros [H0 Hmax]. unfold Bank_new.
  rewrite (proj2 (Z.ltb_ge N 0)) by done.
  eexists. split; [done|]. cbn [num num_succ num_fail bank_lock].
  do 4 (split; [done|]).
  assert (num_accounts
            (world_of (mkBank N 0 0 None (new_accounts (Z.to_nat N))) l) = N)
    as Hn.
  { unfold num_accounts, new_accounts. cbn.
    rewrite length_fmap, length_seq. lia. }
  split; [done|]. intros i. case_decide as Hi.
  - unfold lookup_account. cbn.
    rewrite (proj2 (Z.ltb_ge i 0)) by lia.
    rewrite lookup_new_accounts by lia.
    unfold to_unsigned. rewrite Z.mod_small; [done|].
    unfold INT_MAX in Hmax. lia.
  - destruct (lookup_account _ i) as [a|] eqn:Ha; [|done].
    apply lookup_account_Some in Ha. rewrite Hn in Ha. lia.
Qed.

Lemma new_bank_accounts_witness :
  0 ≤ 10 ≤ INT_MAX
  ∧ ∃ b0,
      Bank_new 10 = Some b0
      ∧ num b0 = 10 ∧ num_succ b0 = 0 ∧ num_fail b0 = 0 ∧ bank_lock b0 = None
      ∧ num_accounts (world_of b0 []) = 10
      ∧ ∀ i, lookup_account (world_of b0 []) i
             = if decide (0 ≤ i < 10) then Some (mkAccount i 0 None) else None.
Proof.
  assert (0 ≤ 10 ≤ INT_MAX) as H by (unfold INT_MAX; lia).
  split; [exact H|]. exact (new_bank_accounts 10 [] H).
Defined.

(** ** Transfers there and back *)

Lemma transfer_ok_effect t workerID ledgerID srcID destID amount s d w :
  srcID ≠ destID →
  balance_of w srcID = Some s →
  balance_of w destID = Some d →
  lock_of w (AccLock srcID) = Some None →
  lock_of w (AccLock destID) = Some None →
  lock_of w BankLock = Some None →
  amount ≤ s →
  in_long (s - amount) = true →
  in_long (d + amount) = true →
  in_int (num_succ (bank w) + 1) = true →
  ∃ w',
    run t (transfer workerID ledgerID srcID destID amount) w = Done 0 w'
    ∧ balance_of w' srcID = Some (s - amount)
    ∧ balance_of w' destID = Some (d + amount)
    ∧ (∀ j, j ≠ srcID → j ≠ destID → balance_of w' j = balance_of w j)
    ∧ (∀ l, lock_of w' l = lock_of w l)
    ∧ num_succ (bank w') = num_succ (bank w) + 1
    ∧ num_fail (bank w') = num_fail (bank w).
Proof.
  intros Hne Hs Hd Hls Hld Hbl Hle Hvs Hvd Hn.
  eexists. split; [by apply run_transfer_ok|].
  unfold transfer_unlocked, transfer_locked.
  destruct (srcID <? destID) eqn:Hord.
  - split; [wsolve|]. split; [wsolve|].
    split; [intros j Hjs Hjd; wsolve|].
    split; [|split; wsolve].
    intros l. destruct (decide (l = AccLock srcID)) as [->|];
      [|destruct (decide (l = AccLock destID)) as [->|];
        [|destruct (decide (l = BankLock)) as [->|]]]; wsolve.
  - split; [wsolve|]. split; [wsolve|].
    split; [intros j Hjs Hjd; wsolve|].
    split; [|split; wsolve].
    intros l. destruct (decide (l = AccLock srcID)) as [->|];
      [|destruct (decide (l = AccLock destID)) as [->|];
        [|destruct (decide (l = BankLock)) as [->|]]]; wsolve.
Qed.

(** X9.  A transfer of a non-negative [amount] that the source can afford,
    followed by the transfer of the same amount in the opposite direction,
    puts both balances back, provided the destination did not start below
    zero; both calls return 0 and no other balance moves. *)
Theorem transfer_round_trip
    (t1 t2 : tid) (w1 l1 w2 l2 srcID destID amount s d : Z) (w : World) :
  srcID ≠ destID →
  balance_of w srcID = Some s →
  balance_of w destID = Some d →
  lock_of w (AccLock srcID) = Some None →
  lock_of w (AccLock destID) = Some None →
  lock_of w BankLock = Some None →
  0 ≤ amount ≤ s → 0 ≤ d →
  in_long s = true → in_long (d + amount) = true →
  INT_MIN ≤ num_succ (bank w) + 1 → num_succ (bank w) + 2 ≤ INT_MAX →
  ∃ w',
    run_ops [(t1, Transfer w1 l1 srcID destID amount);
             (t2, Transfer w2 l2 destID srcID amount)] w
    = Done [0; 0] w'
    ∧ (∀ j, balance_of w' j = balance_of w j)
    ∧ (∀ l, lock_of w' l = lock_of w l)
    ∧ num_succ (bank w') = num_succ (bank w) + 2
    ∧ num_fail (bank w') = num_fail (bank w).
Proof.
  intros Hne Hs Hd Hls Hld Hbl [Ha0 Has] Hd0 Hvs Hvd Hlo Hhi.
  apply in_long_bounds in Hvs. apply in_long_bounds in Hvd.
  unfold LONG_MIN, LONG_MAX, INT_MIN, INT_MAX in *.
  destruct (transfer_ok_effect t1 w1 l1 srcID destID amount s d w)
    as (wa & Hrun1 & Hs1 & Hd1 & Hoth1 & Hlk1 & Hn1 & Hf1); try done.
  { apply in_long_bounds. unfold LONG_MIN, LONG_MAX. lia. }
  { apply in_long_bounds. unfold LONG_MIN, LONG_MAX. lia. }
  { apply in_int_bounds. unfold INT_MIN, INT_MAX. lia. }
  destruct (transfer_ok_effect t2 w2 l2 destID srcID amount
              (d + amount) (s - amount) wa)
    as (wb & Hrun2 & Hd2 & Hs2 & Hoth2 & Hlk2 & Hn2 & Hf2);
    try done; rewrite ?Hlk1; try done.
  { lia. }
  { apply in_long_bounds. unfold LONG_MIN, LONG_MAX. lia. }
  { apply in_long_bounds. unfold LONG_MIN, LONG_MAX. lia. }
  { apply in_int_bounds. unfold INT_MIN, INT_MAX. lia. }
  exists wb. cbn [run_ops op_prog]. rewrite Hrun1, Hrun2.
  split; [done|]. split; [|split; [|split]].
  - intros j. destruct (decide (j = srcID)) as [->|Hjs];
      [|destruct (decide (j = destID)) as [->|Hjd]].
    + rewrite Hs2, Hs. f_equal. lia.
    + rewrite Hd2, Hd. f_equal. lia.
    + by rewrite Hoth2, Hoth1.
  - intros l. by rewrite Hlk2, Hlk1.
  - lia.
  - by rewrite Hf2, Hf1.
Qed.

Lemma transfer_round_trip_witness :
  ∃ w',
    run_ops [(0%nat, Transfer 0 0 0 1 30); (1%nat, Transfer 1 1 1 0 30)]
      (world_of (bank_with [100; 5]) [])
    = Done [0; 0] w'
    ∧ (∀ j, balance_of w' j = balance_of (world_of (bank_with [100; 5]) []) j)
    ∧ (∀ l, lock_of w' l = lock_of (world_of (bank_with [100; 5]) []) l)
    ∧ num_succ (bank w')
      = num_succ (bank (world_of (bank_with [100; 5]) [])) + 2
    ∧ num_fail (bank w') = num_fail (bank (world_of (bank_with [100; 5]) [])).
Proof.
  apply (transfer_round_trip 0%nat 1%nat 0 0 1 1 0 1 30 100 5
           (world_of (bank_with [100; 5]) [])).
  - lia.
  - reflexivity.
  - reflexivity.
  - reflexivity.
  - reflexivity.
  - reflexivity.
  - lia.
  - lia.
  - reflexivity.
  - reflexivity.
  - vm_compute. discriminate.
  - vm_compute. discriminate.
Defined.

(** ** A transfer entry with a negative amount *)

(** X10.  [worker] passes the [int] amount of a ledger entry to the
    [unsigned int] parameter of [transfer]: a transfer entry with a negative
    amount asks for at least 2^31.  So, unlike a deposit or a withdraw, a
    transfer between two accounts with a negative amount is turned down as
    insufficient funds whenever the source holds less than 2^31: it returns
    -1, moves nothing and counts one failure. *)
Theorem negative_transfer_entry_rejected
    (t : tid) (id : Z) (e : Ledger) (s : Z) (w : World) :
  mode e ≠ D → mode e ≠ W →
  acc e ≠ other e →
  in_int (amount e) = true → amount e < 0 →
  balance_of w (acc e) = Some s → s < 2 ^ 31 →
  is_Some (balance_of w (other e)) →
  lock_of w (AccLock (acc e)) = Some None →
  lock_of w (AccLock (other e)) = Some None →
  lock_of w BankLock = Some None →
  in_int (num_fail (bank w) + 1) = true →
  ∃ w',
    run t (op_prog (entry_op id e)) w = Done (-1) w'
    ∧ (∀ j, balance_of w' j = balance_of w j)
    ∧ num_succ (bank w') = num_succ (bank w)
    ∧ num_fail (bank w') = num_fail (bank w) + 1.
Proof.
  intros HD HW Hne Hint Hneg Hs Hlt Hd Hls Hld Hbl Hn.
  unfold entry_op.
  rewrite (proj2 (Z.eqb_neq _ _) HD), (proj2 (Z.eqb_neq _ _) HW).
  cbn [op_prog]. apply in_int_bounds in Hint. unfold INT_MIN in Hint.
  assert (s < to_unsigned (amount e)) as Hbig.
  { unfold to_unsigned.
    rewrite <- (Z.mod_add _ 1) by lia. rewrite Z.mod_small; lia. }
  eexists. split.
  { by apply (run_transfer_insufficient _ _ _ _ _ _ s). }
  unfold transfer_unlocked, transfer_locked.
  destruct (acc e <? other e); repeat split; try (intros j); wsolve.
Qed.

Lemma negative_transfer_entry_rejected_witness :
  ∃ w',
    run 0%nat (op_prog (entry_op 0 (mkLedger 0 1 (-5) T 0)))
      (world_of (bank_with [100; 5]) [])
    = Done (-1) w'
    ∧ (∀ j, balance_of w' j = balance_of (world_of (bank_with [100; 5]) []) j)
    ∧ num_succ (bank w') = num_succ (bank (world_of (bank_with [100; 5]) []))
    ∧ num_fail (bank w')
      = num_fail (bank (world_of (bank_with [100; 5]) [])) + 1.
Proof.
  apply (negative_transfer_entry_rejected 0%nat 0 (mkLedger 0 1 (-5) T 0) 100
           (world_of (bank_with [100; 5]) [])).
  - discriminate.
  - discriminate.
  - discriminate.
  - reflexivity.
  - reflexivity.
  - reflexivity.
  - reflexivity.
  - by eexists.
  - reflexivity.
  - reflexivity.
  - reflexivity.
  - reflexivity.
Defined.

(** ** What no interleaving can do *)

Lemma handle_ledger {X : Type} t (e : event X) w x w' :
  handle t e w = Done x w' →
  ledger w' = ledger w ∨ ∃ e0, ledger w = e0 :: ledger w'.
Proof.
  destruct e; cbn.
  - destruct (lookup_account w i); [|done]. intros [= _ <-]. by left.
  - unfold mutex_acquire. destruct (lock_of w l) as [[?|]|]; [done| |done].
    intros [= _ <-]. left. apply (ledger_set_mutex w l).
  - unfold mutex_release. destruct (lock_of w l) as [m|]; [|done].
    destruct (owned_by t m); [|done]. intros [= _ <-]. left.
    apply (ledger_set_mutex w l).
  - destruct (lookup_account w i); [|done]. intros [= _ <-]. by left.
  - destruct (lookup_account w i); [|done].
    destruct (in_long v); [|done]. intros [= _ <-]. left.
    apply ledger_alter_account.
  - destruct (lookup_account w i); [|done]. intros [= _ <-]. by left.
  - intros [= _ <-]. by left.
  - intros [= _ <-]. by left.
  - intros [= _ <-]. by left.
  - intros [= _ <-]. by left.
  - destruct (in_int _); [|done]. intros [= _ <-]. by left.
  - destruct (in_int _); [|done]. intros [= _ <-]. by left.
  - intros [= _ <-]. by left.
  - destruct (ledger w) eqn:E; [done|]. intros [= _ <-]. by left.
  - destruct (ledger w) as [|e0 rest] eqn:E; [done|]. intros [= _ <-].
    right. by exists e0.
Qed.

Lemma pool_step_ledger t ths w ths' w' :
  pool_step t ths w = Done ths' w' →
  ledger w' = ledger w ∨ ∃ e0, ledger w = e0 :: ledger w'.
Proof.
  unfold pool_step. destruct (ths !! t) as [th|]; [|done].
  destruct th as [id [[|]|X e k]|]; cbn.
  - intros [= _ <-]. by left.
  - intros [= _ <-]. by left.
  - destruct (handle t e w) as [x w1| |] eqn:He; [|done..].
    intros [= _ <-]. by eapply handle_ledger.
  - done.
Qed.

(** X11.  Under every schedule of every pool of threads the ledger only
    loses entries from its front: what is left is a suffix of what was
    there.  In particular a ledger seen empty stays empty, which is what lets
    a worker stop at the first empty ledger. *)
Theorem ledger_only_shrinks
    (sched : list tid) (ths : pool) (w : World) (ths' : pool) (w' : World) :
  run_schedule sched ths w = Done ths' w' →
  (∃ consumed, ledger w = consumed ++ ledger w')
  ∧ (ledger w = [] → ledger w' = []).
Proof.
  intros H.
  assert (∃ consumed, ledger w = consumed ++ ledger w') as [consumed Hc].
  { revert ths w H. induction sched as [|t sched IH]; intros ths w H.
    - cbn in H. simplify_eq. by exists [].
    - cbn [run_schedule] in H.
      destruct (pool_step t ths w) as [ths1 w1| |] eqn:Hstep; [|done..].
      destruct (IH _ _ H) as [consumed Hc].
      destruct (pool_step_ledger _ _ _ _ _ Hstep) as [Heq|[e0 Heq]].
      + exists consumed. by rewrite <- Heq.
      + exists (e0 :: consumed). by rewrite Heq, Hc. }
  split; [by exists consumed|].
  intros Hnil. rewrite Hnil in Hc. symmetry in Hc.
  by apply app_eq_nil in Hc as [_ ->].
Qed.

Lemma ledger_only_shrinks_witness :
  ∃ ths' w',
    run_schedule schedule_two_workers
      (InitBank 2 self_transfer_ledger).1 (InitBank 2 self_transfer_ledger).2
    = Done ths' w'
    ∧ (∃ consumed,
         ledger (InitBank 2 self_transfer_ledger).2 = consumed ++ ledger w')
    ∧ (ledger (InitBank 2 self_transfer_ledger).2 = [] → ledger w' = []).
Proof.
  destruct (run_schedule schedule_two_workers
              (InitBank 2 self_transfer_ledger).1
              (InitBank 2 self_transfer_ledger).2)
    as [ths' w'| |] eqn:H; [|by vm_compute in H..].
  exists ths', w'. split; [reflexivity|].
  exact (ledger_only_shrinks schedule_two_workers _ _ ths' w' H).
Defined.

Lemma identifiers_alter_account f i w :
  (∀ a, accountID (f a) = accountID a) →
  identifiers (alter_account f i w) = identifiers w.
Proof.
  intros Hf. unfold identifiers, alter_account. destruct (i <? 0); [done|]. cbn.
  apply list_eq. intros j. rewrite !list_lookup_fmap, list_lookup_alter.
  case_decide; [|done]. subst.
  destruct (accounts (bank w) !! Z.to_nat i); cbn; [|done]. by rewrite Hf.
Qed.

Lemma identifiers_set_mutex l m w :
  identifiers (set_mutex l m w) = identifiers w.
Proof. destruct l; [by apply identifiers_alter_account|done..]. Qed.

Lemma handle_fixed {X : Type} t (e : event X) w x w' :
  handle t e w = Done x w' →
  identifiers w' = identifiers w ∧ num (bank w') = num (bank w).
Proof.
  destruct e; cbn.
  - destruct (lookup_account w i); [|done]. by intros [= _ <-].
  - unfold mutex_acquire. destruct (lock_of w l) as [[?|]|]; [done| |done].
    intros [= _ <-]. split;
      [apply (identifiers_set_mutex l _ w)|apply (num_set_mutex w l)].
  - unfold mutex_release. destruct (lock_of w l) as [m|]; [|done].
    destruct (owned_by t m); [|done]. intros [= _ <-]. split;
      [apply (identifiers_set_mutex l _ w)|apply (num_set_mutex w l)].
  - destruct (lookup_account w i); [|done]. by intros [= _ <-].
  - destruct (lookup_account w i); [|done].
    destruct (in_long v); [|done]. intros [= _ <-]. split;
      [by apply identifiers_alter_account|apply num_alter_account].
  - destruct (lookup_account w i); [|done]. by intros [= _ <-].
  - by intros [= _ <-].
  - by intros [= _ <-].
  - by intros [= _ <-].
  - by intros [= _ <-].
  - destruct (in_int _); [|done]. by intros [= _ <-].
  - destruct (in_int _); [|done]. by intros [= _ <-].
  - by intros [= _ <-].
  - destruct (ledger w); [done|]. by intros [= _ <-].
  - destruct (ledger w); [done|]. by intros [= _ <-].
Qed.

Lemma pool_step_fixed t ths w ths' w' :
  pool_step t ths w = Done ths' w' →
  identifiers w' = identifiers w ∧ num (bank w') = num (bank w).
Proof.
  unfold pool_step. destruct (ths !! t) as [th|]; [|done].
  destruct th as [id [[|]|X e k]|]; cbn.
  - by intros [= _ <-].
  - by intros [= _ <-].
  - destruct (handle t e w) as [x w1| |] eqn:He; [|done..].
    intros [= _ <-]. by eapply handle_fixed.
  - done.
Qed.

(** X12.  Under every schedule of every pool of threads the account array
    keeps its shape: the same number of accounts, each with the identifier it
    had, and the same [num].  No action creates, removes or renumbers an
    account. *)
Theorem accounts_are_fixed
    (sched : list tid) (ths : pool) (w : World) (ths' : pool) (w' : World) :
  run_schedule sched ths w = Done ths' w' →
  identifiers w' = identifiers w
  ∧ num_accounts w' = num_accounts w
  ∧ num (bank w') = num (bank w).
Proof.
  intros H.
  assert (identifiers w' = identifiers w ∧ num (bank w') = num (bank w))
    as [Hid Hnum].
  { revert ths w H. induction sched as [|t sched IH]; intros ths w H.
    - cbn in H. by simplify_eq.
    - cbn [run_schedule] in H.
      destruct (pool_step t ths w) as [ths1 w1| |] eqn:Hstep; [|done..].
      destruct (IH _ _ H) as [Hid Hnum].
      destruct (pool_step_fixed _ _ _ _ _ Hstep) as [Hid1 Hnum1].
      split; congruence. }
  split; [done|]. split; [|done].
  unfold num_accounts. f_equal.
  rewrite <- (length_fmap accountID (accounts (bank w'))),
    <- (length_fmap accountID (accounts (bank w))).
  by f_equal.
Qed.

Lemma accounts_are_fixed_witness :
  ∃ ths' w',
    run_schedule schedule_two_workers
      (InitBank 2 self_transfer_ledger).1 (InitBank 2 self_transfer_ledger).2
    = Done ths' w'
    ∧ identifiers w' = identifiers (InitBank 2 self_transfer_ledger).2
    ∧ num_accounts w' = num_accounts (InitBank 2 self_transfer_ledger).2
    ∧ num (bank w') = num (bank (InitBank 2 self_transfer_ledger).2).
Proof.
  destruct (run_schedule schedule_two_workers
              (InitBank 2 self_transfer_ledger).1
              (InitBank 2 self_transfer_ledger).2)
    as [ths' w'| |] eqn:H; [|by vm_compute in H..].
  exists ths', w'. split; [reflexivity|].
  exact (accounts_are_fixed schedule_two_workers _ _ ths' w' H).
Defined.

(** ** The emptiness test outside the lock *)

(** X13.  [worker] tests [ledger.empty()] before it takes [ledger_lock].
    With two workers and a ledger of one entry, whatever the entry, there is
    an interleaving in which both see the ledger non-empty; the first takes
    the entry, and the second calls [front()] on the empty list. *)
Theorem empty_check_races (e : Ledger) :
  run_schedule [0; 1; 0; 0; 0; 0; 1; 1]%nat
    (InitBank 2 [e]).1 (InitBank 2 [e]).2
  = Fault FrontOfEmpty.
Proof. reflexivity. Qed.

(** ** One worker, to the end of the ledger *)

Lemma at_rest_locks w :
  at_rest w = true ↔ ∀ l m, lock_of w l = Some m → m = None.
Proof.
  unfold at_rest. rewrite !andb_true_iff, forallb_forall. split.
  - intros [[Ha Hb] Hl] l m. destruct l as [i| |]; cbn.
    + destruct (lookup_account w i) as [a|] eqn:E; [|done]. cbn.
      intros [= <-]. unfold lookup_account in E.
      destruct (i <? 0); [done|].
      apply list_elem_of_lookup_2, list_elem_of_In, Ha in E.
      by destruct (lock a).
    + intros [= <-]. by destruct (bank_lock (bank w)).
    + intros [= <-]. by destruct (ledger_lock w).
  - intros H. split; [split|].
    + intros a Ha. apply list_elem_of_In, list_elem_of_lookup in Ha as [k Hk].
      specialize (H (AccLock (Z.of_nat k)) (lock a)). cbn in H.
      unfold lookup_account in H.
      destruct (Z.of_nat k <? 0) eqn:E; [apply Z.ltb_lt in E; lia|].
      rewrite Nat2Z.id, Hk in H. by rewrite H.
    + by rewrite (H BankLock (bank_lock (bank w))).
    + by rewrite (H LedgerLock (ledger_lock w)).
Qed.

Lemma within_balances B w i b :
  within B w = true → balance_of w i = Some b → - B ≤ b ≤ B.
Proof.
  unfold within, balances, balance_of, lookup_account.
  rewrite forallb_forall. intros H.
  destruct (i <? 0); [done|].
  destruct (accounts (bank w) !! Z.to_nat i) as [a|] eqn:E; [|done].
  cbn. intros [= <-].
  assert (In (balance a) (balance <$> accounts (bank w))) as Hin.
  { apply list_elem_of_In, list_elem_of_fmap. exists a. split; [done|].
    by eapply list_elem_of_lookup_2. }
  apply H in Hin. apply andb_true_iff in Hin as [H1 H2].
  apply Z.leb_le in H1, H2. lia.
Qed.

Lemma balances_within B w :
  (∀ i b, balance_of w i = Some b → - B ≤ b ≤ B) → within B w = true.
Proof.
  intros H. unfold within, balances. rewrite forallb_forall. intros b Hb.
  apply list_elem_of_In, list_elem_of_fmap in Hb as (a & -> & Ha).
  apply list_elem_of_lookup in Ha as [k Hk].
  specialize (H (Z.of_nat k) (balance a)).
  unfold balance_of, lookup_account in H.
  destruct (Z.of_nat k <? 0) eqn:E; [apply Z.ltb_lt in E; lia|].
  rewrite Nat2Z.id, Hk in H. specialize (H eq_refl).
  apply andb_true_iff. split; apply Z.leb_le; lia.
Qed.

Lemma withdraw_effect t workerID ledgerID accountID amount b w :
  balance_of w accountID = Some b →
  lock_of w (AccLock accountID) = Some None →
  lock_of w BankLock = Some None →
  (amount ≤ b → in_long (b - amount) = true) →
  in_int (num_succ (bank w) + 1) = true →
  in_int (num_fail (bank w) + 1) = true →
  ∃ r w' b',
    run t (withdraw workerID ledgerID accountID amount) w = Done r w'
    ∧ balance_of w' accountID = Some b'
    ∧ (b' = b ∨ b' = b - amount)
    ∧ (∀ j, j ≠ accountID → balance_of w' j = balance_of w j)
    ∧ (∀ l, lock_of w' l = lock_of w l)
    ∧ num_succ (bank w) ≤ num_succ (bank w')
    ∧ num_fail (bank w) ≤ num_fail (bank w').
Proof.
  intros Hb Hl Hbl Hv Hs Hf.
  destruct (Z.le_gt_cases amount b) as [Hle|Hlt].
  - eexists 0, _, (b - amount).
    split; [by apply (run_withdraw_ok _ _ _ _ _ b); auto|].
    split; [wsolve|]. split; [by right|].
    split; [intros j Hj; wsolve|].
    split; [|split; wsolve; lia].
    intros l. destruct (decide (l = AccLock accountID)) as [->|];
      [|destruct (decide (l = BankLock)) as [->|]]; wsolve.
  - eexists (-1), _, b.
    split; [by apply (run_withdraw_insufficient _ _ _ _ _ b)|].
    split; [wsolve|]. split; [by left|].
    split; [intros j Hj; wsolve|].
    split; [|split; wsolve; lia].
    intros l. destruct (decide (l = AccLock accountID)) as [->|];
      [|destruct (decide (l = BankLock)) as [->|]]; wsolve.
Qed.

Lemma transfer_insufficient_effect
    t workerID ledgerID srcID destID amount s w :
  srcID ≠ destID →
  balance_of w srcID = Some s →
  is_Some (balance_of w destID) →
  lock_of w (AccLock srcID) = Some None →
  lock_of w (AccLock destID) = Some None →
  lock_of w BankLock = Some None →
  s < amount →
  in_int (num_fail (bank w) + 1) = true →
  ∃ w',
    run t (transfer workerID ledgerID srcID destID amount) w = Done (-1) w'
    ∧ (∀ j, balance_of w' j = balance_of w j)
    ∧ (∀ l, lock_of w' l = lock_of w l)
    ∧ num_succ (bank w') = num_succ (bank w)
    ∧ num_fail (bank w') = num_fail (bank w) + 1.
Proof.
  intros Hne Hs Hd Hls Hld Hbl Hlt Hn.
  eexists. split; [by apply (run_transfer_insufficient _ _ _ _ _ _ s)|].
  unfold transfer_unlocked, transfer_locked.
  destruct (srcID <? destID) eqn:Hord.
  - split; [intros j; wsolve|]. split; [|split; wsolve].
    intros l. destruct (decide (l = AccLock srcID)) as [->|];
      [|destruct (decide (l = AccLock destID)) as [->|];
        [|destruct (decide (l = BankLock)) as [->|]]]; wsolve.
  - split; [intros j; wsolve|]. split; [|split; wsolve].
    intros l. destruct (decide (l = AccLock srcID)) as [->|];
      [|destruct (decide (l = AccLock destID)) as [->|];
        [|destruct (decide (l = BankLock)) as [->|]]]; wsolve.
Qed.

Lemma account_at_rest w i :
  (∀ l m, lock_of w l = Some m → m = None) →
  0 ≤ i < num_accounts w →
  ∃ b, balance_of w i = Some b ∧ lock_of w (AccLock i) = Some None.
Proof.
  intros Hrest Hi.
  destruct (lookup_account_is_Some w i Hi) as [a Ha].
  exists (balance a). unfold balance_of. cbn. rewrite Ha. cbn.
  split; [done|]. f_equal. apply (Hrest (AccLock i)). cbn. by rewrite Ha.
Qed.

(** The operation of an entry that names existing accounts, on a bank at
    rest whose balances and counters leave room for it, returns and leaves
    the bank at rest. *)
Lemma entry_progress t id e B w :
  (∀ l m, lock_of w l = Some m → m = None) →
  (∀ i b, balance_of w i = Some b → - B ≤ b ≤ B) →
  entry_in_range (num_accounts w) e = true →
  self_transfer_entry e = false →
  B + moved e ≤ LONG_MAX →
  0 ≤ num_succ (bank w) < INT_MAX →
  0 ≤ num_fail (bank w) < INT_MAX →
  ∃ r w',
    run t (op_prog (entry_op id e)) w = Done r w'
    ∧ (∀ l, lock_of w' l = lock_of w l)
    ∧ (∀ i b, balance_of w' i = Some b → - (B + moved e) ≤ b ≤ B + moved e)
    ∧ num_succ (bank w) ≤ num_succ (bank w')
    ∧ num_fail (bank w) ≤ num_fail (bank w').
Proof.
  intros Hrest Hbal Hrange Hself Hroom Hs Hf.
  assert (lock_of w BankLock = Some None) as Hbl.
  { cbn. f_equal. by apply (Hrest BankLock). }
  assert (in_int (num_succ (bank w) + 1) = true) as Hsi.
  { apply in_int_bounds. unfold INT_MIN, INT_MAX in *. lia. }
  assert (in_int (num_fail (bank w) + 1) = true) as Hfi.
  { apply in_int_bounds. unfold INT_MIN, INT_MAX in *. lia. }
  unfold entry_in_range in Hrange.
  apply andb_true_iff in Hrange as [Hacc Hother].
  apply andb_true_iff in Hacc as [Hacc0 Haccn].
  apply Z.leb_le in Hacc0. apply Z.ltb_lt in Haccn.
  destruct (account_at_rest w (acc e) Hrest) as (b & Hb & Hl); [lia|].
  pose proof (Hbal _ _ Hb) as Hbb.
  unfold self_transfer_entry in Hself. unfold moved, entry_op in *.
  destruct (mode e =? D) eqn:HD; [|destruct (mode e =? W) eqn:HW];
    cbn [op_prog op_amount negb andb orb] in *.
  - destruct (deposit_effect t id (ledgerID e) (acc e) (amount e) b w)
      as (w' & Hrun & Hb' & Hs' & Hf' & _ & Hoth & Hlk); auto.
    { apply in_long_bounds. unfold LONG_MIN, LONG_MAX in *. lia. }
    exists 0, w'. split; [done|]. split; [done|]. split; [|lia].
    intros i x Hx. destruct (decide (i = acc e)) as [->|Hne].
    + rewrite Hb' in Hx. injection Hx as <-. lia.
    + rewrite Hoth in Hx by done. apply Hbal in Hx. lia.
  - destruct (withdraw_effect t id (ledgerID e) (acc e) (amount e) b w)
      as (r & w' & b' & Hrun & Hb' & Hcase & Hoth & Hlk & Hs' & Hf'); auto.
    { intros _. apply in_long_bounds. unfold LONG_MIN, LONG_MAX in *. lia. }
    exists r, w'. split; [done|]. split; [done|]. split; [|lia].
    intros i x Hx. destruct (decide (i = acc e)) as [->|Hne].
    + rewrite Hb' in Hx. injection Hx as <-. lia.
    + rewrite Hoth in Hx by done. apply Hbal in Hx. lia.
  - apply andb_true_iff in Hother as [Hoth0 Hothn].
    apply Z.leb_le in Hoth0. apply Z.ltb_lt in Hothn.
    apply Z.eqb_neq in Hself.
    destruct (account_at_rest w (other e) Hrest) as (d & Hd & Hld); [lia|].
    pose proof (Hbal _ _ Hd) as Hdb.
    assert (0 ≤ to_unsigned (amount e)) as Hpos.
    { unfold to_unsigned. apply Z.mod_pos_bound. lia. }
    destruct (Z.le_gt_cases (to_unsigned (amount e)) b) as [Hle|Hlt].
    + destruct (transfer_ok_effect t id (ledgerID e) (acc e) (other e)
                  (to_unsigned (amount e)) b d w)
        as (w' & Hrun & Hb' & Hd' & Hoth & Hlk & Hs' & Hf'); auto.
      { apply in_long_bounds. unfold LONG_MIN, LONG_MAX in *. lia. }
      { apply in_long_bounds. unfold LONG_MIN, LONG_MAX in *. lia. }
      exists 0, w'. split; [done|]. split; [done|]. split; [|lia].
      intros i x Hx. destruct (decide (i = acc e)) as [->|Hne];
        [|destruct (decide (i = other e)) as [->|Hne']].
      * rewrite Hb' in Hx. injection Hx as <-. lia.
      * rewrite Hd' in Hx. injection Hx as <-. lia.
      * rewrite Hoth in Hx by done. apply Hbal in Hx. lia.
    + destruct (transfer_insufficient_effect t id (ledgerID e) (acc e)
                  (other e) (to_unsigned (amount e)) b w)
        as (w' & Hrun & Hsame & Hlk & Hs' & Hf'); auto.
      exists (-1), w'. split; [done|]. split; [done|]. split; [|lia].
      intros i x Hx. rewrite Hsame in Hx. apply Hbal in Hx. lia.
Qed.

Lemma run_worker_iteration_nil t id w :
  ledger w = [] → run t (worker_iteration id) w = Done true w.
Proof.
  intros Hled. unfold worker_iteration.
  rewrite run_bind, run_trigger. cbn [handle]. by rewrite Hled.
Qed.

Lemma run_worker_iteration_entry t id e rest w :
  ledger w = e :: rest → ledger_lock w = None →
  run t (worker_iteration id) w
  = match run t (op_prog (entry_op id e)) (taken t rest w) with
    | Done _ w' => Done false w'
    | Blocked => Blocked
    | Fault f => Fault f
    end.
Proof.
  intros Hled Hll. unfold worker_iteration.
  rewrite run_bind, run_trigger. cbn [handle]. rewrite Hled.
  rewrite run_bind, run_lock by (cbn; by rewrite Hll).
  rewrite run_bind, run_trigger. cbn [handle].
  change (ledger (acquired t LedgerLock w)) with (ledger w). rewrite Hled.
  rewrite run_bind, run_trigger. cbn [handle].
  change (ledger (acquired t LedgerLock w)) with (ledger w). rewrite Hled.
  rewrite run_bind, run_unlock by (cbn; done).
  rewrite run_bind. unfold entry_op, taken.
  destruct (mode e =? D), (mode e =? W); cbn [op_prog];
    by destruct (run _ _ _).
Qed.

Lemma lock_of_taken t rest w l :
  ledger_lock w = None → lock_of (taken t rest w) l = lock_of w l.
Proof. intros H. destruct l; cbn; [done..|]. by rewrite H. Qed.

Lemma worker_progress t id l :
  ∀ passes B w,
    ledger w = l →
    (∀ l m, lock_of w l = Some m → m = None) →
    (∀ i b, balance_of w i = Some b → - B ≤ b ≤ B) →
    forallb (entry_in_range (num_accounts w)) l = true →
    forallb (λ e, negb (self_transfer_entry e)) l = true →
    B + total (moved <$> l) ≤ LONG_MAX →
    0 ≤ num_succ (bank w) → 0 ≤ num_fail (bank w) →
    records w + Z.of_nat (length l) ≤ INT_MAX →
    (length l < passes)%nat →
    ∃ w',
      run t (worker passes id) w = Done true w'
      ∧ ledger w' = []
      ∧ (∀ l m, lock_of w' l = Some m → m = None)
      ∧ (∀ i b, balance_of w' i = Some b →
           - (B + total (moved <$> l)) ≤ b ≤ B + total (moved <$> l))
      ∧ num_succ (bank w) ≤ num_succ (bank w')
      ∧ num_fail (bank w) ≤ num_fail (bank w')
      ∧ records w' = records w + Z.of_nat (length l).
Proof.
  induction l as [|e l IH];
    intros passes B w Hled Hrest Hbal Hrange Hself Hroom Hs Hf Hrec Hlen.
  - destruct passes as [|n]; [cbn in Hlen; lia|].
    exists w. cbn [worker]. rewrite run_bind, run_worker_iteration_nil by done.
    cbn. split; [done|]. split; [done|]. split; [done|].
    split; [intros i b Hb; apply Hbal in Hb; lia|]. lia.
  - destruct passes as [|n]; [cbn in Hlen; lia|].
    cbn [forallb] in Hrange, Hself.
    apply andb_true_iff in Hrange as [Hrange1 Hrange].
    apply andb_true_iff in Hself as [Hself1 Hself].
    apply negb_true_iff in Hself1.
    cbn [fmap list_fmap total] in Hroom.
    change (list_fmap _ _ moved l) with (moved <$> l) in Hroom.
    assert (0 ≤ total (moved <$> l)) as Htot.
    { clear. induction l as [|x l IH]; cbn; [lia|].
      change (list_fmap _ _ moved l) with (moved <$> l). unfold moved at 1. lia. }
    assert (0 ≤ moved e) as Hm by (unfold moved; lia).
    cbn [length] in Hrec, Hlen. unfold records in Hrec.
    assert (ledger_lock w = None) as Hll by (by apply (Hrest LedgerLock)).
    destruct (entry_progress t id e B (taken t l w))
      as (r & w1 & Hrun & Hlk & Hbal1 & Hs1 & Hf1).
    { intros l0 m. rewrite lock_of_taken by done. apply Hrest. }
    { exact Hbal. }
    { exact Hrange1. }
    { exact Hself1. }
    { lia. }
    { change (num_succ (bank (taken t l w))) with (num_succ (bank w)).
      unfold INT_MAX in *. lia. }
    { change (num_fail (bank (taken t l w))) with (num_fail (bank w)).
      unfold INT_MAX in *. lia. }
    change (num_succ (bank (taken t l w))) with (num_succ (bank w)) in Hs1.
    change (num_fail (bank (taken t l w))) with (num_fail (bank w)) in Hf1.
    pose proof (op_records _ _ _ _ _ Hrun) as Hrec1.
    rewrite records_taken, recorded_entry, Hself1 in Hrec1.
    pose proof (op_keeps_ledger _ _ _ _ _ Hrun) as Hled1.
    rewrite ledger_taken in Hled1.
    pose proof (run_num_accounts _ _ _ _ _ Hrun) as Hnum1.
    change (num_accounts (taken t l w)) with (num_accounts w) in Hnum1.
    destruct (IH n (B + moved e) w1) as (w' & Hrun' & Hled' & Hrest' & Hbal' & Hs' & Hf' & Hrec').
    { done. }
    { intros l0 m. rewrite Hlk, lock_of_taken by done. apply Hrest. }
    { exact Hbal1. }
    { by rewrite Hnum1. }
    { done. }
    { lia. }
    { lia. }
    { lia. }
    { unfold records in *. lia. }
    { lia. }
    exists w'. cbn [worker].
    rewrite run_bind, (run_worker_iteration_entry _ _ e l) by done.
    rewrite Hrun. split; [done|]. split; [done|]. split; [done|].
    split.
    { intros i b Hb. apply Hbal' in Hb. cbn [fmap list_fmap total].
      change (list_fmap _ _ moved l) with (moved <$> l). lia. }
    split; [lia|]. split; [lia|].
    cbn [length]. unfold records in *. lia.
Qed.

(** X14.  One worker, alone, on a bank at rest.  When every ledger entry
    names accounts that exist, none is a transfer from an account to itself,
    and the balances and the counters leave room for the amounts ([B] bounds
    the balances, and [B] plus the amounts stays within a [long]), the worker
    returns: the ledger is empty, every entry has been counted exactly once
    as a success or a failure, and every mutex is free again. *)
Theorem worker_processes_ledger
    (t : tid) (id : Z) (passes : nat) (B : Z) (w : World) :
  at_rest w = true →
  within B w = true →
  forallb (entry_in_range (num_accounts w)) (ledger w) = true →
  forallb (λ e, negb (self_transfer_entry e)) (ledger w) = true →
  B + total (moved <$> ledger w) ≤ LONG_MAX →
  0 ≤ num_succ (bank w) → 0 ≤ num_fail (bank w) →
  records w + Z.of_nat (length (ledger w)) ≤ INT_MAX →
  (length (ledger w) < passes)%nat →
  ∃ w',
    run t (worker passes id) w = Done true w'
    ∧ ledger w' = []
    ∧ records w' = records w + Z.of_nat (length (ledger w))
    ∧ at_rest w' = true
    ∧ within (B + total (moved <$> ledger w)) w' = true.
Proof.
  intros Hrest Hbal Hrange Hself Hroom Hs Hf Hrec Hlen.
  destruct (worker_progress t id (ledger w) passes B w)
    as (w' & Hrun & Hled & Hrest' & Hbal' & _ & _ & Hrec'); auto.
  { by apply at_rest_locks. }
  { intros i b. by apply within_balances. }
  exists w'. split; [done|]. split; [done|]. split; [done|].
  split; [by apply at_rest_locks|by apply balances_within].
Qed.

Lemma worker_processes_ledger_witness :
  ∃ w',
    run 0%nat (worker 4 0)
      (world_of (bank_with [100; 0])
         [mkLedger 0 0 100 D 0; mkLedger 0 0 250 W 1; mkLedger 0 1 50 T 2])
    = Done true w'
    ∧ ledger w' = []
    ∧ records w' = 0 + 3
    ∧ at_rest w' = true
    ∧ within (100 + 400) w' = true.
Proof.
  apply (worker_processes_ledger 0%nat 0 4 100
           (world_of (bank_with [100; 0])
              [mkLedger 0 0 100 D 0; mkLedger 0 0 250 W 1;
               mkLedger 0 1 50 T 2])).
  - reflexivity.
  - reflexivity.
  - reflexivity.
  - reflexivity.
  - vm_compute. discriminate.
  - vm_compute. discriminate.
  - vm_compute. discriminate.
  - vm_compute. discriminate.
  - vm_compute. lia.
Defined.

(** ** A whole session *)

Lemma run_schedule_app s1 s2 ths w :
  run_schedule (s1 ++ s2) ths w
  = match run_schedule s1 ths w with
    | Done ths' w' => run_schedule s2 ths' w'
    | Blocked => Blocked
    | Fault f => Fault f
    end.
Proof.
  revert ths w. induction s1 as [|t s1 IH]; intros ths w; cbn; [done|].
  destruct (pool_step t ths w); [apply IH|done..].
Qed.

(** A thread that is the only one to step takes the steps of its program. *)
Lemma thread_runs t id (p : prog bool) :
  ∀ w r w' (ths : pool),
    ths !! t = Some (Running id p) →
    run t p w = Done r w' →
    ∃ n, run_schedule (replicate n t) ths w
         = Done (<[t := Running id (Ret r)]> ths) w'.
Proof.
  induction p as [r0|X e k IH]; intros w r w' ths Hth Hrun.
  - cbn in Hrun. injection Hrun as <- <-. exists 0%nat. cbn.
    by rewrite list_insert_id.
  - cbn [run] in Hrun.
    destruct (handle t e w) as [x w1| |] eqn:He; [|done..].
    destruct (IH x w1 r w' (<[t := Running id (k x)]> ths)) as [n Hn].
    { apply list_lookup_insert_eq. by eapply lookup_lt_Some. }
    { done. }
    exists (S n). cbn [replicate run_schedule]. unfold pool_step.
    rewrite Hth. cbn [thread_step]. rewrite He.
    by rewrite Hn, list_insert_insert_eq.
Qed.

Lemma worker_thread_runs t id passes :
  ∀ w w' (ths : pool),
    ths !! t = Some (Running id (worker_iteration id)) →
    run t (worker passes id) w = Done true w' →
    ∃ sched, run_schedule sched ths w = Done (<[t := Returned]> ths) w'.
Proof.
  induction passes as [|n IH]; intros w w' ths Hth Hrun; [done|].
  cbn [worker] in Hrun. apply run_bind_inv in Hrun as (stop & w1 & H1 & H2).
  destruct (thread_runs t id _ _ _ _ ths Hth H1) as [n1 Hn1].
  assert (t < length ths)%nat as Hlt by (by eapply lookup_lt_Some).
  destruct stop.
  - cbn in H2. injection H2 as <-.
    exists (replicate n1 t ++ [t]). rewrite run_schedule_app, Hn1.
    cbn [run_schedule]. unfold pool_step.
    rewrite list_lookup_insert_eq by done. cbn [thread_step].
    by rewrite list_insert_insert_eq.
  - destruct (IH w1 w' (<[t := Running id (worker_iteration id)]> ths))
      as [sched Hsched].
    { by apply list_lookup_insert_eq. }
    { done. }
    exists (replicate n1 t ++ t :: sched). rewrite run_schedule_app, Hn1.
    cbn [run_schedule]. unfold pool_step.
    rewrite list_lookup_insert_eq by done. cbn [thread_step].
    rewrite list_insert_insert_eq.
    rewrite list_insert_insert_eq in Hsched. exact Hsched.
Qed.

(** Once the ledger is empty, every worker that has not returned does so on
    its next pass. *)
Lemma workers_return w (ths : pool) :
  ledger w = [] →
  (∀ t th, ths !! t = Some th → th = Returned ∨ th = spawn t) →
  ∀ k, (k ≤ length ths)%nat →
    ∃ sched,
      run_schedule sched ths w = Done (replicate k Returned ++ drop k ths) w.
Proof.
  intros Hled Hths. induction k as [|k IH]; intros Hk.
  - exists []. cbn. by rewrite drop_0.
  - destruct IH as [sched Hsched]; [lia|].
    destruct (lookup_lt_is_Some_2 ths k) as [th Hth]; [lia|].
    assert (replicate (S k) Returned ++ drop (S k) ths
            = <[k := Returned]> (replicate k Returned ++ drop k ths)) as ->.
    { rewrite (drop_S ths th k Hth).
      rewrite insert_app_r_alt by (rewrite length_replicate; lia).
      rewrite length_replicate, Nat.sub_diag. cbn [insert list_insert].
      change (S k) with (1 + k)%nat at 1. rewrite <- Nat.add_comm.
      rewrite replicate_add. by rewrite <- app_assoc. }
    destruct (Hths k th Hth) as [->| ->].
    + exists sched. rewrite Hsched. f_equal. symmetry. apply list_insert_id.
      rewrite lookup_app_r by (rewrite length_replicate; lia).
      rewrite length_replicate, Nat.sub_diag, lookup_drop, Nat.add_0_r.
      done.
    + destruct (worker_thread_runs k (Z.of_nat k) 1 w w
                  (replicate k Returned ++ drop k ths)) as [s2 Hs2].
      { rewrite lookup_app_r by (rewrite length_replicate; lia).
        rewrite length_replicate, Nat.sub_diag, lookup_drop, Nat.add_0_r.
        done. }
      { cbn [worker]. by rewrite run_bind, run_worker_iteration_nil. }
      exists (sched ++ s2). by rewrite run_schedule_app, Hsched.
Qed.

Lemma handle_num {X : Type} t (e : event X) w x w' :
  handle t e w = Done x w' → num (bank w') = num (bank w).
Proof. intros H. by apply handle_fixed in H as [_ ?]. Qed.

Lemma run_num {R : Type} t (p : prog R) w r w' :
  run t p w = Done r w' → num (bank w') = num (bank w).
Proof.
  revert w. induction p as [r0|X e k IH]; intros w; cbn.
  - by intros [= _ <-].
  - destruct (handle t e w) as [x w1| |] eqn:He; [|done..].
    intros H%IH. rewrite H. by eapply handle_num.
Qed.

Lemma at_rest_free w :
  at_rest w = true →
  Forall (λ a, lock a = None) (accounts (bank w))
  ∧ bank_lock (bank w) = None.
Proof.
  unfold at_rest. rewrite !andb_true_iff, forallb_forall.
  intros [[Ha Hb] _]. split.
  - apply Forall_forall. intros a Hin%list_elem_of_In%Ha. by destruct (lock a).
  - by destruct (bank_lock (bank w)).
Qed.

(** X15.  [InitBank] from the loaded ledger to the report.  With at least
    one worker, when every entry names accounts among the ten, none is a
    transfer from an account to itself and the amounts add up within a
    [long], there is an interleaving in which every worker returns with the
    ledger empty and every entry counted once; [print_account], run after the
    workers are joined, then prints the report of that bank. *)
Theorem session_completes (num_workers : nat) (l : list Ledger) (main : tid) :
  (0 < num_workers)%nat →
  forallb (entry_in_range 10) l = true →
  forallb (λ e, negb (self_transfer_entry e)) l = true →
  total (moved <$> l) ≤ LONG_MAX →
  Z.of_nat (length l) ≤ INT_MAX →
  ∃ sched w' w'',
    run_schedule sched (InitBank num_workers l).1 (InitBank num_workers l).2
    = Done (replicate num_workers Returned) w'
    ∧ ledger w' = []
    ∧ num_succ (bank w') + num_fail (bank w') = Z.of_nat (length l)
    ∧ run main print_account w' = Done tt w''
    ∧ cout w'' = cout w' ++ report w'.
Proof.
  intros Hpos Hrange Hself Hroom Hlen.
  destruct num_workers as [|k]; [lia|].
  set (w := world_of bank10 l). set (ths := spawn <$> seq 0 (S k)).
  change (InitBank (S k) l).1 with ths. change (InitBank (S k) l).2 with w.
  destruct (worker_progress 0%nat 0 l (S (length l)) 0 w)
    as (w' & Hrun & Hled & Hrest & _ & _ & _ & Hrec); try done.
  { by apply at_rest_locks. }
  { intros i b. by apply within_balances. }
  { lia. }
  assert (∀ t th, ths !! t = Some th → th = spawn t) as Hths.
  { intros t th. unfold ths. rewrite list_lookup_fmap.
    destruct (seq 0 (S k) !! t) as [x|] eqn:E; [|done].
    apply lookup_seq in E as [-> _]. by intros [= <-]. }
  destruct (worker_thread_runs 0%nat 0 (S (length l)) w w' ths)
    as [s1 Hs1]; [done|done|].
  destruct (workers_return w' (<[0%nat := Returned]> ths) Hled) with (k := S k)
    as [s2 Hs2].
  { intros t th. destruct (decide (t = 0%nat)) as [->|Hne].
    - rewrite list_lookup_insert_eq by (unfold ths; cbn; lia).
      intros [= <-]. by left.
    - rewrite list_lookup_insert_ne by done. intros H. right. by apply Hths. }
  { rewrite length_insert. unfold ths. by rewrite length_fmap, length_seq. }
  rewrite drop_ge, app_nil_r in Hs2
    by (rewrite length_insert; unfold ths; by rewrite length_fmap, length_seq).
  apply at_rest_locks, at_rest_free in Hrest as [Hfree Hbl].
  destruct (run_print_account main w') as (w'' & Hp & Hc & _); [|done|done|].
  { rewrite (run_num _ _ _ _ _ Hrun), (run_num_accounts _ _ _ _ _ Hrun). done. }
  exists (s1 ++ s2), w', w''.
  rewrite run_schedule_app, Hs1.
  split; [exact Hs2|]. split; [done|]. split; [|done].
  unfold records in Hrec. cbn in Hrec. lia.
Qed.

Lemma session_completes_witness :
  ∃ sched w' w'',
    run_schedule sched
      (InitBank 2 [mkLedger 0 0 100 D 0; mkLedger 0 0 250 W 1;
                   mkLedger 0 1 50 T 2]).1
      (InitBank 2 [mkLedger 0 0 100 D 0; mkLedger 0 0 250 W 1;
                   mkLedger 0 1 50 T 2]).2
    = Done (replicate 2 Returned) w'
    ∧ ledger w' = []
    ∧ num_succ (bank w') + num_fail (bank w')
      = Z.of_nat (length [mkLedger 0 0 100 D 0; mkLedger 0 0 250 W 1;
                          mkLedger 0 1 50 T 2])
    ∧ run 2%nat print_account w' = Done tt w''
    ∧ cout w'' = cout w' ++ report w'.
Proof.
  apply (session_completes 2
           [mkLedger 0 0 100 D 0; mkLedger 0 0 250 W 1; mkLedger 0 1 50 T 2]
           2%nat).
  - lia.
  - reflexivity.
  - reflexivity.
  - vm_compute. discriminate.
  - vm_compute. discriminate.
Defined.

(** ** What a finished operation leaves as it was *)

Ltac lock_cases l i :=
  destruct (decide (l = AccLock i)) as [->|];
    [|destruct (decide (l = BankLock)) as [->|]].

Ltac lock_cases2 l i j :=
  destruct (decide (l = AccLock i)) as [->|];
    [|destruct (decide (l = AccLock j)) as [->|];
      [|destruct (decide (l = BankLock)) as [->|]]].

(** X16.  A finished operation changes no balance but those of the accounts
    it was called with, and none at all when it returns a failure; it does
    not touch the ledger; and, unless it is a transfer from an account to
    itself, it leaves every mutex as it found it. *)
Theorem finished_operation_frame
    (t : tid) (o : op) (w : World) (r : Z) (w' : World) :
  run t (op_prog o) w = Done r w' →
  (∀ j, j ∉ op_accounts o → balance_of w' j = balance_of w j)
  ∧ (r ≠ 0 → ∀ j, balance_of w' j = balance_of w j)
  ∧ (recorded o = 1 → ∀ l, lock_of w' l = lock_of w l)
  ∧ ledger w' = ledger w.
Proof.
  intros H. pose proof (op_keeps_ledger _ _ _ _ _ H) as Hled.
  destruct o as [workerID ledgerID i a|workerID ledgerID i a
                |workerID ledgerID src dst a];
    cbn [op_prog op_accounts recorded] in *.
  - destruct (deposit_inv _ _ _ _ _ _ _ _ H) as (b & Hb & Hl & Hbl & Hv & Hn).
    rewrite (run_deposit _ _ _ _ _ b) in H by done. injection H as <- <-.
    split; [|split; [done|split; [|done]]].
    + intros j Hj. assert (j ≠ i) by (intros ->; apply Hj; constructor). wsolve.
    + intros _ l. lock_cases l i; wsolve.
  - destruct (withdraw_inv _ _ _ _ _ _ _ _ H)
      as (b & Hb & Hl & Hbl & [(Hle & Hv & Hn)|(Hlt & Hn)]).
    + rewrite (run_withdraw_ok _ _ _ _ _ b) in H by done.
      injection H as <- <-.
      split; [|split; [done|split; [|done]]].
      * intros j Hj. assert (j ≠ i) by (intros ->; apply Hj; constructor). wsolve.
      * intros _ l. lock_cases l i; wsolve.
    + rewrite (run_withdraw_insufficient _ _ _ _ _ b) in H by done.
      injection H as <- <-.
      split; [|split; [|split; [|done]]].
      * intros j Hj. wsolve.
      * intros _ j. wsolve.
      * intros _ l. lock_cases l i; wsolve.
  - destruct (transfer_inv _ _ _ _ _ _ _ _ _ H)
      as [[<- Hl]|(Hne & s & d & Hs & Hd & Hls & Hld & Hbl
                   & [(Hle & Hvs & Hvd & Hn)|(Hlt & Hn)])].
    + rewrite run_transfer_self in H by done. injection H as <- <-.
      rewrite Z.eqb_refl.
      split; [|split; [|split; [done|done]]].
      * intros j Hj. wsolve.
      * intros _ j. wsolve.
    + destruct (transfer_ok_effect t workerID ledgerID src dst a s d w)
        as (w1 & Hrun & _ & _ & Hoth & Hlk & _); auto.
      rewrite Hrun in H. injection H as <- <-.
      split; [|split; [done|split; [done|done]]].
      intros j Hj. apply Hoth; intros ->; apply Hj; repeat constructor.
    + destruct (transfer_insufficient_effect t workerID ledgerID src dst a s w)
        as (w1 & Hrun & Hsame & Hlk & _); auto.
      rewrite Hrun in H. injection H as <- <-.
      split; [|split; [|split; [|done]]]; done.
Qed.

Lemma finished_operation_frame_witness :
  ∃ r w',
    run 0%nat (op_prog (Transfer 0 2 0 1 50)) (world_of (bank_with [100; 0; 7]) [])
    = Done r w'
    ∧ (∀ j, j ∉ op_accounts (Transfer 0 2 0 1 50) →
         balance_of w' j = balance_of (world_of (bank_with [100; 0; 7]) []) j)
    ∧ (r ≠ 0 →
         ∀ j, balance_of w' j = balance_of (world_of (bank_with [100; 0; 7]) []) j)
    ∧ (recorded (Transfer 0 2 0 1 50) = 1 →
         ∀ l, lock_of w' l = lock_of (world_of (bank_with [100; 0; 7]) []) l)
    ∧ ledger w' = ledger (world_of (bank_with [100; 0; 7]) []).
Proof.
  destruct (run 0%nat (op_prog (Transfer 0 2 0 1 50))
              (world_of (bank_with [100; 0; 7]) []))
    as [r w'| |] eqn:H; [|by vm_compute in H..].
  exists r, w'. split; [reflexivity|].
  exact (finished_operation_frame 0%nat (Transfer 0 2 0 1 50) _ r w' H).
Defined.

(** ** Loading the ledger *)

Section load_properties.
Context (parse_line : string → option (Z * Z * Z * Z)).

Lemma imap_parsed_app (l1 l2 : list (Z * Z * Z * Z)) (k : Z) :
  imap (λ i fields, parsed_entry fields (k + Z.of_nat i)) (l1 ++ l2)
  = imap (λ i fields, parsed_entry fields (k + Z.of_nat i)) l1
    ++ imap (λ i fields, parsed_entry fields (k + Z.of_nat (length l1) + Z.of_nat i)) l2.
Proof.
  rewrite imap_app. f_equal. apply imap_ext. intros i x _. cbn.
  f_equal. lia.
Qed.

Lemma run_load_lines (lines : list string) :
  ∀ ledgerID w,
    0 ≤ ledgerID →
    ledgerID + Z.of_nat (length (omap parse_line lines)) ≤ INT_MAX →
    load_lines parse_line lines ledgerID w
    = Done tt
        (with_ledger
           (ledger w
            ++ imap (λ i fields, parsed_entry fields (ledgerID + Z.of_nat i))
                 (omap parse_line lines)) w).
Proof.
  induction lines as [|line lines IH]; intros ledgerID w H0 Hfit.
  - cbn. rewrite app_nil_r. by destruct w.
  - cbn [load_lines omap list_omap] in *.
    destruct (parse_line line) as [fields|].
    + cbn [length] in Hfit.
      assert (in_int (ledgerID + 1) = true) as ->.
      { apply in_int_bounds. unfold INT_MIN, INT_MAX in *. lia. }
      rewrite IH by (cbn [ledger with_ledger]; lia).
      cbn [ledger with_ledger bank ledger_lock cout locklog imap].
      rewrite <- app_assoc. cbn [app]. unfold with_ledger. cbn.
      do 3 f_equal. f_equal.
      * f_equal. lia.
      * apply imap_ext. intros i x _. cbn. f_equal. lia.
    + by apply IH.
Qed.

End load_properties.

(** X17.  [load_ledger] on a file that opens returns 0 after appending one
    entry per line from which four integers can be read, in the order of the
    lines; the entries are numbered 0, 1, 2, ... in that order, a line that
    does not parse taking no number; nothing but the ledger changes.  The
    file holds at most [INT_MAX] such lines. *)
Theorem load_ledger_numbers_entries
    (parse_line : string → option (Z * Z * Z * Z))
    (lines : list string) (w : World) :
  Z.of_nat (length (omap parse_line lines)) ≤ INT_MAX →
  ∃ w',
    load_ledger parse_line (Some lines) w = Done 0 w'
    ∧ ledger w'
      = ledger w
        ++ imap (λ i fields, parsed_entry fields (Z.of_nat i))
             (omap parse_line lines)
    ∧ bank w' = bank w
    ∧ ledger_lock w' = ledger_lock w
    ∧ cout w' = cout w.
Proof.
  intros Hfit. unfold load_ledger.
  rewrite run_load_lines by lia. eexists. split; [done|].
  cbn. split; [|done]. f_equal.
Qed.

Lemma load_ledger_numbers_entries_witness :
  ∃ w',
    load_ledger
      (λ s, if String.eqb s "0 1 5 2" then Some (0, 1, 5, 2)
            else if String.eqb s "1 0 7 0" then Some (1, 0, 7, 0) else None)
      (Some ["0 1 5 2"; "oops"; "1 0 7 0"]%string) (world_of bank10 [])
    = Done 0 w'
    ∧ ledger w'
      = ledger (world_of bank10 [])
        ++ imap (λ i fields, parsed_entry fields (Z.of_nat i))
             (omap (λ s, if String.eqb s "0 1 5 2" then Some (0, 1, 5, 2)
                         else if String.eqb s "1 0 7 0" then Some (1, 0, 7, 0)
                         else None)
                ["0 1 5 2"; "oops"; "1 0 7 0"]%string)
    ∧ bank w' = bank (world_of bank10 [])
    ∧ ledger_lock w' = ledger_lock (world_of bank10 [])
    ∧ cout w' = cout (world_of bank10 []).
Proof.
  apply (load_ledger_numbers_entries
           (λ s, if String.eqb s "0 1 5 2" then Some (0, 1, 5, 2)
                 else if String.eqb s "1 0 7 0" then Some (1, 0, 7, 0)
                 else None)
           ["0 1 5 2"; "oops"; "1 0 7 0"]%string (world_of bank10 [])).
  vm_compute. discriminate.
Defined.

(** ** No deadlock without a transfer from an account to itself *)

Lemma lock_discipline_orderly {R : Type} held (p : prog R) Q :
  lock_discipline held p Q → orderly held p Q.
Proof.
  revert held. induction p as [r|X e k IH]; intros held; cbn; [done|].
  intros [Hacq Hk]. split; [done|]. intros x _. by apply IH.
Qed.

Lemma orderly_bind {A B : Type} held (p : prog A) (f : A → prog B)
    (Q' Q : list lockid → Prop) :
  orderly held p Q' →
  (∀ x h, Q' h → orderly h (f x) Q) →
  orderly held (bind p f) Q.
Proof.
  revert held. induction p as [r|X e k IH]; intros held Hp Hf; cbn in *.
  - by apply Hf.
  - destruct Hp as [Hacq Hk]. split; [done|]. intros x Hx. apply IH; [by apply Hk|done].
Qed.

Lemma worker_iteration_orderly id :
  orderly [] (worker_iteration id) (λ h, h = []).
Proof.
  unfold worker_iteration, pthread_mutex_lock, pthread_mutex_unlock.
  cbn [bind trigger orderly acquires_in_order held_after answer_ok].
  split; [exact I|]. intros [] _; [done|].
  cbn [bind trigger orderly acquires_in_order held_after answer_ok].
  split; [apply Forall_nil_2|]. intros [] _.
  split; [exact I|]. intros e He.
  split; [exact I|]. intros [] _.
  split; [exact I|]. intros [] _.
  cbn [filter list_filter]. rewrite decide_False by (by intros ?).
  unfold self_transfer_entry in He.
  apply (orderly_bind _ _ _ (λ h, h = [])); [|by intros ? ? ->].
  destruct (mode e =? D); [|destruct (mode e =? W)].
  - apply lock_discipline_orderly, deposit_lock_discipline.
  - apply lock_discipline_orderly, withdraw_lock_discipline.
  - cbn in He. apply lock_discipline_orderly.
    pose proof (transfer_lock_discipline id (ledgerID e) (acc e) (other e)
                  (to_unsigned (amount e))) as H.
    by rewrite He in H.
Qed.

Lemma handle_answer_ok {X : Type} t (e : event X) w x w' :
  Forall (λ e, self_transfer_entry e = false) (ledger w) →
  handle t e w = Done x w' → answer_ok e x.
Proof.
  intros Hok. destruct e; cbn; try done.
  destruct (ledger w) as [|e0 rest]; [done|]. intros [= <- _].
  by inversion Hok.
Qed.

(** Who owns what after an action. *)
Lemma handle_owner {X : Type} t (e : event X) w x w' l t2 :
  handle t e w = Done x w' →
  lock_of w' l = Some (Some t2) →
  (t2 ≠ t → lock_of w l = Some (Some t2))
  ∧ (t2 = t → ∀ h, (lock_of w l = Some (Some t) → l ∈ h) → l ∈ held_after e h).
Proof.
  destruct e; cbn [handle held_after].
  - destruct (lookup_account w i); [|done]. intros [= _ <-] H.
    split; [done|]. intros -> h Hh. by apply Hh.
  - unfold mutex_acquire. destruct (lock_of w l0) as [[?|]|] eqn:E; [done| |done].
    intros [= _ <-]. unfold acquired. rewrite lock_of_log_lock, lock_of_set_mutex.
    case_decide as Hl.
    + subst l0. rewrite E. cbn. intros [= <-]. split; [done|].
      intros _ h _. apply list_elem_of_here.
    + intros H. split; [done|]. intros -> h Hh.
      apply list_elem_of_further. by apply Hh.
  - unfold mutex_release. destruct (lock_of w l0) as [m|] eqn:E; [|done].
    destruct (owned_by t m); [|done].
    intros [= _ <-]. unfold released. rewrite lock_of_log_lock, lock_of_set_mutex.
    case_decide as Hl.
    + subst l0. rewrite E. done.
    + intros H. split; [done|]. intros -> h Hh.
      apply list_elem_of_filter. split; [congruence|by apply Hh].
  - destruct (lookup_account w i); [|done]. intros [= _ <-] H.
    split; [done|]. intros -> h Hh. by apply Hh.
  - destruct (lookup_account w i); [|done].
    destruct (in_long v); [|done]. intros [= _ <-]. unfold stored.
    rewrite lock_of_store. intros H.
    split; [done|]. intros -> h Hh. by apply Hh.
  - destruct (lookup_account w i); [|done]. intros [= _ <-] H.
    split; [done|]. intros -> h Hh. by apply Hh.
  - intros [= _ <-] H. split; [done|]. intros -> h Hh. by apply Hh.
  - intros [= _ <-] H. split; [done|]. intros -> h Hh. by apply Hh.
  - intros [= _ <-] H. split; [done|]. intros -> h Hh. by apply Hh.
  - intros [= _ <-]. rewrite lock_of_with_cout. intros H.
    split; [done|]. intros -> h Hh. by apply Hh.
  - destruct (in_int _); [|done]. intros [= _ <-].
    rewrite lock_of_set_num_succ. intros H.
    split; [done|]. intros -> h Hh. by apply Hh.
  - destruct (in_int _); [|done]. intros [= _ <-].
    rewrite lock_of_set_num_fail. intros H.
    split; [done|]. intros -> h Hh. by apply Hh.
  - intros [= _ <-] H. split; [done|]. intros -> h Hh. by apply Hh.
  - destruct (ledger w); [done|]. intros [= _ <-] H.
    split; [done|]. intros -> h Hh. by apply Hh.
  - destruct (ledger w); [done|]. intros [= _ <-].
    rewrite lock_of_with_ledger. intros H.
    split; [done|]. intros -> h Hh. by apply Hh.
Qed.

Lemma pool_step_orderly helds t ths w ths' w' :
  pool_orderly helds ths w →
  pool_step t ths w = Done ths' w' →
  ∃ helds', pool_orderly helds' ths' w'.
Proof.
  intros (Hlen & Hths & Hown & Hok). unfold pool_step.
  destruct (ths !! t) as [th|] eqn:Hth; [|done].
  assert (t < length ths)%nat as Hlt by (by eapply lookup_lt_Some).
  destruct (lookup_lt_is_Some_2 helds t) as [h Hh]; [lia|].
  pose proof (Hths t th h Hth Hh) as Hthis.
  destruct th as [id [[|]|X e k]|]; cbn [thread_step thread_orderly orderly] in *.
  - intros [= <- <-]. exists helds. split; [by rewrite length_insert|].
    split; [|done]. intros t1 th1 h1.
    destruct (decide (t1 = t)) as [->|Hne].
    + rewrite list_lookup_insert_eq by done. intros [= <-]. rewrite Hh.
      by intros [= <-].
    + rewrite list_lookup_insert_ne by done. apply Hths.
  - intros [= <- <-]. exists helds. split; [by rewrite length_insert|].
    split; [|done]. intros t1 th1 h1.
    destruct (decide (t1 = t)) as [->|Hne].
    + rewrite list_lookup_insert_eq by done. intros [= <-]. rewrite Hh.
      intros [= <-]. subst h. apply worker_iteration_orderly.
    + rewrite list_lookup_insert_ne by done. apply Hths.
  - destruct (handle t e w) as [x w1| |] eqn:He; [|done..].
    intros [= <- <-]. destruct Hthis as [Hacq Hk].
    exists (<[t := held_after e h]> helds).
    split; [by rewrite !length_insert|]. split; [|split].
    + intros t1 th1 h1. destruct (decide (t1 = t)) as [->|Hne].
      * rewrite !list_lookup_insert_eq by lia. intros [= <-] [= <-].
        apply Hk. by eapply handle_answer_ok.
      * rewrite !list_lookup_insert_ne by done. apply Hths.
    + intros l t2 Hl.
      destruct (handle_owner _ _ _ _ _ _ _ He Hl) as [Hother Hself].
      destruct (decide (t2 = t)) as [->|Hne].
      * exists (held_after e h). split; [by rewrite list_lookup_insert_eq by lia|].
        apply Hself; [done|]. intros Hw.
        destruct (Hown _ _ Hw) as (h' & Hh' & Hin).
        by assert (h' = h) as -> by congruence.
      * rewrite list_lookup_insert_ne by done. by apply Hown, Hother.
    + destruct (handle_ledger _ _ _ _ _ He) as [->|[e0 Heq]]; [done|].
      rewrite Heq in Hok. by inversion Hok.
  - done.
Qed.

Lemma run_schedule_orderly sched :
  ∀ helds ths w ths' w',
    pool_orderly helds ths w →
    run_schedule sched ths w = Done ths' w' →
    ∃ helds', pool_orderly helds' ths' w'.
Proof.
  induction sched as [|t sched IH]; intros helds ths w ths' w' Hinv H.
  - cbn in H. simplify_eq. by exists helds.
  - cbn [run_schedule] in H.
    destruct (pool_step t ths w) as [ths1 w1| |] eqn:Hstep; [|done..].
    destruct (pool_step_orderly _ _ _ _ _ _ Hinv Hstep) as [helds1 Hinv1].
    by eapply IH.
Qed.

(** A thread that cannot step has returned or waits for a held mutex. *)
Lemma blocked_thread w t th :
  can_step w t th = false →
  th = Returned
  ∨ ∃ id l k t',
      th = Running id (Vis (ELock l) k) ∧ lock_of w l = Some (Some t').
Proof.
  unfold can_step. destruct th as [id [[|]|X e k]|]; cbn [thread_step];
    [done|done| |by left].
  destruct (handle t e w) as [x w1| |] eqn:He; [done| |done]. intros _.
  right. destruct e; cbn in He; unfold mutex_acquire, mutex_release in He;
    repeat match type of He with
           | match ?c with _ => _ end = _ => destruct c eqn:?
           | (if ?c then _ else _) = _ => destruct c eqn:?
           end; try done.
  by eexists _, _, _, _.
Qed.

Lemma lock_before_rank w l l' m m' :
  lock_before l l' → lock_of w l = Some m → lock_of w l' = Some m' →
  (lock_rank w l' < lock_rank w l)%nat.
Proof.
  destruct l as [i| |], l' as [j| |]; cbn; try done.
  - intros Hij Hi Hj.
    destruct (lookup_account w j) as [a|] eqn:E; [|done].
    apply lookup_account_Some in E. lia.
  - intros _ Hi _.
    destruct (lookup_account w i) as [a|] eqn:E; [|done].
    apply lookup_account_Some in E. lia.
Qed.

Lemma spawned_orderly n w :
  at_rest w = true →
  forallb (λ e, negb (self_transfer_entry e)) (ledger w) = true →
  pool_orderly (replicate n []) (spawn <$> seq 0 n) w.
Proof.
  intros Hrest Hok.
  split; [by rewrite length_replicate, length_fmap, length_seq|].
  split; [|split].
  - intros t th h. rewrite list_lookup_fmap. intros Hth Hh.
    apply lookup_replicate in Hh as [-> _].
    destruct (seq 0 n !! t) eqn:E; [|done]. cbn in Hth. injection Hth as <-.
    apply worker_iteration_orderly.
  - intros l t Hl. by apply (proj1 (at_rest_locks w) Hrest) in Hl.
  - apply Forall_forall. intros e He. rewrite forallb_forall in Hok.
    apply list_elem_of_In, Hok in He. by apply negb_true_iff.
Qed.

(** In an orderly pool in which no thread can step, no thread waits for a
    mutex: its owner would wait for a later one, and so on for ever. *)
Lemma no_wait helds ths w :
  pool_orderly helds ths w →
  (∀ (t : nat) th, ths !! t = Some th → can_step w t th = false) →
  ∀ n (t : nat) id l k t',
    ths !! t = Some (Running id (Vis (ELock l) k)) →
    lock_of w l = Some (Some t') →
    (lock_rank w l < n)%nat → False.
Proof.
  intros (Hlen & Hths & Hown & _) Hblocked.
  induction n as [|n IH]; intros t id l k t' Hth Hl Hrank; [lia|].
  destruct (Hown l t' Hl) as (h' & Hh' & Hin).
  destruct (lookup_lt_is_Some_2 ths t') as [th' Hth'].
  { rewrite <- Hlen. by eapply lookup_lt_Some. }
  pose proof (Hths t' th' h' Hth' Hh') as Hord.
  destruct (blocked_thread w t' th' (Hblocked _ _ Hth'))
    as [->|(id' & l' & k' & t'' & -> & Hl')].
  - cbn in Hord. subst h'. by apply elem_of_nil in Hin.
  - cbn in Hord. destruct Hord as [Hacq _].
    rewrite Forall_forall in Hacq. specialize (Hacq l Hin).
    pose proof (lock_before_rank w l l' _ _ Hacq Hl Hl').
    eapply (IH t' id' l' k' t''); [done|done|lia].
Qed.

Lemma exists_not_returned (ths : pool) :
  forallb returned ths = false →
  ∃ (t : nat) th, ths !! t = Some th ∧ returned th = false.
Proof.
  induction ths as [|th ths IH]; [done|]. cbn.
  destruct (returned th) eqn:E; cbn.
  - intros (t & th' & H1 & H2)%IH. by exists (S t), th'.
  - intros _. by exists 0%nat, th.
Qed.

(** X19.  The order in which [transfer] takes the two account mutexes does
    its work: when no ledger entry is a transfer from an account to itself,
    no interleaving of any number of workers ends in a deadlock.  Whenever a
    worker has not returned, some worker can take a step. *)
Theorem no_deadlock_without_self_transfer
    (num_workers : nat) (l : list Ledger) (sched : list tid)
    (ths : pool) (w : World) :
  forallb (λ e, negb (self_transfer_entry e)) l = true →
  run_schedule sched (InitBank num_workers l).1 (InitBank num_workers l).2
  = Done ths w →
  deadlocked ths w = false.
Proof.
  intros Hok Hrun.
  destruct (run_schedule_orderly sched (replicate num_workers []) _ _ _ _
              (spawned_orderly num_workers (world_of bank10 l) eq_refl Hok)
              Hrun) as [helds Hinv].
  destruct (deadlocked ths w) eqn:Hdead; [exfalso|done].
  unfold deadlocked in Hdead. apply andb_true_iff in Hdead as [Hsome Hall].
  apply negb_true_iff in Hsome.
  destruct (exists_not_returned _ Hsome) as (t & th & Hth & Hret).
  assert (∀ (t : nat) th, ths !! t = Some th → can_step w t th = false)
    as Hblocked.
  { intros t1 th1 H1. rewrite forallb_forall in Hall.
    specialize (Hall (t1, th1)). cbn in Hall. apply negb_true_iff, Hall.
    apply list_elem_of_In. apply elem_of_lookup_imap. by exists t1, th1. }
  destruct (blocked_thread w t th (Hblocked _ _ Hth))
    as [->|(id & l0 & k & t' & -> & Hl)]; [done|].
  eapply (no_wait helds ths w Hinv Hblocked (S (lock_rank w l0)));
    [exact Hth|exact Hl|lia].
Qed.

Lemma no_deadlock_without_self_transfer_witness :
  ∃ ths w,
    run_schedule schedule_crossing
      (InitBank 2 crossing_ledger).1 (InitBank 2 crossing_ledger).2
    = Done ths w
    ∧ deadlocked ths w = false.
Proof.
  destruct (run_schedule schedule_crossing
              (InitBank 2 crossing_ledger).1 (InitBank 2 crossing_ledger).2)
    as [ths w| |] eqn:H; [|by vm_compute in H..].
  exists ths, w. split; [reflexivity|].
  exact (no_deadlock_without_self_transfer 2 crossing_ledger
           schedule_crossing ths w eq_refl H).
Defined.

(** In that interleaving the second worker waits for the mutex of account 0,
    which the first holds and will release. *)
Example crossing_transfers_wait :
  ∃ ths w,
    run_schedule schedule_crossing
      (InitBank 2 crossing_ledger).1 (InitBank 2 crossing_ledger).2
    = Done ths w
    ∧ imap (can_step w) ths = [true; false]
    ∧ lock_of w (AccLock 0) = Some (Some 0%nat).
Proof.
  eexists _, _. split; [vm_compute; reflexivity|].
  split; vm_compute; reflexivity.
Qed.
